(** * The external scanner of tree-sitter-vim9 (src/scanner.c)

    A shallow embedding of the scanner: its persistent state, the state
    codec ([serialize] / [deserialize]), the primitive lexers, the keyword
    matcher and the dispatch function [scan], followed by the properties the
    specification states about them. *)

From Stdlib Require Import ZArith Ascii String List Bool Lia.
Import ListNotations.
Local Open Scope Z_scope.

(** ** C data

    A [char] and a [uint8_t] are kept as their bit pattern, a [Z] in
    [0, 256).  The lookahead of the host lexer is an [int32_t] code point. *)

Definition to_char (c : Z) : Z := c mod 256.
Definition to_uint8 (c : Z) : Z := c mod 256.
Definition bool_to_char (b : bool) : Z := if b then 1 else 0.
Definition char_to_bool (c : Z) : bool := negb (c =? 0).

(** [dest[off .. off + |bytes|) := bytes], the effect of a run of stores. *)
Definition store (dest : list Z) (off : nat) (bytes : list Z) : list Z :=
  firstn off dest ++ bytes ++ skipn (off + length bytes) dest.

(** The [n] bytes [strncpy(dest, src, n)] writes to [dest]: the characters of
    [src] up to its first nul, then nul padding.  [src] is the array read;
    no call of the scanner reads past it while [marker_len] respects the
    capacity of the marker buffer, and the model reads nul there. *)
Fixpoint strncpy (src : list Z) (n : nat) {struct n} : list Z :=
  match n with
  | O => []
  | S n' =>
      match src with
      | [] => repeat 0 n
      | c :: rest => if c =? 0 then repeat 0 n else c :: strncpy rest n'
      end
  end.

(** [memset(dest + off, c, n)]. *)
Definition memset (dest : list Z) (off : nat) (c : Z) (n : nat) : list Z :=
  store dest off (repeat c n).

(** ** Persistent scanner state *)

Definition HEREDOC_MARKER_LEN : nat := 32.

Record Scanner : Type := mkScanner {
  separator : Z;
  ignore_comments : bool;
  marker_len : Z;
  heredoc_marker : list Z
}.

Definition set_separator (s : Scanner) (c : Z) : Scanner :=
  mkScanner c (ignore_comments s) (marker_len s) (heredoc_marker s).
Definition set_ignore_comments (s : Scanner) (b : bool) : Scanner :=
  mkScanner (separator s) b (marker_len s) (heredoc_marker s).
Definition set_marker_len (s : Scanner) (n : Z) : Scanner :=
  mkScanner (separator s) (ignore_comments s) n (heredoc_marker s).
Definition set_heredoc_marker (s : Scanner) (m : list Z) : Scanner :=
  mkScanner (separator s) (ignore_comments s) (marker_len s) m.

(** [tree_sitter_vim_external_scanner_create]: the state a fresh allocation
    is initialised to. *)
Definition tree_sitter_vim_external_scanner_create : Scanner :=
  mkScanner 0 false 0 (repeat 0 HEREDOC_MARKER_LEN).

(** The marker as a string: the first [marker_len] bytes of the buffer. *)
Definition marker (s : Scanner) : list Z :=
  firstn (Z.to_nat (marker_len s)) (heredoc_marker s).

(** No non-nul byte follows a nul. *)
Fixpoint nul_closed (l : list Z) : bool :=
  match l with
  | [] => true
  | c :: rest => if c =? 0 then forallb (fun x => x =? 0) rest else nul_closed rest
  end.

(** The invariant of the states the scanner reaches. *)
Record wf_scanner (s : Scanner) : Prop := mk_wf {
  wf_separator : 0 <= separator s < 256;
  wf_marker_len : 0 <= marker_len s < Z.of_nat HEREDOC_MARKER_LEN;
  wf_buffer : length (heredoc_marker s) = HEREDOC_MARKER_LEN;
  wf_marker : nul_closed (marker s) = true
}.

(** Two states are equal as scanner states when their separator, flag and
    marker agree; the bytes of the buffer past [marker_len] are never read. *)
Definition state_eq (s1 s2 : Scanner) : Prop :=
  separator s1 = separator s2 /\
  ignore_comments s1 = ignore_comments s2 /\
  marker_len s1 = marker_len s2 /\
  marker s1 = marker s2.

(** ** State codec *)

Definition SC_IGNORE_COMMENTS : nat := 0.
Definition SC_PAIRED_SEP : nat := 1.
Definition SC_MARK_LEN : nat := 2.
Definition SC_MARK : nat := 3.

(** Returns the number of bytes written and the buffer after the writes. *)
Definition tree_sitter_vim_external_scanner_serialize
    (s : Scanner) (buffer : list Z) : Z * list Z :=
  let buffer := store buffer SC_PAIRED_SEP [separator s] in
  let buffer := store buffer SC_IGNORE_COMMENTS [bool_to_char (ignore_comments s)] in
  let buffer := store buffer SC_MARK_LEN [marker_len s] in
  let buffer :=
    store buffer SC_MARK (strncpy (heredoc_marker s) (Z.to_nat (marker_len s))) in
  (marker_len s + Z.of_nat SC_MARK, buffer).

(** The bytes the host keeps: the first [length] bytes of the buffer. *)
Definition serialized (s : Scanner) (buffer : list Z) : list Z :=
  let '(len, buffer') := tree_sitter_vim_external_scanner_serialize s buffer in
  firstn (Z.to_nat len) buffer'.

(** [None] is a failed [assert]. *)
Definition tree_sitter_vim_external_scanner_deserialize
    (s : Scanner) (buffer : list Z) (length : Z) : option Scanner :=
  if length =? 0 then Some s
  else
    let s := set_ignore_comments s (char_to_bool (nth SC_IGNORE_COMMENTS buffer 0)) in
    let s := set_separator s (nth SC_PAIRED_SEP buffer 0) in
    let s := set_marker_len s (to_uint8 (nth SC_MARK_LEN buffer 0)) in
    if negb (marker_len s + Z.of_nat SC_MARK =? length) then None
    else if negb (marker_len s <? Z.of_nat HEREDOC_MARKER_LEN) then None
    else if marker_len s >? 0 then
      Some (set_heredoc_marker s
              (store (heredoc_marker s) 0
                 (strncpy (skipn SC_MARK buffer) (Z.to_nat (marker_len s)))))
    else Some s.

(** ** Characters and token kinds *)

Definition ch (a : ascii) : Z := Z.of_N (N_of_ascii a).

Fixpoint str (s : string) : list Z :=
  match s with
  | EmptyString => []
  | String a rest => ch a :: str rest
  end.

Definition CH_TAB : Z := 9.
Definition CH_NL : Z := 10.
Definition CH_DQUOTE : Z := 34.
Definition CH_SQUOTE : Z := 39.
Definition CH_BACKSLASH : Z := 92.

Definition IS_SPACE_TABS (c : Z) : bool := (c =? ch " ") || (c =? CH_TAB).

(** [enum TokenType], by ordinal; the kinds of the keyword table follow
    [KEYWORDS_BASE]. *)
Definition NO : nat := 0.
Definition INV : nat := 1.
Definition CMD_SEPARATOR : nat := 2.
Definition LINE_CONTINUATION : nat := 3.
Definition SCRIPT_HEREDOC_MARKER : nat := 4.
Definition LET_HEREDOC_MARKER : nat := 5.
Definition HEREDOC_END : nat := 6.
Definition SEP_FIRST : nat := 7.
Definition SEP : nat := 8.
Definition SCOPE_DICT : nat := 9.
Definition SCOPE : nat := 10.
Definition STRING : nat := 11.
Definition COMMENT : nat := 12.
Definition LINE_CONTINUATION_COMMENT : nat := 13.
Definition BANG_FILTER : nat := 14.
Definition KEYWORDS_BASE : nat := 15.

Record keyword : Type := mkKeyword {
  mandat : list Z;
  opt : list Z;
  ignore_comments_after : bool
}.

(** ** The host lexer *)

(** Modelled from the spec: the cursor the host hands to a scan call (the
    [TSLexer] of tree_sitter/parser.h, which is not part of this
    repository): peek the current character, advance past it (optionally
    skipping it as whitespace), mark the end of the token.  [input] holds the
    code points not yet consumed; the lookahead is nul at the end of input,
    where advancing does nothing.  [pos] counts the characters consumed,
    [token_start] is the position after the last character skipped,
    [token_end] the position of the last [mark_end]. *)
Record TSLexer : Type := mkLexer {
  input : list Z;
  pos : nat;
  token_start : nat;
  token_end : option nat;
  result_symbol : nat
}.

Definition lookahead (lexer : TSLexer) : Z := hd 0 (input lexer).

Definition advance (lexer : TSLexer) (skip : bool) : TSLexer :=
  match input lexer with
  | [] => lexer
  | _ :: rest =>
      mkLexer rest (S (pos lexer))
        (if skip then S (pos lexer) else token_start lexer)
        (token_end lexer) (result_symbol lexer)
  end.

Definition mark_end (lexer : TSLexer) : TSLexer :=
  mkLexer (input lexer) (pos lexer) (token_start lexer) (Some (pos lexer))
    (result_symbol lexer).

Definition set_result_symbol (lexer : TSLexer) (token : nat) : TSLexer :=
  mkLexer (input lexer) (pos lexer) (token_start lexer) (token_end lexer) token.

(** A lexer at the start of a scan call over [inp]. *)
Definition lexer_on (inp : list Z) : TSLexer := mkLexer inp 0 0 None 0.

(** ** Lexers that need no parameter *)

(** Every iteration consumes one character and the loop stops at the end of
    input, so the length of the input bounds the iterations. *)
Fixpoint skip_space_tabs_loop (fuel : nat) (lexer : TSLexer) : TSLexer :=
  match fuel with
  | O => lexer
  | S fuel' =>
      if IS_SPACE_TABS (lookahead lexer)
      then skip_space_tabs_loop fuel' (advance lexer true)
      else lexer
  end.

Definition skip_space_tabs (lexer : TSLexer) : TSLexer :=
  skip_space_tabs_loop (length (input lexer)) lexer.

(** [while (lookahead != '\0' && lookahead != '\n') advance]. *)
Fixpoint skip_line_loop (fuel : nat) (lexer : TSLexer) : TSLexer :=
  match fuel with
  | O => lexer
  | S fuel' =>
      if negb (lookahead lexer =? 0) && negb (lookahead lexer =? CH_NL)
      then skip_line_loop fuel' (advance lexer false)
      else lexer
  end.

Definition skip_line (lexer : TSLexer) : TSLexer :=
  skip_line_loop (length (input lexer)) lexer.

Definition is_valid_string_delim (c : Z) : bool :=
  (c =? CH_SQUOTE) || (c =? CH_DQUOTE).

(** Every iteration that continues consumes a character.  With fuel above
    the length of the input the [O] case is never reached. *)
Fixpoint lex_literal_string_loop (fuel : nat) (lexer : TSLexer) : bool * TSLexer :=
  match fuel with
  | O => (false, lexer)
  | S fuel' =>
      if lookahead lexer =? CH_SQUOTE then
        let lexer := advance lexer false in
        if lookahead lexer =? CH_SQUOTE
        then lex_literal_string_loop fuel' (advance lexer false)
        else (true, mark_end (set_result_symbol lexer STRING))
      else if lookahead lexer =? CH_NL then
        let lexer := mark_end lexer in
        let lexer := advance lexer true in
        let lexer := skip_space_tabs lexer in
        if negb (lookahead lexer =? CH_BACKSLASH) then (false, lexer)
        else lex_literal_string_loop fuel' lexer
      else if lookahead lexer =? 0 then (false, lexer)
      else lex_literal_string_loop fuel' (advance lexer false)
  end.

Definition lex_literal_string (lexer : TSLexer) : bool * TSLexer :=
  lex_literal_string_loop (S (length (input lexer))) lexer.

Fixpoint lex_escapable_string_loop (fuel : nat) (lexer : TSLexer) : bool * TSLexer :=
  match fuel with
  | O => (false, lexer)
  | S fuel' =>
      if lookahead lexer =? CH_BACKSLASH then
        lex_escapable_string_loop fuel' (advance (advance lexer false) false)
      else if lookahead lexer =? CH_DQUOTE then
        let lexer := advance lexer false in
        let lexer := mark_end lexer in
        (true, set_result_symbol lexer STRING)
      else if lookahead lexer =? CH_NL then
        let lexer := mark_end lexer in
        let lexer := advance lexer false in
        let lexer := skip_space_tabs lexer in
        if negb (lookahead lexer =? CH_BACKSLASH) then
          let lexer := mark_end lexer in
          (true, set_result_symbol lexer COMMENT)
        else lex_escapable_string_loop fuel' lexer
      else if lookahead lexer =? 0 then (false, lexer)
      else lex_escapable_string_loop fuel' (advance lexer false)
  end.

Definition lex_escapable_string (lexer : TSLexer) : bool * TSLexer :=
  lex_escapable_string_loop (S (length (input lexer))) lexer.

(** The delimiter is a [char]: the lookahead is truncated.  The [default]
    case of the switch is [assert(0)]; the guard makes it unreachable. *)
Definition lex_string (lexer : TSLexer) : bool * TSLexer :=
  if negb (is_valid_string_delim (to_char (lookahead lexer))) then (false, lexer)
  else
    let string_delim := to_char (lookahead lexer) in
    let lexer := advance lexer false in
    if string_delim =? CH_DQUOTE then lex_escapable_string lexer
    else if string_delim =? CH_SQUOTE then lex_literal_string lexer
    else (false, lexer).

(** The strings are nul-terminated: a list holds the characters before the
    nul.  [keyword.mandat[i] && possible[i]] holds while both lists go on. *)
Fixpoint try_lex_keyword_mandat (mandat possible : list Z) : option (list Z) :=
  match mandat with
  | [] => Some possible
  | m :: mandat' =>
      match possible with
      | [] => None
      | p :: possible' =>
          if negb (p =? m) then None else try_lex_keyword_mandat mandat' possible'
      end
  end.

Fixpoint try_lex_keyword_opt (opt possible : list Z) : bool :=
  match opt with
  | [] => true
  | o :: opt' =>
      match possible with
      | [] => true
      | p :: possible' =>
          if negb (p =? o) then false else try_lex_keyword_opt opt' possible'
      end
  end.

(** The first loop leaves [i] at the end of [mandat] ([Some rest], with
    [rest] the characters of [possible] from [mandat_len] on), or stops on a
    mismatch or on a [possible] shorter than [mandat] ([None]). *)
Definition try_lex_keyword (possible : list Z) (keyword : keyword) : bool :=
  if (length (mandat keyword) + length (opt keyword) <? length possible)%nat
  then false
  else
    match try_lex_keyword_mandat (mandat keyword) possible with
    | None => false
    | Some rest => try_lex_keyword_opt (opt keyword) rest
    end.

Definition scope_correct (lexer : TSLexer) : bool :=
  existsb (fun c => lookahead lexer =? c) (str "lbstvwg<").

(** [for (i = 0; sid[i] && lexer->lookahead; i++)]: [true] when the loop
    ends, [false] on the [return false] inside it. *)
Fixpoint lex_scope_sid_loop (sid : list Z) (lexer : TSLexer) : bool * TSLexer :=
  match sid with
  | [] => (true, lexer)
  | c :: sid' =>
      if lookahead lexer =? 0 then (true, lexer)
      else if negb (lookahead lexer =? c) then (false, lexer)
      else lex_scope_sid_loop sid' (advance lexer false)
  end.

(** ** The scanner over its environment

    What the C library and the generated header keywords.h supply is taken
    as a parameter: whether [char] is signed, the wide-character classes of
    the locale, and the keyword table with the bounds of its [kwid] index. *)

Inductive Rule : Type :=
| R_EOF
| R_SEP_FIRST
| R_SEP
| R_BANG_FILTER
| R_NO
| R_INV
| R_NEWLINE
| R_PIPE
| R_SCOPE
| R_SCRIPT_HEREDOC_MARKER
| R_LET_HEREDOC_MARKER
| R_HEREDOC_END
| R_COMMENT
| R_STRING
| R_KEYWORD
| R_NONE.

Definition KEYWORD_SIZE : nat := 30.

(** The characters of a buffer before its first nul. *)
Fixpoint cstr (buf : list Z) : list Z :=
  match buf with
  | [] => []
  | c :: rest => if c =? 0 then [] else c :: cstr rest
  end.

Section Scan.

Variable char_signed : bool.
Variables iswlower iswpunct iswalnum iswalpha : Z -> bool.
Variables FUNCTION UNKNOWN_COMMAND : nat.
Variable keywords : nat -> keyword.

(** The value of a [char] in a comparison with an [int32_t]. *)
Definition char_to_int (c : Z) : Z :=
  if char_signed && (128 <=? c) then c - 256 else c.

Fixpoint check_prefix_loop (lexer : TSLexer) (prefix : list Z) : bool * TSLexer :=
  match prefix with
  | [] => (true, lexer)
  | c :: prefix' =>
      if lookahead lexer =? char_to_int c
      then check_prefix_loop (advance lexer false) prefix'
      else (false, lexer)
  end.

Definition check_prefix (lexer : TSLexer) (prefix : list Z) (prefix_len : nat)
    (token : nat) : bool * TSLexer :=
  let '(ok, lexer) := check_prefix_loop lexer (firstn prefix_len prefix) in
  if ok then (true, set_result_symbol lexer token) else (false, lexer).

(** [room] is [HEREDOC_MARKER_LEN - marker_len]; [marker] holds the
    characters stored so far. *)
Fixpoint try_lex_heredoc_marker_loop (room : nat) (lexer : TSLexer)
    (marker : list Z) : list Z * TSLexer :=
  match room with
  | O => (marker, lexer)
  | S room' =>
      if negb (IS_SPACE_TABS (lookahead lexer)) && negb (lookahead lexer =? 0)
         && negb (lookahead lexer =? CH_NL)
      then try_lex_heredoc_marker_loop room' (advance lexer false)
             (marker ++ [to_char (lookahead lexer)])
      else (marker, lexer)
  end.

Definition try_lex_heredoc_marker (scanner : Scanner) (lexer : TSLexer)
    : bool * Scanner * TSLexer :=
  if iswlower (lookahead lexer) then (false, scanner, lexer)
  else
    let '(marker, lexer) :=
      try_lex_heredoc_marker_loop HEREDOC_MARKER_LEN lexer [] in
    let marker_len := length marker in
    if (marker_len =? HEREDOC_MARKER_LEN)%nat || (marker_len =? 0)%nat
    then (false, scanner, lexer)
    else
      let scanner :=
        set_heredoc_marker scanner
          (store (heredoc_marker scanner) 0 (strncpy marker marker_len)) in
      let scanner := set_marker_len scanner (to_uint8 (Z.of_nat marker_len)) in
      let scanner :=
        set_heredoc_marker scanner
          (memset (heredoc_marker scanner) marker_len 0
             (HEREDOC_MARKER_LEN - marker_len)) in
      (true, scanner, lexer).

Definition lex_scope (lexer : TSLexer) : bool * TSLexer :=
  if negb (scope_correct lexer) then (false, lexer)
  else if lookahead lexer =? ch "<" then
    let lexer := advance lexer false in
    let '(ok, lexer) := lex_scope_sid_loop (str "SID>") lexer in
    if ok then (true, set_result_symbol lexer SCOPE) else (false, lexer)
  else
    let lexer := advance lexer false in
    if negb (lookahead lexer =? ch ":") then (false, lexer)
    else
      let lexer := advance lexer false in
      if iswalnum (lookahead lexer) || (lookahead lexer =? ch "{")
         || (lookahead lexer =? ch "_")
      then (true, set_result_symbol lexer SCOPE)
      else (true, set_result_symbol lexer SCOPE_DICT).

(** *** The blocks of [scan] *)

(** Lines 324-360: the lookahead is a newline. *)
Definition scan_newline (s : Scanner) (lexer : TSLexer)
    (valid_symbols : nat -> bool) : bool * Scanner * TSLexer :=
  let lexer := advance lexer false in
  let lexer := mark_end lexer in
  let lexer := skip_space_tabs lexer in
  if lookahead lexer =? CH_BACKSLASH then
    let lexer := advance lexer false in
    if (lookahead lexer =? ch "/") || (lookahead lexer =? ch "?")
       || (lookahead lexer =? ch "&")
    then
      if valid_symbols CMD_SEPARATOR
      then (true, set_ignore_comments s false, set_result_symbol lexer CMD_SEPARATOR)
      else (false, s, lexer)
    else
      let lexer := mark_end lexer in
      (true, s, set_result_symbol lexer LINE_CONTINUATION)
  else
    let '(ok, lexer) :=
      if marker_len s =? 0
      then check_prefix lexer [CH_DQUOTE; CH_BACKSLASH; ch " "] 3
             LINE_CONTINUATION_COMMENT
      else (false, lexer) in
    if ok then
      let lexer := skip_line lexer in
      (true, s, mark_end lexer)
    else if valid_symbols CMD_SEPARATOR
    then (true, set_ignore_comments s false, set_result_symbol lexer CMD_SEPARATOR)
    else (false, s, lexer).

(** Lines 362-369. *)
Definition scan_pipe (s : Scanner) (lexer : TSLexer) : bool * Scanner * TSLexer :=
  let lexer := advance lexer false in
  if lookahead lexer =? ch "|" then (false, s, lexer)
  else (true, s, set_result_symbol lexer CMD_SEPARATOR).

(** Lines 388-403: the terminator of a heredoc. *)
Definition scan_heredoc_end (s : Scanner) (lexer : TSLexer)
    : bool * Scanner * TSLexer :=
  let marker := if negb (marker_len s =? 0) then heredoc_marker s else str "." in
  let marker_len := if negb (marker_len s =? 0) then marker_len s else 1 in
  let '(ok, lexer) := check_prefix lexer marker (Z.to_nat marker_len) HEREDOC_END in
  if negb ok then (false, s, lexer)
  else if negb (lookahead lexer =? 0) && negb (lookahead lexer =? CH_NL)
  then (false, s, lexer)
  else
    let s := set_marker_len s 0 in
    let s := set_heredoc_marker s
               (memset (heredoc_marker s) 0 0 HEREDOC_MARKER_LEN) in
    (true, s, lexer).

(** Lines 407-412: a comment up to the end of the line. *)
Definition scan_comment (s : Scanner) (lexer : TSLexer) : bool * Scanner * TSLexer :=
  let lexer := advance lexer false in
  let lexer := skip_line lexer in
  (true, s, set_result_symbol lexer COMMENT).

(** [room] is [KEYWORD_SIZE - i]; [keyword] holds [keyword[0 .. i)]. *)
Fixpoint scan_keyword_loop (room : nat) (lexer : TSLexer) (keyword : list Z)
    : list Z * TSLexer :=
  match room with
  | O => (keyword, lexer)
  | S room' =>
      if iswalpha (lookahead lexer)
      then scan_keyword_loop room' (advance lexer false)
             (keyword ++ [to_char (lookahead lexer)])
      else (keyword, lexer)
  end.

(** [for (kwid t = FUNCTION; t < UNKNOWN_COMMAND; t++)]: the first entry
    that is accepted and matches. *)
Fixpoint scan_keyword_table (ts : list nat) (valid_symbols : nat -> bool)
    (possible : list Z) : option nat :=
  match ts with
  | [] => None
  | t :: ts' =>
      if valid_symbols (t + KEYWORDS_BASE)%nat && try_lex_keyword possible (keywords t)
      then Some t
      else scan_keyword_table ts' valid_symbols possible
  end.

(** Lines 453-466, on the nul-terminated content of [keyword]. *)
Definition scan_keyword_match (s : Scanner) (lexer : TSLexer)
    (valid_symbols : nat -> bool) (possible : list Z) : bool * Scanner * TSLexer :=
  match scan_keyword_table (seq FUNCTION (UNKNOWN_COMMAND - FUNCTION))
          valid_symbols possible with
  | Some t =>
      (true, set_ignore_comments s (ignore_comments_after (keywords t)),
       set_result_symbol lexer (t + KEYWORDS_BASE))
  | None =>
      if valid_symbols (UNKNOWN_COMMAND + KEYWORDS_BASE)%nat
      then (true, s, set_result_symbol lexer (UNKNOWN_COMMAND + KEYWORDS_BASE))
      else (false, s, lexer)
  end.

Definition is_scope_letter (c : Z) : bool :=
  (c =? ch "g") || (c =? ch "b") || (c =? ch "l") || (c =? ch "t")
  || (c =? ch "w") || (c =? ch "s") || (c =? ch "v").

(** Lines 418-466: the lookahead is a lowercase letter. *)
Definition scan_keyword (s : Scanner) (lexer : TSLexer)
    (valid_symbols : nat -> bool) : bool * Scanner * TSLexer :=
  let keyword := [to_char (lookahead lexer)] in
  let scope_first := negb (lookahead lexer =? 0) && is_scope_letter (lookahead lexer) in
  let lexer := advance lexer false in
  if scope_first && (lookahead lexer =? ch ":") then
    let lexer := advance lexer false in
    (true, s, set_result_symbol lexer SCOPE)
  else
    let '(keyword, lexer) := scan_keyword_loop (KEYWORD_SIZE - 1) lexer keyword in
    if (length keyword =? KEYWORD_SIZE)%nat then (false, s, lexer)
    else scan_keyword_match s lexer valid_symbols (cstr keyword).

(** *** Dispatch

    The body of [scan] after its assertion.  Every branch of the source
    returns, so the sequence of [if] statements is one cascade; the [Rule]
    names the branch taken, the rest is what the branch returns (matched or
    not, the state, the lexer). *)
Definition scan_rules (s : Scanner) (lexer : TSLexer) (valid_symbols : nat -> bool)
    : Rule * (bool * Scanner * TSLexer) :=
  let lexer := skip_space_tabs lexer in
  if lookahead lexer =? 0 then (R_EOF, (false, s, lexer))
  else if valid_symbols SEP_FIRST && iswpunct (lookahead lexer) then
    let s := set_separator s (to_char (lookahead lexer)) in
    let lexer := advance lexer false in
    let s := set_ignore_comments s true in
    (R_SEP_FIRST, (true, s, set_result_symbol lexer SEP_FIRST))
  else if valid_symbols SEP && (char_to_int (separator s) =? lookahead lexer) then
    let lexer := advance lexer false in
    let s := set_ignore_comments s false in
    (R_SEP, (true, s, set_result_symbol lexer SEP))
  else if valid_symbols BANG_FILTER && (lookahead lexer =? ch "!") then
    let lexer := advance lexer false in
    let s := set_ignore_comments s true in
    (R_BANG_FILTER, (true, s, set_result_symbol lexer BANG_FILTER))
  else if valid_symbols NO && (lookahead lexer =? ch "n") then
    let '(ok, lexer) := check_prefix lexer (str "no") 2 NO in
    (R_NO, (ok, s, lexer))
  else if valid_symbols INV && (lookahead lexer =? ch "i") then
    let '(ok, lexer) := check_prefix lexer (str "inv") 3 INV in
    (R_INV, (ok, s, lexer))
  else if lookahead lexer =? CH_NL then
    (R_NEWLINE, scan_newline s lexer valid_symbols)
  else if valid_symbols CMD_SEPARATOR && (lookahead lexer =? ch "|") then
    (R_PIPE, scan_pipe s lexer)
  else if scope_correct lexer && (valid_symbols SCOPE_DICT || valid_symbols SCOPE) then
    let '(ok, lexer) := lex_scope lexer in
    (R_SCOPE, (ok, s, lexer))
  else if valid_symbols SCRIPT_HEREDOC_MARKER then
    (R_SCRIPT_HEREDOC_MARKER,
     try_lex_heredoc_marker s (set_result_symbol lexer SCRIPT_HEREDOC_MARKER))
  else if valid_symbols LET_HEREDOC_MARKER then
    (R_LET_HEREDOC_MARKER,
     try_lex_heredoc_marker s (set_result_symbol lexer LET_HEREDOC_MARKER))
  else if valid_symbols HEREDOC_END then
    (R_HEREDOC_END, scan_heredoc_end s lexer)
  else if valid_symbols COMMENT && negb (valid_symbols STRING)
          && (lookahead lexer =? CH_DQUOTE) && negb (ignore_comments s) then
    (R_COMMENT, scan_comment s lexer)
  else if valid_symbols STRING then
    let '(ok, lexer) := lex_string lexer in
    (R_STRING, (ok, s, lexer))
  else if iswlower (lookahead lexer) then
    (R_KEYWORD, scan_keyword s lexer valid_symbols)
  else (R_NONE, (false, s, lexer)).

(** [None] is the failed [assert(valid_symbols[LINE_CONTINUATION])]. *)
Definition tree_sitter_vim_external_scanner_scan (s : Scanner) (lexer : TSLexer)
    (valid_symbols : nat -> bool) : option (bool * Scanner * TSLexer) :=
  if negb (valid_symbols LINE_CONTINUATION) then None
  else Some (snd (scan_rules s lexer valid_symbols)).

End Scan.

(** ** Reachable states *)

Section Reachable.

Variable char_signed : bool.
Variables iswlower iswpunct iswalnum iswalpha : Z -> bool.
Variables FUNCTION UNKNOWN_COMMAND : nat.
Variable keywords : nat -> keyword.

(** The states of a parse session: the fresh state, the state after a scan
    call, and the state after the host restores a checkpoint, which is what
    [serialize] wrote for an earlier state (or nothing). *)
Inductive reachable : Scanner -> Prop :=
| reach_create : reachable tree_sitter_vim_external_scanner_create
| reach_scan : forall s lexer valid_symbols ok s' lexer',
    reachable s ->
    tree_sitter_vim_external_scanner_scan char_signed iswlower iswpunct iswalnum
      iswalpha FUNCTION UNKNOWN_COMMAND keywords s lexer valid_symbols
      = Some (ok, s', lexer') ->
    reachable s'
| reach_restore : forall s t buffer s',
    reachable s -> reachable t ->
    (Z.to_nat (marker_len s) + SC_MARK <= length buffer)%nat ->
    tree_sitter_vim_external_scanner_deserialize t (serialized s buffer)
      (fst (tree_sitter_vim_external_scanner_serialize s buffer)) = Some s' ->
    reachable s'
| reach_restore_nothing : forall t s',
    reachable t ->
    tree_sitter_vim_external_scanner_deserialize t [] 0 = Some s' ->
    reachable s'.

End Reachable.

(** ** The priority policy of the specification

    Rules 3 to 9 of the processing order, up to heredoc marker capture, as
    conditions on the lookahead [c] after blanks are skipped. *)

Section Priority.

Variable char_signed : bool.
Variable iswpunct : Z -> bool.

Definition paired_separator_applies (s : Scanner) (c : Z)
    (valid_symbols : nat -> bool) : bool :=
  (valid_symbols SEP_FIRST && iswpunct c)
  || (valid_symbols SEP && (char_to_int char_signed (separator s) =? c)).

Definition higher_priority_applies (s : Scanner) (c : Z)
    (valid_symbols : nat -> bool) : bool :=
  paired_separator_applies s c valid_symbols
  || (valid_symbols BANG_FILTER && (c =? ch "!"))
  || (valid_symbols NO && (c =? ch "n"))
  || (valid_symbols INV && (c =? ch "i"))
  || (c =? CH_NL)
  || (valid_symbols CMD_SEPARATOR && (c =? ch "|"))
  || (existsb (fun x => c =? x) (str "lbstvwg<")
      && (valid_symbols SCOPE_DICT || valid_symbols SCOPE))
  || valid_symbols SCRIPT_HEREDOC_MARKER
  || valid_symbols LET_HEREDOC_MARKER.

End Priority.

Definition terminator_attempted (r : Rule) : bool :=
  match r with R_HEREDOC_END => true | _ => false end.

Definition after_terminator (r : Rule) : bool :=
  match r with R_COMMENT | R_STRING | R_KEYWORD | R_NONE => true | _ => false end.

(** The lexer after [n] characters are consumed. *)
Definition advance_n (n : nat) (lexer : TSLexer) : TSLexer :=
  Nat.iter n (fun l => advance l false) lexer.

(** [x] is a leading substring of [y]. *)
Definition leading (x y : list Z) : Prop := exists k, y = x ++ k.

(** A unit of a double-quoted string: a plain character or an escape, a
    backslash with the character it escapes. *)
Inductive string_unit : Type :=
| Plain (c : Z)
| Escape (c : Z).

Definition plain_ok (c : Z) : bool :=
  negb (c =? CH_BACKSLASH) && negb (c =? CH_DQUOTE) && negb (c =? CH_NL)
  && negb (c =? 0).

Definition unit_ok (u : string_unit) : bool :=
  match u with
  | Plain c => plain_ok c
  | Escape _ => true
  end.

Definition unit_chars (u : string_unit) : list Z :=
  match u with
  | Plain c => [c]
  | Escape c => [CH_BACKSLASH; c]
  end.


(** ** Concrete environments for examples *)

(** The classes of the "C" locale. *)
Module CLocale.

Definition iswlower (c : Z) : bool := (97 <=? c) && (c <=? 122).
Definition iswupper (c : Z) : bool := (65 <=? c) && (c <=? 90).
Definition iswdigit (c : Z) : bool := (48 <=? c) && (c <=? 57).
Definition iswalpha (c : Z) : bool := iswlower c || iswupper c.
Definition iswalnum (c : Z) : bool := iswalpha c || iswdigit c.
Definition iswpunct (c : Z) : bool :=
  (33 <=? c) && (c <=? 126) && negb (iswalnum c).

End CLocale.

Module Sample.

(** A table in the format of keywords.h, with two entries. *)
Definition FUNCTION : nat := 0.
Definition UNKNOWN_COMMAND : nat := 2.
Definition keywords (t : nat) : keyword :=
  match t with
  | O => mkKeyword (str "fu") (str "nction") false
  | _ => mkKeyword (str "norm") (str "al") true
  end.

Definition accept (kinds : list nat) (t : nat) : bool :=
  existsb (Nat.eqb t) kinds.

Definition scan_rules := scan_rules true CLocale.iswlower CLocale.iswpunct
  CLocale.iswalnum CLocale.iswalpha FUNCTION UNKNOWN_COMMAND keywords.

Definition scan := tree_sitter_vim_external_scanner_scan true CLocale.iswlower
  CLocale.iswpunct CLocale.iswalnum CLocale.iswalpha FUNCTION UNKNOWN_COMMAND keywords.

(** A state with the separator [/] open, comments suppressed and the
    marker [EOF]. *)
Definition busy : Scanner :=
  mkScanner (ch "/") true 3 (str "EOF" ++ repeat 0 29).

(** A state whose open heredoc ends at a line holding [!]. *)
Definition bang_heredoc : Scanner :=
  mkScanner 0 false 1 (str "!" ++ repeat 0 31).

End Sample.

(** A locale of a UTF-8 environment, where punctuation goes beyond ASCII:
    here with the miscellaneous symbols, U+2600 to U+26FF. *)
Module SymbolLocale.

Definition iswpunct (c : Z) : bool :=
  CLocale.iswpunct c || ((9728 <=? c) && (c <=? 9983)).


Definition scan := tree_sitter_vim_external_scanner_scan true CLocale.iswlower
  iswpunct CLocale.iswalnum CLocale.iswalpha Sample.FUNCTION
  Sample.UNKNOWN_COMMAND Sample.keywords.


End SymbolLocale.

(** ** Proof automation *)

(** Case analysis on the pair a lexer returns. *)
Ltac break_pair_match :=
  match goal with
  | |- context [match ?e with pair _ _ => _ end] => destruct e
  end.

(** Case analysis on a test of the lookahead against [c]. *)
Ltac case_lookahead c H :=
  match goal with
  | |- context [lookahead ?l =? c] =>
      destruct (lookahead l =? c) eqn:H;
      [apply Z.eqb_eq in H | apply Z.eqb_neq in H]
  end.

(** Case analysis on every test and pair of a block of [scan]. *)
Ltac break_scan :=
  repeat match goal with
  | |- context [match ?e with pair _ _ => _ end] => destruct e
  | |- context [if ?b then _ else _] => destruct b
  | |- context [match ?e with Some _ => _ | None => _ end] => destruct e
  end.


(** ** Vocabulary of the further properties *)

(** [lexer'] is [lexer] after some characters were consumed. *)
Definition consumes (lexer lexer' : TSLexer) : Prop :=
  exists pre,
    input lexer = pre ++ input lexer'
    /\ pos lexer' = (pos lexer + length pre)%nat.

(** The end of a line: a newline, a nul, or the end of input, where the
    lookahead is nul. *)
Definition is_line_end (c : Z) : bool := (c =? 0) || (c =? CH_NL).

(** The characters the capture loop of [try_lex_heredoc_marker] takes. *)
Definition marker_char (c : Z) : bool :=
  negb (IS_SPACE_TABS c) && negb (c =? 0) && negb (c =? CH_NL).

(** The fields a branch of [scan] may write. *)
Definition writes_separator (r : Rule) : bool :=
  match r with R_SEP_FIRST => true | _ => false end.

Definition writes_marker (r : Rule) : bool :=
  match r with
  | R_SCRIPT_HEREDOC_MARKER | R_LET_HEREDOC_MARKER | R_HEREDOC_END => true
  | _ => false
  end.

Definition writes_ignore_comments (r : Rule) : bool :=
  match r with
  | R_SEP_FIRST | R_SEP | R_BANG_FILTER | R_NEWLINE | R_KEYWORD => true
  | _ => false
  end.

(** The token end [lexer'] holds is the one [lexer] held, or a position
    between the two cursors. *)
Definition marks_within (lexer lexer' : TSLexer) : Prop :=
  token_end lexer' = token_end lexer
  \/ exists e, token_end lexer' = Some e /\ (pos lexer <= e <= pos lexer')%nat.

(** [lexer'] is a later state of the cursor [lexer]. *)
Definition scans_forward (lexer lexer' : TSLexer) : Prop :=
  consumes lexer lexer' /\ marks_within lexer lexer'.

Create HintDb cursor.

(** The text the terminator match compares the line with: the stored marker,
    or [.] when none is stored (lines 389-390). *)
Definition terminator (s : Scanner) : list Z :=
  if marker_len s =? 0 then str "." else marker s.

(** A piece of a double-quoted string: a unit, or a line break that goes on:
    a newline, the indentation of the next line and the backslash that
    opens it, with the character the backslash escapes. *)
Inductive string_piece : Type :=
| Unit (u : string_unit)
| Continuation (indent : list Z) (c : Z).

Definition piece_ok (p : string_piece) : bool :=
  match p with
  | Unit u => unit_ok u
  | Continuation indent _ => forallb IS_SPACE_TABS indent
  end.

Definition piece_chars (p : string_piece) : list Z :=
  match p with
  | Unit u => unit_chars u
  | Continuation indent c => CH_NL :: indent ++ [CH_BACKSLASH; c]
  end.

Definition pieces_chars (ps : list string_piece) : list Z :=
  flat_map piece_chars ps.

(** A piece of a single-quoted string: a character, a doubled quote, or a
    line break that goes on with a backslash. *)
Inductive literal_piece : Type :=
| Literal (c : Z)
| Doubled
| LiteralContinuation (indent : list Z).

Definition literal_ok (p : literal_piece) : bool :=
  match p with
  | Literal c => negb (c =? CH_SQUOTE) && negb (c =? CH_NL) && negb (c =? 0)
  | Doubled => true
  | LiteralContinuation indent => forallb IS_SPACE_TABS indent
  end.

Definition literal_chars (p : literal_piece) : list Z :=
  match p with
  | Literal c => [c]
  | Doubled => [CH_SQUOTE; CH_SQUOTE]
  | LiteralContinuation indent => CH_NL :: indent ++ [CH_BACKSLASH]
  end.

Definition literals_chars (ps : list literal_piece) : list Z :=
  flat_map literal_chars ps.

(** The characters that make a backslash after a newline a command
    separator (lines 332-334). *)
Definition is_continuation_marker (c : Z) : bool :=
  (c =? ch "/") || (c =? ch "?") || (c =? ch "&").

(** Evaluates the tests of the lookahead against character constants. *)
Ltac eval_chars :=
  cbn [ch N_of_ascii N_of_digits Z.of_N N.add N.mul Z.eqb Pos.eqb
       CH_NL CH_TAB CH_DQUOTE CH_SQUOTE CH_BACKSLASH andb orb negb];
  rewrite ?andb_false_r, ?andb_true_r, ?orb_false_r;
  cbn [andb orb negb].

(** Evaluates the tests of the character [c] against constants. *)
Ltac eval_tests c :=
  repeat match goal with
  | |- context [c =? ?k] =>
      let v := eval vm_compute in (c =? k) in
      change (c =? k) with v
  end;
  rewrite ?andb_false_r, ?andb_true_r; cbn [andb orb negb].

(** One pass through the body of the [while (true)] of
    [lex_escapable_string] (lines 174-195): the value the function returns
    in this pass, or the cursor the next pass starts with. *)
Definition lex_escapable_string_pass (lexer : TSLexer)
    : (bool * TSLexer) + TSLexer :=
  if lookahead lexer =? CH_BACKSLASH then
    inr (advance (advance lexer false) false)
  else if lookahead lexer =? CH_DQUOTE then
    let lexer := advance lexer false in
    let lexer := mark_end lexer in
    inl (true, set_result_symbol lexer STRING)
  else if lookahead lexer =? CH_NL then
    let lexer := mark_end lexer in
    let lexer := advance lexer false in
    let lexer := skip_space_tabs lexer in
    if negb (lookahead lexer =? CH_BACKSLASH) then
      let lexer := mark_end lexer in
      inl (true, set_result_symbol lexer COMMENT)
    else inr lexer
  else if lookahead lexer =? 0 then inl (false, lexer)
  else inr (advance lexer false).

(** The same for [lex_literal_string] (lines 148-168). *)
Definition lex_literal_string_pass (lexer : TSLexer)
    : (bool * TSLexer) + TSLexer :=
  if lookahead lexer =? CH_SQUOTE then
    let lexer := advance lexer false in
    if lookahead lexer =? CH_SQUOTE
    then inr (advance lexer false)
    else inl (true, mark_end (set_result_symbol lexer STRING))
  else if lookahead lexer =? CH_NL then
    let lexer := mark_end lexer in
    let lexer := advance lexer true in
    let lexer := skip_space_tabs lexer in
    if negb (lookahead lexer =? CH_BACKSLASH) then inl (false, lexer)
    else inr lexer
  else if lookahead lexer =? 0 then inl (false, lexer)
  else inr (advance lexer false).

(** A [while (true)] run for at most [n] passes: the value returned, or
    [None] when the loop is still running after them. *)
Fixpoint passes {A : Type} (pass : TSLexer -> A + TSLexer) (n : nat)
    (lexer : TSLexer) : option A :=
  match n with
  | O => None
  | S n' =>
      match pass lexer with
      | inl r => Some r
      | inr lexer' => passes pass n' lexer'
      end
  end.

(** * Properties *)

(** ** Byte-level helpers *)

Lemma strncpy_length (src : list Z) (n : nat) : length (strncpy src n) = n.
Proof.
  revert src; induction n as [|n IH]; intros src; [reflexivity|].
  destruct src as [|c rest]; [apply repeat_length|].
  cbn [strncpy]. destruct (c =? 0); [apply repeat_length|].
  cbn [length]. now rewrite IH.
Qed.

Lemma forallb_zero_repeat (l : list Z) :
  forallb (fun x => x =? 0) l = true -> l = repeat 0 (length l).
Proof.
  induction l as [|c l IH]; [reflexivity|].
  cbn [forallb length repeat]. intros H.
  apply andb_true_iff in H as [Hc Hl].
  apply Z.eqb_eq in Hc. subst c. now rewrite <- IH.
Qed.

Lemma forallb_zero_of_repeat (n : nat) :
  forallb (fun x => x =? 0) (repeat 0 n) = true.
Proof. induction n; [reflexivity|]. exact IHn. Qed.

Lemma nul_closed_repeat (n : nat) : nul_closed (repeat 0 n) = true.
Proof. destruct n; [reflexivity|]. cbn. apply forallb_zero_of_repeat. Qed.

(** What [strncpy] writes is closed under nul. *)
Lemma strncpy_nul_closed (src : list Z) (n : nat) :
  nul_closed (strncpy src n) = true.
Proof.
  revert src; induction n as [|n IH]; intros src; [reflexivity|].
  destruct src as [|c rest]; [apply (nul_closed_repeat (S n))|].
  cbn [strncpy]. destruct (c =? 0) eqn:Hc; [apply (nul_closed_repeat (S n))|].
  cbn [nul_closed]. rewrite Hc. apply IH.
Qed.

(** On a source that is closed under nul, [strncpy] copies the bytes as they
    are. *)
Lemma strncpy_closed (src : list Z) (n : nat) :
  (n <= length src)%nat ->
  nul_closed (firstn n src) = true ->
  strncpy src n = firstn n src.
Proof.
  revert src; induction n as [|n IH]; intros src Hlen Hc; [reflexivity|].
  destruct src as [|c rest]; [cbn in Hlen; lia|].
  cbn [length] in Hlen. cbn [firstn nul_closed] in Hc. cbn [strncpy firstn].
  destruct (c =? 0) eqn:E.
  - apply Z.eqb_eq in E. subst c.
    apply forallb_zero_repeat in Hc.
    rewrite length_firstn, Nat.min_l in Hc by lia.
    rewrite Hc. reflexivity.
  - f_equal. apply IH; [lia | exact Hc].
Qed.

Lemma strncpy_whole (m : list Z) :
  nul_closed m = true -> strncpy m (length m) = m.
Proof.
  intros H. rewrite strncpy_closed; rewrite ?firstn_all; auto.
Qed.

Lemma store_at_0 (dest bytes : list Z) :
  store dest 0 bytes = bytes ++ skipn (length bytes) dest.
Proof. reflexivity. Qed.

Lemma store_length (dest : list Z) (off : nat) (bytes : list Z) :
  (off + length bytes <= length dest)%nat ->
  length (store dest off bytes) = length dest.
Proof.
  intros H. unfold store.
  rewrite !length_app, length_firstn, length_skipn. lia.
Qed.

(** ** State codec *)

(** The bytes [serialize] hands to the host. *)
Lemma serialized_bytes (s : Scanner) (buffer : list Z) :
  0 <= marker_len s ->
  (Z.to_nat (marker_len s) + SC_MARK <= length buffer)%nat ->
  serialized s buffer =
    [bool_to_char (ignore_comments s); separator s; marker_len s]
    ++ strncpy (heredoc_marker s) (Z.to_nat (marker_len s)).
Proof.
  intros Hpos Hlen. unfold SC_MARK in Hlen.
  destruct buffer as [|b0 [|b1 [|b2 rest]]]; cbn [length] in Hlen; try lia.
  unfold serialized, tree_sitter_vim_external_scanner_serialize.
  replace (Z.to_nat (marker_len s + Z.of_nat SC_MARK))
    with (3 + Z.to_nat (marker_len s))%nat by (unfold SC_MARK; lia).
  unfold store, SC_PAIRED_SEP, SC_IGNORE_COMMENTS, SC_MARK_LEN, SC_MARK.
  cbn [firstn skipn length Nat.add app].
  f_equal. f_equal. f_equal.
  rewrite firstn_app, strncpy_length, Nat.sub_diag.
  rewrite firstn_all2 by (rewrite strncpy_length; lia).
  cbn [firstn]. now rewrite app_nil_r.
Qed.

Lemma state_eq_refl (s : Scanner) : state_eq s s.
Proof. repeat split. Qed.

Lemma busy_wf : wf_scanner Sample.busy.
Proof. split; cbn; try lia; reflexivity. Qed.

Lemma create_wf : wf_scanner tree_sitter_vim_external_scanner_create.
Proof. split; cbn; try lia; reflexivity. Qed.

(** What [deserialize] makes of the bytes of [s]: the fields of [s], with the
    bytes of the target's buffer past the marker left as they were. *)
Lemma deserialize_serialized (s t : Scanner) (buffer : list Z) :
  wf_scanner s ->
  (Z.to_nat (marker_len s) + SC_MARK <= length buffer)%nat ->
  tree_sitter_vim_external_scanner_deserialize t (serialized s buffer)
    (fst (tree_sitter_vim_external_scanner_serialize s buffer))
  = Some (mkScanner (separator s) (ignore_comments s) (marker_len s)
            (marker s ++ skipn (Z.to_nat (marker_len s)) (heredoc_marker t))).
Proof.
  intros [Hsep Hml Hbuf Hclosed] Hlen.
  rewrite serialized_bytes by (lia || assumption).
  destruct s as [sep ign ml hm]. unfold marker in *. cbn [separator ignore_comments marker_len heredoc_marker] in *.
  unfold HEREDOC_MARKER_LEN in *.
  assert (Hcopy : strncpy hm (Z.to_nat ml) = firstn (Z.to_nat ml) hm)
    by (apply strncpy_closed; [lia | assumption]).
  rewrite Hcopy.
  unfold tree_sitter_vim_external_scanner_deserialize.
  cbn [fst tree_sitter_vim_external_scanner_serialize].
  unfold SC_MARK, SC_IGNORE_COMMENTS, SC_PAIRED_SEP, SC_MARK_LEN, HEREDOC_MARKER_LEN.
  cbn [app nth skipn set_ignore_comments set_separator set_marker_len
       set_heredoc_marker separator ignore_comments marker_len heredoc_marker].
  assert (Hu : to_uint8 ml = ml) by (unfold to_uint8; apply Z.mod_small; lia).
  rewrite Hu.
  replace (ml + Z.of_nat 3 =? 0) with false by (symmetry; apply Z.eqb_neq; lia).
  rewrite Z.eqb_refl. cbn [negb].
  replace (ml <? Z.of_nat 32) with true by (symmetry; apply Z.ltb_lt; lia).
  cbn [negb].
  assert (Hb : char_to_bool (bool_to_char ign) = ign) by (destruct ign; reflexivity).
  rewrite Hb.
  destruct (ml >? 0) eqn:Hgt.
  - f_equal. f_equal. rewrite store_at_0.
    assert (Hl : length (firstn (Z.to_nat ml) hm) = Z.to_nat ml)
      by (rewrite length_firstn; lia).
    pose proof (strncpy_whole _ Hclosed) as Hw. rewrite Hl in Hw.
    rewrite Hw, Hl. reflexivity.
  - assert (ml = 0) by lia. subst ml. reflexivity.
Qed.

(** The round trip for a state that satisfies the invariant, into any
    target [t]: the result is equal to [s] as a scanner state, and is [s]
    itself when the bytes of the target's buffer past the marker are those
    of [s]. *)
Lemma roundtrip_wf (s t : Scanner) (buffer : list Z) :
  wf_scanner s ->
  (Z.to_nat (marker_len s) + SC_MARK <= length buffer)%nat ->
  exists s',
    tree_sitter_vim_external_scanner_deserialize t (serialized s buffer)
      (fst (tree_sitter_vim_external_scanner_serialize s buffer)) = Some s'
    /\ state_eq s' s
    /\ (skipn (Z.to_nat (marker_len s)) (heredoc_marker t)
        = skipn (Z.to_nat (marker_len s)) (heredoc_marker s) -> s' = s).
Proof.
  intros Hwf Hlen. eexists. split; [apply deserialize_serialized; assumption|].
  destruct Hwf as [_ Hml Hbuf _]. unfold HEREDOC_MARKER_LEN in *.
  split.
  - repeat split. unfold marker at 1.
    cbn [marker_len heredoc_marker].
    rewrite firstn_app.
    replace (Z.to_nat (marker_len s) - length (marker s))%nat with 0%nat
      by (unfold marker; rewrite length_firstn; lia).
    cbn [firstn]. rewrite app_nil_r. apply firstn_all2.
    unfold marker. rewrite length_firstn. lia.
  - intros Htail. rewrite Htail. unfold marker. rewrite firstn_skipn.
    destruct s; reflexivity.
Qed.

(** C2, as the code has it.  For every state that satisfies the invariant,
    [serialize] writes the suppress-comments flag as 0/1 in byte 0, the
    separator in byte 1, the marker length in byte 2, then exactly that many
    marker bytes; it returns 3 + marker length, the length of what it wrote. *)
Theorem serialize_layout (s : Scanner) (buffer : list Z) :
  wf_scanner s ->
  (Z.to_nat (marker_len s) + SC_MARK <= length buffer)%nat ->
  nth 0 (serialized s buffer) 0 = bool_to_char (ignore_comments s)
  /\ nth 1 (serialized s buffer) 0 = separator s
  /\ nth 2 (serialized s buffer) 0 = marker_len s
  /\ skipn 3 (serialized s buffer) = marker s
  /\ Z.of_nat (length (serialized s buffer)) = 3 + marker_len s
  /\ fst (tree_sitter_vim_external_scanner_serialize s buffer)
     = Z.of_nat (length (serialized s buffer)).
Proof.
  intros [_ Hml Hbuf Hclosed] Hlen. unfold HEREDOC_MARKER_LEN in *.
  rewrite serialized_bytes by (lia || assumption).
  rewrite strncpy_closed by (lia || assumption).
  cbn [app nth skipn length fst tree_sitter_vim_external_scanner_serialize].
  repeat split; unfold SC_MARK; rewrite length_firstn; lia.
Qed.

Lemma serialize_layout_witness :
  nth 0 (serialized Sample.busy (repeat 7 1024)) 0
    = bool_to_char (ignore_comments Sample.busy)
  /\ nth 1 (serialized Sample.busy (repeat 7 1024)) 0 = separator Sample.busy
  /\ nth 2 (serialized Sample.busy (repeat 7 1024)) 0 = marker_len Sample.busy
  /\ skipn 3 (serialized Sample.busy (repeat 7 1024)) = marker Sample.busy
  /\ Z.of_nat (length (serialized Sample.busy (repeat 7 1024)))
     = 3 + marker_len Sample.busy
  /\ fst (tree_sitter_vim_external_scanner_serialize Sample.busy (repeat 7 1024))
     = Z.of_nat (length (serialized Sample.busy (repeat 7 1024))).
Proof.
  apply (serialize_layout Sample.busy (repeat 7 1024)).
  - split; cbn; try lia; reflexivity.
  - apply Nat.leb_le. vm_compute. reflexivity.
Defined.

(** C2 as stated fails: with the separator [/] open and comments suppressed,
    byte 0 is 1 (the flag), not [/]. *)
Lemma serialize_byte0_is_not_separator :
  ~ (forall (s : Scanner) (buffer : list Z),
       wf_scanner s ->
       (Z.to_nat (marker_len s) + SC_MARK <= length buffer)%nat ->
       nth 0 (serialized s buffer) 0 = separator s
       /\ nth 1 (serialized s buffer) 0 = bool_to_char (ignore_comments s)).
Proof.
  intros H.
  destruct (H Sample.busy (repeat 7 1024) busy_wf) as [H0 _];
    [apply Nat.leb_le; vm_compute; reflexivity|].
  vm_compute in H0. discriminate H0.
Qed.

(** C3, as the code has it.  Deserializing a zero-length buffer leaves the
    state as it was, whatever it holds. *)
Theorem deserialize_empty_is_noop (s : Scanner) (buffer : list Z) :
  tree_sitter_vim_external_scanner_deserialize s buffer 0 = Some s.
Proof. reflexivity. Qed.

(** C3 as stated fails: a state with an open separator, comments suppressed
    and a marker is not reset to the construction value. *)
Lemma deserialize_empty_does_not_reset :
  ~ (forall s : Scanner,
       tree_sitter_vim_external_scanner_deserialize s [] 0
       = Some tree_sitter_vim_external_scanner_create).
Proof.
  intros H. specialize (H Sample.busy). cbn in H. discriminate H.
Qed.

(** ** Keyword matcher *)

Lemma try_lex_keyword_mandat_some (mandat possible rest : list Z) :
  try_lex_keyword_mandat mandat possible = Some rest <-> possible = mandat ++ rest.
Proof.
  revert possible. induction mandat as [|m mandat IH]; intros possible; cbn.
  - split; [intros [= ->] | intros ->]; reflexivity.
  - destruct possible as [|p possible]; [split; discriminate|].
    destruct (p =? m) eqn:E; cbn.
    + apply Z.eqb_eq in E. subst p. rewrite IH.
      split; [intros -> | intros [= ->]]; reflexivity.
    + apply Z.eqb_neq in E. split; [discriminate | intros [= -> _]; congruence].
Qed.

(** The second loop ends well when one of the two strings runs out before a
    mismatch. *)
Lemma try_lex_keyword_opt_true (opt possible : list Z) :
  (length possible <= length opt)%nat ->
  (try_lex_keyword_opt opt possible = true <-> leading possible opt).
Proof.
  revert possible. induction opt as [|o opt IH]; intros possible Hlen; cbn.
  - destruct possible; [|cbn in Hlen; lia].
    split; [exists []; reflexivity | reflexivity].
  - destruct possible as [|p possible].
    + split; [exists (o :: opt); reflexivity | reflexivity].
    + cbn [length] in Hlen. destruct (p =? o) eqn:E; cbn.
      * apply Z.eqb_eq in E. subst p. rewrite IH by lia.
        split; intros [k Hk]; exists k; [now rewrite Hk | now injection Hk].
      * apply Z.eqb_neq in E. split; [discriminate|].
        intros [k Hk]. injection Hk as <- _. congruence.
Qed.

Lemma try_lex_keyword_iff (possible : list Z) (k : keyword) :
  try_lex_keyword possible k = true
  <-> exists tail, leading tail (opt k) /\ possible = mandat k ++ tail.
Proof.
  unfold try_lex_keyword.
  destruct (length (mandat k) + length (opt k) <? length possible)%nat eqn:Hlong.
  - apply Nat.ltb_lt in Hlong. split; [discriminate|].
    intros (tail & [rest Hrest] & ->). exfalso.
    rewrite Hrest in Hlong. rewrite !length_app in Hlong. lia.
  - apply Nat.ltb_ge in Hlong.
    destruct (try_lex_keyword_mandat (mandat k) possible) as [rest|] eqn:Hm.
    + apply try_lex_keyword_mandat_some in Hm. subst possible.
      rewrite length_app in Hlong.
      rewrite try_lex_keyword_opt_true by lia.
      split.
      * intros Hlead. exists rest. split; [assumption | reflexivity].
      * intros (tail & Hlead & Heq). apply app_inv_head in Heq. now subst tail.
    + split; [discriminate|].
      intros (tail & _ & Heq).
      apply try_lex_keyword_mandat_some in Heq. congruence.
Qed.

(** C6. The keyword matcher accepts a run exactly when the run is the
    mandatory prefix of the entry followed by a leading substring of its
    optional suffix, possibly empty, and nothing more.  A run shorter than
    the mandatory prefix is rejected, and so is a run with a character that
    differs from the one the entry has at its place. *)
Theorem try_lex_keyword_accepts_abbreviations (possible : list Z) (k : keyword) :
  (try_lex_keyword possible k = true
   <-> exists tail, leading tail (opt k) /\ possible = mandat k ++ tail)
  /\ ((length possible < length (mandat k))%nat ->
      try_lex_keyword possible k = false)
  /\ (forall i, (i < length possible)%nat ->
        nth i possible 0 <> nth i (mandat k ++ opt k) 0 ->
        try_lex_keyword possible k = false).
Proof.
  split; [apply try_lex_keyword_iff|]. split.
  - intros Hshort. destruct (try_lex_keyword possible k) eqn:E; [|reflexivity].
    apply try_lex_keyword_iff in E.
    destruct E as (tail & _ & ->). rewrite length_app in Hshort. lia.
  - intros i Hi Hneq. destruct (try_lex_keyword possible k) eqn:E; [|reflexivity].
    apply try_lex_keyword_iff in E.
    destruct E as (tail & [rest Hrest] & Hp). exfalso. apply Hneq.
    rewrite Hrest, app_assoc, <- Hp. symmetry. apply app_nth1. exact Hi.
Qed.

Lemma try_lex_keyword_accepts_abbreviations_witness :
  try_lex_keyword (str "fu") (Sample.keywords 0) = true
  /\ try_lex_keyword (str "f") (Sample.keywords 0) = false
  /\ try_lex_keyword (str "fux") (Sample.keywords 0) = false.
Proof.
  destruct (try_lex_keyword_accepts_abbreviations (str "f") (Sample.keywords 0))
    as (_ & Hshort & _).
  destruct (try_lex_keyword_accepts_abbreviations (str "fux") (Sample.keywords 0))
    as (_ & _ & Hbad).
  split; [reflexivity|]. split.
  - apply Hshort. cbn. lia.
  - apply (Hbad 2%nat); [cbn; lia | cbn; discriminate].
Defined.

(** ** The host lexer *)

Lemma lookahead_cons (c : Z) (rest : list Z) (p ts : nat) (te : option nat) (r : nat) :
  lookahead (mkLexer (c :: rest) p ts te r) = c.
Proof. reflexivity. Qed.

Lemma advance_cons (c : Z) (rest : list Z) (p ts : nat) (te : option nat) (r : nat)
    (skip : bool) :
  advance (mkLexer (c :: rest) p ts te r) skip
  = mkLexer rest (S p) (if skip then S p else ts) te r.
Proof. reflexivity. Qed.

Lemma mark_end_mk (inp : list Z) (p ts : nat) (te : option nat) (r : nat) :
  mark_end (mkLexer inp p ts te r) = mkLexer inp p ts (Some p) r.
Proof. reflexivity. Qed.

Lemma set_result_symbol_mk (inp : list Z) (p ts : nat) (te : option nat) (r t : nat) :
  set_result_symbol (mkLexer inp p ts te r) t = mkLexer inp p ts te t.
Proof. reflexivity. Qed.


Lemma advance_length (lexer : TSLexer) (skip : bool) :
  (length (input (advance lexer skip)) <= length (input lexer))%nat.
Proof.
  unfold advance. destruct (input lexer) as [|c rest] eqn:E; cbn.
  - rewrite E. cbn. lia.
  - lia.
Qed.

Lemma advance_length_cons (lexer : TSLexer) (skip : bool) :
  input lexer <> [] ->
  S (length (input (advance lexer skip))) = length (input lexer).
Proof.
  unfold advance. destruct (input lexer) as [|c rest] eqn:E; [congruence|].
  reflexivity.
Qed.

Lemma lookahead_nonzero (lexer : TSLexer) :
  lookahead lexer <> 0 -> input lexer <> [].
Proof. unfold lookahead. destruct (input lexer); [cbn; congruence | discriminate]. Qed.

Lemma IS_SPACE_TABS_nonzero (c : Z) : IS_SPACE_TABS c = true -> c <> 0.
Proof.
  unfold IS_SPACE_TABS, CH_TAB. intros H ->. discriminate H.
Qed.

(** Consuming [n] characters that are there. *)
Lemma advance_n_app (pre post : list Z) (p ts : nat) (te : option nat) (r : nat) :
  advance_n (length pre) (mkLexer (pre ++ post) p ts te r)
  = mkLexer post (p + length pre) ts te r.
Proof.
  revert p. induction pre as [|c pre IH]; intros p.
  - cbn. now rewrite Nat.add_0_r.
  - unfold advance_n in *. cbn [length]. rewrite Nat.iter_succ_r.
    unfold advance at 2. cbn [input app pos token_start token_end result_symbol].
    rewrite IH. f_equal. lia.
Qed.

(** *** Blanks *)

Lemma skip_space_tabs_loop_fuel (n : nat) :
  forall (lexer : TSLexer) (fuel : nat),
    length (input lexer) = n -> (n <= fuel)%nat ->
    skip_space_tabs_loop fuel lexer = skip_space_tabs_loop n lexer.
Proof.
  induction n as [|n IH]; intros lexer fuel Hn Hfuel.
  - destruct fuel; [reflexivity|]. cbn.
    unfold lookahead. apply length_zero_iff_nil in Hn. rewrite Hn. reflexivity.
  - destruct fuel as [|fuel]; [lia|]. cbn.
    destruct (IS_SPACE_TABS (lookahead lexer)); [|reflexivity].
    apply IH; [|lia].
    assert (Hne : input lexer <> []) by (intros E; rewrite E in Hn; discriminate).
    pose proof (advance_length_cons lexer true Hne). lia.
Qed.

(** The loop of [skip_space_tabs] has run to its end: more fuel changes
    nothing. *)
Lemma skip_space_tabs_total (lexer : TSLexer) (fuel : nat) :
  (length (input lexer) <= fuel)%nat ->
  skip_space_tabs_loop fuel lexer = skip_space_tabs lexer.
Proof. intros H. now apply skip_space_tabs_loop_fuel. Qed.

Lemma skip_space_tabs_loop_length (fuel : nat) (lexer : TSLexer) :
  (length (input (skip_space_tabs_loop fuel lexer)) <= length (input lexer))%nat.
Proof.
  revert lexer. induction fuel as [|fuel IH]; intros lexer; cbn; [lia|].
  destruct (IS_SPACE_TABS (lookahead lexer)); [|lia].
  etransitivity; [apply IH | apply advance_length].
Qed.

Lemma skip_space_tabs_length (lexer : TSLexer) :
  (length (input (skip_space_tabs lexer)) <= length (input lexer))%nat.
Proof. apply skip_space_tabs_loop_length. Qed.

(** Skipping an indentation [indent] that ends before [rest]. *)
Lemma skip_space_tabs_indent (indent rest : list Z) :
  forallb IS_SPACE_TABS indent = true ->
  IS_SPACE_TABS (hd 0 rest) = false ->
  forall (p ts : nat) (te : option nat) (r : nat),
  exists ts',
    skip_space_tabs (mkLexer (indent ++ rest) p ts te r)
    = mkLexer rest (p + length indent) ts' te r.
Proof.
  intros Hind Hrest. unfold skip_space_tabs.
  cbn [input]. rewrite length_app.
  generalize (length rest) as extra.
  induction indent as [|c indent IH]; intros extra p ts te r.
  - exists ts. cbn [app length Nat.add]. rewrite Nat.add_0_r.
    destruct extra; cbn; [reflexivity|].
    unfold lookahead. cbn [input]. now rewrite Hrest.
  - cbn [forallb] in Hind. apply andb_true_iff in Hind as [Hc Hind].
    destruct (IH Hind extra (S p) (S p) te r) as [ts' Hts'].
    exists ts'. cbn [app length Nat.add skip_space_tabs_loop].
    rewrite lookahead_cons, Hc.
    unfold advance. cbn [input pos token_start token_end result_symbol].
    rewrite Hts'. f_equal. lia.
Qed.

(** ** Double-quoted strings *)






(** ** Scope references *)

(** The loop over [SID>] ends well exactly when the characters it saw, up to
    the end of input or a nul, are a leading substring of [sid]. *)
Lemma lex_scope_sid_loop_true (sid : list Z) :
  forall (inp : list Z) (p ts : nat) (te : option nat) (r : nat),
    fst (lex_scope_sid_loop sid (mkLexer inp p ts te r)) = true
    <-> leading (firstn (length sid) (cstr inp)) sid.
Proof.
  induction sid as [|c sid IH]; intros inp p ts te r.
  - cbn. split; [exists []; reflexivity | reflexivity].
  - cbn [lex_scope_sid_loop length].
    destruct inp as [|a inp].
    + cbn. split; [exists (c :: sid); reflexivity | reflexivity].
    + rewrite lookahead_cons. cbn [cstr].
      destruct (a =? 0) eqn:Ha.
      * cbn. split; [exists (c :: sid); reflexivity | reflexivity].
      * cbn [firstn]. destruct (a =? c) eqn:Hc; cbn [negb].
        -- apply Z.eqb_eq in Hc. subst a. rewrite advance_cons, IH.
           split; intros [k Hk]; exists k; [cbn; f_equal; exact Hk | injection Hk as Hk; exact Hk].
        -- apply Z.eqb_neq in Hc. cbn. split; [discriminate|].
           intros [k Hk]. injection Hk as -> _. congruence.
Qed.

(** After [<], a scope token is emitted exactly when the characters that
    follow, up to the end of input, are a leading substring of [SID>]:
    the whole of it, or less when the input ends early. *)
Lemma lex_scope_angle_bracket (iswalnum : Z -> bool) (lexer : TSLexer)
    (after : list Z) :
  input lexer = ch "<" :: after ->
  fst (lex_scope iswalnum lexer) = true
  <-> leading (firstn 4 (cstr after)) (str "SID>").
Proof.
  destruct lexer as [inp p ts te r]. cbn [input]. intros ->.
  unfold lex_scope, scope_correct. rewrite lookahead_cons.
  cbn [str existsb ch N_of_ascii N_of_digits Z.of_N Z.eqb Pos.eqb orb negb N.add N.mul].
  rewrite advance_cons.
  rewrite <- (lex_scope_sid_loop_true (str "SID>") after (S p) ts te r).
  cbn [str ch N_of_ascii N_of_digits Z.of_N N.add N.mul].
  destruct (lex_scope_sid_loop _ _) as [[|] lexer']; reflexivity.
Qed.

(** C8 at the failing input.  With only [<SI] left before the end of input,
    [scan] emits a scope token. *)
Theorem scan_truncated_sid_emits_scope :
  Sample.scan tree_sitter_vim_external_scanner_create (lexer_on (str "<SI"))
    (Sample.accept [LINE_CONTINUATION; SCOPE])
  = Some (true, tree_sitter_vim_external_scanner_create, mkLexer [] 3 0 None SCOPE)
  /\ Sample.scan tree_sitter_vim_external_scanner_create (lexer_on (str "<"))
       (Sample.accept [LINE_CONTINUATION; SCOPE])
     = Some (true, tree_sitter_vim_external_scanner_create, mkLexer [] 1 0 None SCOPE).
Proof. split; reflexivity. Qed.

(** The form the specification describes is accepted, and a wrong character
    is refused. *)
Lemma scan_sid_examples :
  Sample.scan tree_sitter_vim_external_scanner_create (lexer_on (str "<SID>x"))
    (Sample.accept [LINE_CONTINUATION; SCOPE])
  = Some (true, tree_sitter_vim_external_scanner_create,
          mkLexer (str "x") 5 0 None SCOPE)
  /\ fst (lex_scope CLocale.iswalnum (lexer_on (str "<SIX>"))) = false.
Proof. split; reflexivity. Qed.

(** ** Heredoc marker capture *)

Lemma try_lex_heredoc_marker_failure_state (iswlower : Z -> bool)
    (scanner : Scanner) (lexer : TSLexer) :
  fst (fst (try_lex_heredoc_marker iswlower scanner lexer)) = false ->
  snd (fst (try_lex_heredoc_marker iswlower scanner lexer)) = scanner.
Proof.
  unfold try_lex_heredoc_marker.
  destruct (iswlower (lookahead lexer)); [reflexivity|].
  destruct (try_lex_heredoc_marker_loop _ _ _) as [marker lexer1].
  destruct (_ || _); [reflexivity | discriminate].
Qed.

(** C9. A capture attempt that fails, whatever the reason, leaves every
    field of the scanner state as it was. *)
Theorem try_lex_heredoc_marker_failure_keeps_state (iswlower : Z -> bool)
    (scanner scanner' : Scanner) (lexer lexer' : TSLexer) :
  try_lex_heredoc_marker iswlower scanner lexer = (false, scanner', lexer') ->
  scanner' = scanner.
Proof.
  intros H.
  pose proof (try_lex_heredoc_marker_failure_state iswlower scanner lexer) as Hs.
  rewrite H in Hs. exact (Hs eq_refl).
Qed.

Lemma try_lex_heredoc_marker_failure_keeps_state_witness :
  try_lex_heredoc_marker CLocale.iswlower Sample.busy
    (lexer_on (repeat (ch "X") 32 ++ str " "))
  = (false, Sample.busy, mkLexer (str " ") 32 0 None 0)
  /\ Sample.busy = Sample.busy.
Proof.
  split; [reflexivity|].
  apply (try_lex_heredoc_marker_failure_keeps_state CLocale.iswlower
           Sample.busy Sample.busy (lexer_on (repeat (ch "X") 32 ++ str " "))
           (mkLexer (str " ") 32 0 None 0)).
  reflexivity.
Defined.

(** The three ways a capture fails: a lowercase first character, no
    character to take, and a run that fills the 32 characters. *)
Lemma try_lex_heredoc_marker_failures :
  try_lex_heredoc_marker CLocale.iswlower Sample.busy (lexer_on (str "eof"))
  = (false, Sample.busy, lexer_on (str "eof"))
  /\ fst (fst (try_lex_heredoc_marker CLocale.iswlower Sample.busy
                 (lexer_on (str " EOF")))) = false
  /\ try_lex_heredoc_marker CLocale.iswlower Sample.busy
       (lexer_on (repeat (ch "X") 32 ++ str " "))
     = (false, Sample.busy, mkLexer (str " ") 32 0 None 0)
  /\ fst (fst (try_lex_heredoc_marker CLocale.iswlower Sample.busy
                 (lexer_on (repeat (ch "X") 31 ++ str " ")))) = true.
Proof. repeat split. Qed.

(** ** Dispatch *)

Lemma char_to_int_ascii (char_signed : bool) (c : Z) :
  c < 128 -> char_to_int char_signed c = c.
Proof.
  intros H. unfold char_to_int.
  replace (128 <=? c) with false by (symmetry; apply Z.leb_gt; exact H).
  now rewrite andb_false_r.
Qed.









(** C4, as the code has it.  In every scan call, with a heredoc marker
    stored or not, the terminator match is attempted exactly when
    HEREDOC_END is accepted, the input is not at its end and no rule of
    higher priority applies (paired separator, bang filter, negation prefix,
    newline, pipe, scope, heredoc marker capture); the call then returns
    what that match gives.  A call that accepts HEREDOC_END enters none of
    the comment, string and keyword rules. *)
Theorem heredoc_terminator_priority (char_signed : bool)
    (iswlower iswpunct iswalnum iswalpha : Z -> bool)
    (FUNCTION UNKNOWN_COMMAND : nat) (keywords : nat -> keyword)
    (s : Scanner) (lexer : TSLexer) (valid_symbols : nat -> bool) :
  (terminator_attempted
     (fst (scan_rules char_signed iswlower iswpunct iswalnum iswalpha FUNCTION
             UNKNOWN_COMMAND keywords s lexer valid_symbols)) = true
   <-> lookahead (skip_space_tabs lexer) <> 0
       /\ higher_priority_applies char_signed iswpunct s
            (lookahead (skip_space_tabs lexer)) valid_symbols = false
       /\ valid_symbols HEREDOC_END = true)
  /\ (terminator_attempted
        (fst (scan_rules char_signed iswlower iswpunct iswalnum iswalpha FUNCTION
                UNKNOWN_COMMAND keywords s lexer valid_symbols)) = true ->
      snd (scan_rules char_signed iswlower iswpunct iswalnum iswalpha FUNCTION
             UNKNOWN_COMMAND keywords s lexer valid_symbols)
      = scan_heredoc_end char_signed s (skip_space_tabs lexer))
  /\ (valid_symbols HEREDOC_END = true ->
      after_terminator
        (fst (scan_rules char_signed iswlower iswpunct iswalnum iswalpha FUNCTION
                UNKNOWN_COMMAND keywords s lexer valid_symbols)) = false).
Proof.
  unfold scan_rules, higher_priority_applies, paired_separator_applies,
    scope_correct.
  set (lexer1 := skip_space_tabs lexer).
  set (c := lookahead lexer1).
  destruct (c =? 0) eqn:H0.
  { apply Z.eqb_eq in H0. cbn. intuition congruence. }
  apply Z.eqb_neq in H0.
  repeat match goal with
  | |- context [if ?b then _ else _] =>
      let E := fresh "E" in
      destruct b eqn:E;
      [ repeat break_pair_match; cbn [fst snd terminator_attempted after_terminator];
        rewrite ?orb_true_r; cbn [orb];
        try solve [intuition congruence]
      | ]
  end.
  all: cbn [fst snd terminator_attempted after_terminator orb];
    intuition congruence.
Qed.

(** C4 as stated fails: with the marker [!] stored and the line [!] that
    would end the heredoc, a call that accepts the bang filter emits it, and
    the terminator match is not attempted. *)
Lemma bang_filter_precedes_heredoc_terminator :
  ~ (forall (s : Scanner) (lexer : TSLexer) (valid_symbols : nat -> bool)
            (r : Rule) (s' : Scanner) (lexer' : TSLexer),
       wf_scanner s ->
       marker_len s <> 0 ->
       Sample.scan_rules s lexer valid_symbols = (r, (true, s', lexer')) ->
       terminator_attempted r = true).
Proof.
  intros H.
  specialize (H Sample.bang_heredoc (lexer_on (str "!" ++ [CH_NL]))
                (Sample.accept [LINE_CONTINUATION; BANG_FILTER; HEREDOC_END])
                R_BANG_FILTER
                (set_ignore_comments Sample.bang_heredoc true)
                (mkLexer [CH_NL] 1 0 None BANG_FILTER)).
  discriminate H.
  - split; cbn; try lia; reflexivity.
  - discriminate.
  - reflexivity.
Qed.

(** The same line without the bang filter accepted: the terminator matches
    and the marker is cleared. *)
Lemma heredoc_terminator_when_reached :
  Sample.scan_rules Sample.bang_heredoc (lexer_on (str "!" ++ [CH_NL]))
    (Sample.accept [LINE_CONTINUATION; HEREDOC_END])
  = (R_HEREDOC_END,
     (true, tree_sitter_vim_external_scanner_create,
      mkLexer [CH_NL] 1 0 None HEREDOC_END)).
Proof. reflexivity. Qed.

(** ** Keyword path *)

Lemma scan_keyword_loop_run (iswalpha : Z -> bool) (rest : list Z) :
  iswalpha (hd 0 rest) = false ->
  forall (room : nat) (letters : list Z) (p ts : nat) (te : option nat) (r : nat)
         (keyword : list Z),
    Forall (fun c => iswalpha c = true) letters ->
    scan_keyword_loop iswalpha room (mkLexer (letters ++ rest) p ts te r) keyword
    = (keyword ++ map to_char (firstn room letters),
       mkLexer (skipn room letters ++ rest) (p + Nat.min room (length letters))
         ts te r).
Proof.
  intros Hrest. induction room as [|room IH]; intros letters p ts te r keyword Hall.
  - cbn. now rewrite app_nil_r, Nat.add_0_r.
  - destruct letters as [|a letters].
    + cbn [scan_keyword_loop app firstn skipn map length Nat.min].
      unfold lookahead. cbn [input]. rewrite Hrest.
      now rewrite app_nil_r, Nat.add_0_r.
    + inversion Hall as [|? ? Ha Hall']; subst.
      cbn [scan_keyword_loop app]. rewrite lookahead_cons, Ha, advance_cons.
      rewrite IH by assumption.
      cbn [firstn skipn map length Nat.min]. rewrite <- app_assoc.
      cbn [app]. f_equal. f_equal. lia.
Qed.

(** C5, as the code has it.  In the keyword path, a run of at most 29
    letters that ends before a non-letter is captured whole and matched
    against the keyword table; a run of 30 letters or more is a hard failure
    once its 30th letter is consumed, whatever follows.  The form of one
    scope letter and a colon is left to the scope check of this path. *)
Theorem scan_keyword_run_cap (iswalpha : Z -> bool)
    (FUNCTION UNKNOWN_COMMAND : nat) (keywords : nat -> keyword)
    (s : Scanner) (lexer : TSLexer) (valid_symbols : nat -> bool)
    (first : Z) (letters rest : list Z) :
  input lexer = first :: letters ++ rest ->
  Forall (fun c => iswalpha c = true) letters ->
  iswalpha (hd 0 rest) = false ->
  is_scope_letter first && (hd 0 (letters ++ rest) =? ch ":") = false ->
  ((length (first :: letters) <= 29)%nat ->
   scan_keyword iswalpha FUNCTION UNKNOWN_COMMAND keywords s lexer valid_symbols
   = scan_keyword_match FUNCTION UNKNOWN_COMMAND keywords s
       (advance_n (length (first :: letters)) lexer) valid_symbols
       (cstr (map to_char (first :: letters))))
  /\ ((30 <= length (first :: letters))%nat ->
      scan_keyword iswalpha FUNCTION UNKNOWN_COMMAND keywords s lexer valid_symbols
      = (false, s, advance_n 30 lexer)).
Proof.
  intros Hin Hall Hrest Hscope.
  destruct lexer as [inp p ts te r]. cbn [input] in Hin. subst inp.
  unfold scan_keyword. rewrite lookahead_cons, advance_cons.
  replace (negb (first =? 0) && is_scope_letter first
           && (lookahead (mkLexer (letters ++ rest) (S p) ts te r) =? ch ":"))
    with false
    by (unfold lookahead; cbn [input]; rewrite <- andb_assoc, Hscope;
        now rewrite andb_false_r).
  rewrite (scan_keyword_loop_run iswalpha rest Hrest) by assumption.
  unfold KEYWORD_SIZE. cbn [Nat.sub]. cbn [length].
  split; intros Hlen.
  - rewrite firstn_all2, skipn_all2 by lia.
    rewrite length_app, length_map. cbn [length app map].
    replace (1 + length letters =? 30)%nat with false
      by (symmetry; apply Nat.eqb_neq; lia).
    rewrite Nat.min_r by lia.
    change (first :: letters ++ rest) with ((first :: letters) ++ rest).
    change (S (length letters)) with (length (first :: letters)).
    rewrite advance_n_app. cbn [length].
    replace (p + S (length letters))%nat with (S p + length letters)%nat by lia.
    reflexivity.
  - rewrite length_app, length_map, length_firstn. cbn [length].
    rewrite Nat.min_l by lia. cbn [Nat.add Nat.eqb].
    f_equal.
    replace (first :: letters ++ rest)
      with ((first :: firstn 29 letters) ++ skipn 29 letters ++ rest)
      by (cbn [app]; now rewrite app_assoc, firstn_skipn).
    replace 30%nat with (length (first :: firstn 29 letters))
      by (cbn [length]; rewrite length_firstn; lia).
    rewrite advance_n_app. cbn [length]. rewrite length_firstn, Nat.min_l by lia.
    replace (S (p + 29)) with (p + 30)%nat by lia. reflexivity.
Qed.

Lemma Forall_repeat_alpha (n : nat) :
  Forall (fun c => CLocale.iswalpha c = true) (repeat (ch "a") n).
Proof.
  apply Forall_forall. intros x Hx. apply repeat_spec in Hx. now subst x.
Qed.

Lemma scan_keyword_run_cap_witness :
  scan_keyword CLocale.iswalpha Sample.FUNCTION Sample.UNKNOWN_COMMAND
    Sample.keywords Sample.busy (lexer_on (repeat (ch "a") 29 ++ str " x"))
    (Sample.accept [LINE_CONTINUATION; 17%nat])
  = (true, Sample.busy, mkLexer (str " x") 29 0 None 17)
  /\ scan_keyword CLocale.iswalpha Sample.FUNCTION Sample.UNKNOWN_COMMAND
       Sample.keywords Sample.busy (lexer_on (repeat (ch "a") 30 ++ str " x"))
       (Sample.accept [LINE_CONTINUATION; 17%nat])
     = (false, Sample.busy, mkLexer (str " x") 30 0 None 0).
Proof.
  split.
  - destruct (scan_keyword_run_cap CLocale.iswalpha Sample.FUNCTION
                Sample.UNKNOWN_COMMAND Sample.keywords Sample.busy
                (lexer_on (repeat (ch "a") 29 ++ str " x"))
                (Sample.accept [LINE_CONTINUATION; 17%nat])
                (ch "a") (repeat (ch "a") 28) (str " x")) as [Hrun _].
    + reflexivity.
    + apply Forall_repeat_alpha.
    + reflexivity.
    + reflexivity.
    + rewrite Hrun; [reflexivity | cbn; lia].
  - destruct (scan_keyword_run_cap CLocale.iswalpha Sample.FUNCTION
                Sample.UNKNOWN_COMMAND Sample.keywords Sample.busy
                (lexer_on (repeat (ch "a") 30 ++ str " x"))
                (Sample.accept [LINE_CONTINUATION; 17%nat])
                (ch "a") (repeat (ch "a") 29) (str " x")) as [_ Hcap].
    + reflexivity.
    + apply Forall_repeat_alpha.
    + reflexivity.
    + reflexivity.
    + rewrite Hcap; [reflexivity | cbn; lia].
Defined.

(** C5 as stated fails: a run of exactly 30 letters before a space is not
    matched against the table, although the fallback kind is accepted. *)
Lemma scan_keyword_run_of_30_fails :
  ~ (forall (s : Scanner) (lexer : TSLexer) (valid_symbols : nat -> bool)
            (first : Z) (letters rest : list Z),
       input lexer = first :: letters ++ rest ->
       Forall (fun c => CLocale.iswalpha c = true) letters ->
       CLocale.iswalpha (hd 0 rest) = false ->
       is_scope_letter first && (hd 0 (letters ++ rest) =? ch ":") = false ->
       (length (first :: letters) <= 30)%nat ->
       scan_keyword CLocale.iswalpha Sample.FUNCTION Sample.UNKNOWN_COMMAND
         Sample.keywords s lexer valid_symbols
       = scan_keyword_match Sample.FUNCTION Sample.UNKNOWN_COMMAND Sample.keywords
           s (advance_n (length (first :: letters)) lexer) valid_symbols
           (cstr (map to_char (first :: letters)))).
Proof.
  intros H.
  specialize (H Sample.busy (lexer_on (repeat (ch "a") 30 ++ str " x"))
                (Sample.accept [LINE_CONTINUATION; 17%nat])
                (ch "a") (repeat (ch "a") 29) (str " x")
                eq_refl (Forall_repeat_alpha 29) eq_refl eq_refl).
  assert (Hlen : (length (ch "a" :: repeat (ch "a") 29) <= 30)%nat)
    by (cbn; lia).
  specialize (H Hlen). vm_compute in H. discriminate H.
Qed.

(** The whole call on that input: the keyword rule is the one entered, and
    the call returns no match. *)
Lemma scan_run_of_30_letters :
  Sample.scan_rules tree_sitter_vim_external_scanner_create
    (lexer_on (repeat (ch "a") 30 ++ str " x"))
    (Sample.accept [LINE_CONTINUATION; 17%nat])
  = (R_KEYWORD,
     (false, tree_sitter_vim_external_scanner_create,
      mkLexer (str " x") 30 0 None 0))
  /\ Sample.scan_rules tree_sitter_vim_external_scanner_create
       (lexer_on (repeat (ch "a") 29 ++ str " x"))
       (Sample.accept [LINE_CONTINUATION; 17%nat])
     = (R_KEYWORD,
        (true, tree_sitter_vim_external_scanner_create,
         mkLexer (str " x") 29 0 None 17)).
Proof. split; reflexivity. Qed.

(** ** The loops of the string lexers run to their end *)

Lemma advance_shrinks (lexer : TSLexer) (skip : bool) (n : nat) :
  lookahead lexer <> 0 ->
  (length (input lexer) <= S n)%nat ->
  (length (input (advance lexer skip)) <= n)%nat.
Proof.
  intros Hla Hlen. apply lookahead_nonzero in Hla.
  pose proof (advance_length_cons lexer skip Hla). lia.
Qed.

Lemma lookahead_at_end (lexer : TSLexer) :
  (length (input lexer) <= 0)%nat -> lookahead lexer = 0.
Proof.
  unfold lookahead. destruct (input lexer); [reflexivity | cbn; lia].
Qed.

Lemma lex_escapable_string_loop_fuel (n : nat) :
  forall (lexer : TSLexer) (fuel1 fuel2 : nat),
    (length (input lexer) <= n)%nat -> (n < fuel1)%nat -> (n < fuel2)%nat ->
    lex_escapable_string_loop fuel1 lexer = lex_escapable_string_loop fuel2 lexer.
Proof.
  induction n as [|n IH]; intros lexer fuel1 fuel2 Hlen H1 H2;
    (destruct fuel1 as [|fuel1]; [lia|]); (destruct fuel2 as [|fuel2]; [lia|]);
    cbn [lex_escapable_string_loop].
  - rewrite (lookahead_at_end lexer Hlen). reflexivity.
  - case_lookahead CH_BACKSLASH Hb.
    { apply IH; try lia.
      etransitivity; [apply advance_length|].
      apply advance_shrinks; [rewrite Hb; discriminate | exact Hlen]. }
    case_lookahead CH_DQUOTE Hq; [reflexivity|].
    case_lookahead CH_NL Hn.
    { destruct (negb _); [reflexivity|].
      apply IH; try lia.
      etransitivity; [apply skip_space_tabs_length|].
      apply advance_shrinks;
        [change (lookahead lexer <> 0); rewrite Hn; discriminate | exact Hlen]. }
    case_lookahead 0 H0; [reflexivity|].
    apply IH; try lia. now apply advance_shrinks.
Qed.

Lemma lex_literal_string_loop_fuel (n : nat) :
  forall (lexer : TSLexer) (fuel1 fuel2 : nat),
    (length (input lexer) <= n)%nat -> (n < fuel1)%nat -> (n < fuel2)%nat ->
    lex_literal_string_loop fuel1 lexer = lex_literal_string_loop fuel2 lexer.
Proof.
  induction n as [|n IH]; intros lexer fuel1 fuel2 Hlen H1 H2;
    (destruct fuel1 as [|fuel1]; [lia|]); (destruct fuel2 as [|fuel2]; [lia|]);
    cbn [lex_literal_string_loop].
  - rewrite (lookahead_at_end lexer Hlen). reflexivity.
  - case_lookahead CH_SQUOTE Hs.
    { destruct (lookahead (advance lexer false) =? CH_SQUOTE); [|reflexivity].
      apply IH; try lia.
      etransitivity; [apply advance_length|].
      apply advance_shrinks; [rewrite Hs; discriminate | exact Hlen]. }
    case_lookahead CH_NL Hn.
    { destruct (negb _); [reflexivity|].
      apply IH; try lia.
      etransitivity; [apply skip_space_tabs_length|].
      apply advance_shrinks;
        [change (lookahead lexer <> 0); rewrite Hn; discriminate | exact Hlen]. }
    case_lookahead 0 H0; [reflexivity|].
    apply IH; try lia. now apply advance_shrinks.
Qed.

(** Whatever fuel above the length of the input the loops are given, they
    return what [lex_escapable_string] and [lex_literal_string] return: the
    case of no fuel left is never the one that answers. *)
Lemma lex_escapable_string_total (lexer : TSLexer) (fuel : nat) :
  (length (input lexer) < fuel)%nat ->
  lex_escapable_string_loop fuel lexer = lex_escapable_string lexer.
Proof.
  intros H. apply (lex_escapable_string_loop_fuel (length (input lexer))); lia.
Qed.

Lemma lex_literal_string_total (lexer : TSLexer) (fuel : nat) :
  (length (input lexer) < fuel)%nat ->
  lex_literal_string_loop fuel lexer = lex_literal_string lexer.
Proof.
  intros H. apply (lex_literal_string_loop_fuel (length (input lexer))); lia.
Qed.

Lemma skip_line_loop_fuel (n : nat) :
  forall (lexer : TSLexer) (fuel : nat),
    (length (input lexer) <= n)%nat -> (n <= fuel)%nat ->
    skip_line_loop fuel lexer = skip_line lexer.
Proof.
  unfold skip_line.
  induction n as [|n IH]; intros lexer fuel Hlen Hfuel.
  - assert (E : input lexer = []) by (destruct (input lexer); [reflexivity | cbn in Hlen; lia]).
    rewrite E. destruct fuel; [reflexivity|]. cbn.
    unfold lookahead. rewrite E. reflexivity.
  - destruct fuel as [|fuel]; [lia|].
    destruct (input lexer) as [|c rest] eqn:E.
    + cbn. unfold lookahead. rewrite E. reflexivity.
    + cbn [length skip_line_loop].
      destruct (negb (lookahead lexer =? 0) && negb (lookahead lexer =? CH_NL));
        [|reflexivity].
      assert (Hadv : input (advance lexer false) = rest)
        by (unfold advance; rewrite E; reflexivity).
      rewrite (IH (advance lexer false) fuel); rewrite ?Hadv; try reflexivity.
      * cbn in Hlen. lia.
      * lia.
Qed.

(** The default case of the switch in [lex_string] is not reached. *)
Lemma is_valid_string_delim_cases (c : Z) :
  is_valid_string_delim c = true -> c = CH_SQUOTE \/ c = CH_DQUOTE.
Proof.
  unfold is_valid_string_delim. intros H.
  apply orb_true_iff in H as [H|H]; apply Z.eqb_eq in H; auto.
Qed.

(** ** The invariant holds in every reachable state *)

Lemma set_ignore_comments_wf (s : Scanner) (b : bool) :
  wf_scanner s -> wf_scanner (set_ignore_comments s b).
Proof. intros [H1 H2 H3 H4]. split; assumption. Qed.

Lemma set_separator_wf (s : Scanner) (c : Z) :
  wf_scanner s -> wf_scanner (set_separator s (to_char c)).
Proof.
  intros [H1 H2 H3 H4]. split; try assumption.
  cbn. unfold to_char. apply Z.mod_pos_bound. lia.
Qed.

Lemma try_lex_heredoc_marker_loop_length (room : nat) :
  forall (lexer : TSLexer) (marker : list Z),
    (length (fst (try_lex_heredoc_marker_loop room lexer marker))
     <= length marker + room)%nat.
Proof.
  induction room as [|room IH]; intros lexer marker; cbn [try_lex_heredoc_marker_loop].
  - cbn. lia.
  - destruct (_ && _); [|cbn; lia].
    etransitivity; [apply IH|]. rewrite length_app. cbn. lia.
Qed.

(** The buffer after a capture: what [strncpy] wrote, then nul up to the
    capacity. *)
Lemma captured_buffer (hm marker : list Z) (n : nat) :
  length hm = HEREDOC_MARKER_LEN -> (n <= HEREDOC_MARKER_LEN)%nat ->
  memset (store hm 0 (strncpy marker n)) n 0 (HEREDOC_MARKER_LEN - n)
  = strncpy marker n ++ repeat 0 (HEREDOC_MARKER_LEN - n).
Proof.
  intros Hlen Hn. unfold memset, store. cbn [firstn Nat.add app].
  rewrite strncpy_length, repeat_length.
  rewrite firstn_app, strncpy_length, Nat.sub_diag. cbn [firstn].
  rewrite app_nil_r, firstn_all2 by (rewrite strncpy_length; lia).
  rewrite skipn_all2; [now rewrite app_nil_r|].
  rewrite length_app, strncpy_length, length_skipn. lia.
Qed.

Lemma try_lex_heredoc_marker_wf (iswlower : Z -> bool) (s : Scanner)
    (lexer : TSLexer) :
  wf_scanner s ->
  wf_scanner (snd (fst (try_lex_heredoc_marker iswlower s lexer))).
Proof.
  intros Hwf. unfold try_lex_heredoc_marker.
  destruct (iswlower (lookahead lexer)); [exact Hwf|].
  pose proof (try_lex_heredoc_marker_loop_length HEREDOC_MARKER_LEN lexer [])
    as Hlen.
  destruct (try_lex_heredoc_marker_loop _ _ _) as [m lexer1].
  cbn [fst length Nat.add] in Hlen.
  destruct (length m =? HEREDOC_MARKER_LEN)%nat eqn:E32; [exact Hwf|].
  destruct (length m =? 0)%nat eqn:E0; [exact Hwf|].
  apply Nat.eqb_neq in E32, E0. cbn [orb fst snd].
  destruct Hwf as [H1 H2 H3 H4]. destruct s as [sep ign ml hm].
  cbn [separator ignore_comments marker_len heredoc_marker] in *.
  unfold set_heredoc_marker, set_marker_len.
  cbn [separator ignore_comments marker_len heredoc_marker].
  rewrite captured_buffer by assumption.
  assert (Hu : to_uint8 (Z.of_nat (length m)) = Z.of_nat (length m)).
  { unfold to_uint8. apply Z.mod_small. unfold HEREDOC_MARKER_LEN in *. lia. }
  split; cbn [separator ignore_comments marker_len heredoc_marker].
  - exact H1.
  - rewrite Hu. unfold HEREDOC_MARKER_LEN in *. lia.
  - rewrite length_app, strncpy_length, repeat_length. lia.
  - unfold marker. cbn [marker_len heredoc_marker]. rewrite Hu, Nat2Z.id.
    rewrite firstn_app, strncpy_length, Nat.sub_diag. cbn [firstn].
    rewrite app_nil_r, firstn_all2 by (rewrite strncpy_length; lia).
    apply strncpy_nul_closed.
Qed.

Lemma scan_heredoc_end_wf (char_signed : bool) (s : Scanner) (lexer : TSLexer) :
  wf_scanner s ->
  wf_scanner (snd (fst (scan_heredoc_end char_signed s lexer))).
Proof.
  intros Hwf. unfold scan_heredoc_end.
  destruct (check_prefix _ _ _ _ _) as [ok lexer1].
  destruct (negb ok); [exact Hwf|].
  destruct (_ && _); [exact Hwf|].
  destruct Hwf as [H1 H2 H3 H4]. cbn [fst snd].
  unfold set_marker_len, set_heredoc_marker.
  split; cbn [separator ignore_comments marker_len heredoc_marker].
  - exact H1.
  - unfold HEREDOC_MARKER_LEN. lia.
  - unfold memset, store. cbn [firstn Nat.add app].
    rewrite length_app, !repeat_length, length_skipn. lia.
  - reflexivity.
Qed.

Lemma scan_newline_wf (char_signed : bool) (s : Scanner) (lexer : TSLexer)
    (valid_symbols : nat -> bool) :
  wf_scanner s ->
  wf_scanner (snd (fst (scan_newline char_signed s lexer valid_symbols))).
Proof.
  intros Hwf. unfold scan_newline. break_scan; cbn [fst snd];
    auto using set_ignore_comments_wf.
Qed.

Lemma scan_keyword_wf (iswalpha : Z -> bool) (FUNCTION UNKNOWN_COMMAND : nat)
    (keywords : nat -> keyword) (s : Scanner) (lexer : TSLexer)
    (valid_symbols : nat -> bool) :
  wf_scanner s ->
  wf_scanner
    (snd (fst (scan_keyword iswalpha FUNCTION UNKNOWN_COMMAND keywords s lexer
                 valid_symbols))).
Proof.
  intros Hwf. unfold scan_keyword, scan_keyword_match. break_scan; cbn [fst snd];
    auto using set_ignore_comments_wf.
Qed.

(** A scan call keeps the invariant. *)
Lemma scan_rules_wf (char_signed : bool)
    (iswlower iswpunct iswalnum iswalpha : Z -> bool)
    (FUNCTION UNKNOWN_COMMAND : nat) (keywords : nat -> keyword)
    (s : Scanner) (lexer : TSLexer) (valid_symbols : nat -> bool) :
  wf_scanner s ->
  wf_scanner
    (snd (fst (snd (scan_rules char_signed iswlower iswpunct iswalnum iswalpha
                      FUNCTION UNKNOWN_COMMAND keywords s lexer valid_symbols)))).
Proof.
  intros Hwf. unfold scan_rules, scan_pipe, scan_comment.
  repeat match goal with
  | |- context [match ?e with pair _ _ => _ end] => destruct e
  | |- context [if ?b then _ else _] => destruct b
  end; cbn [fst snd];
    auto using set_ignore_comments_wf, set_separator_wf, scan_newline_wf,
      try_lex_heredoc_marker_wf, scan_heredoc_end_wf, scan_keyword_wf.
Qed.

(** What [deserialize] builds from the bytes of a state that satisfies the
    invariant satisfies it too. *)
Lemma restored_wf (s t : Scanner) :
  wf_scanner s -> wf_scanner t ->
  wf_scanner
    (mkScanner (separator s) (ignore_comments s) (marker_len s)
       (marker s ++ skipn (Z.to_nat (marker_len s)) (heredoc_marker t))).
Proof.
  intros [H1 H2 H3 H4] [_ _ T3 _]. unfold HEREDOC_MARKER_LEN in *.
  assert (Hm : length (marker s) = Z.to_nat (marker_len s))
    by (unfold marker; rewrite length_firstn; lia).
  split; cbn [separator ignore_comments marker_len heredoc_marker];
    try assumption.
  - rewrite length_app, length_skipn, Hm. unfold HEREDOC_MARKER_LEN. lia.
  - unfold marker at 1. cbn [marker_len heredoc_marker].
    rewrite firstn_app, Hm, Nat.sub_diag. cbn [firstn].
    rewrite app_nil_r, firstn_all2 by lia. exact H4.
Qed.

Lemma reachable_wf (char_signed : bool)
    (iswlower iswpunct iswalnum iswalpha : Z -> bool)
    (FUNCTION UNKNOWN_COMMAND : nat) (keywords : nat -> keyword) (s : Scanner) :
  reachable char_signed iswlower iswpunct iswalnum iswalpha FUNCTION
    UNKNOWN_COMMAND keywords s ->
  wf_scanner s.
Proof.
  induction 1 as [|s lexer valid ok s' lexer' _ IH Hscan
                  |s t buffer s' _ IHs _ IHt Hlen Hde
                  |t s' _ IH Hde].
  - apply create_wf.
  - unfold tree_sitter_vim_external_scanner_scan in Hscan.
    destruct (negb (valid LINE_CONTINUATION)); [discriminate|].
    injection Hscan as Hscan.
    pose proof (scan_rules_wf char_signed iswlower iswpunct iswalnum iswalpha
                  FUNCTION UNKNOWN_COMMAND keywords s lexer valid IH) as Hwf.
    rewrite Hscan in Hwf. exact Hwf.
  - rewrite deserialize_serialized in Hde by assumption.
    injection Hde as <-. now apply restored_wf.
  - cbn in Hde. injection Hde as <-. exact IH.
Qed.

(** A scan call that returns no match leaves the state as it was. *)
Lemma scan_rules_no_match_keeps_state (char_signed : bool)
    (iswlower iswpunct iswalnum iswalpha : Z -> bool)
    (FUNCTION UNKNOWN_COMMAND : nat) (keywords : nat -> keyword)
    (s : Scanner) (lexer : TSLexer) (valid_symbols : nat -> bool)
    (r : Rule) (s' : Scanner) (lexer' : TSLexer) :
  scan_rules char_signed iswlower iswpunct iswalnum iswalpha FUNCTION
    UNKNOWN_COMMAND keywords s lexer valid_symbols = (r, (false, s', lexer')) ->
  s' = s.
Proof.
  unfold scan_rules, scan_newline, scan_pipe, scan_comment, scan_heredoc_end,
    scan_keyword, scan_keyword_match.
  repeat match goal with
  | |- context [try_lex_heredoc_marker ?f ?a ?b] =>
      let H := fresh "H" in
      pose proof (try_lex_heredoc_marker_failure_state f a b) as H;
      destruct (try_lex_heredoc_marker f a b) as [[? ?] ?]
  | |- context [match ?e with pair _ _ => _ end] => destruct e
  | |- context [if ?b then _ else _] => destruct b
  | |- context [match ?e with Some _ => _ | None => _ end] => destruct e
  end;
  intros [= ]; subst; auto; try discriminate.
Qed.

(** ** Round trip *)

(** C1. For every reachable state [s], deserializing what [serialize] wrote
    for [s], into any state [t], succeeds with a state equal to [s]: same
    separator, same flag, same marker length and marker.  The struct itself
    is [s] when the bytes of the target's buffer past the marker are those
    of [s]. *)
Theorem serialize_deserialize_roundtrip (char_signed : bool)
    (iswlower iswpunct iswalnum iswalpha : Z -> bool)
    (FUNCTION UNKNOWN_COMMAND : nat) (keywords : nat -> keyword)
    (s t : Scanner) (buffer : list Z) :
  reachable char_signed iswlower iswpunct iswalnum iswalpha FUNCTION
    UNKNOWN_COMMAND keywords s ->
  (Z.to_nat (marker_len s) + SC_MARK <= length buffer)%nat ->
  exists s',
    tree_sitter_vim_external_scanner_deserialize t (serialized s buffer)
      (fst (tree_sitter_vim_external_scanner_serialize s buffer)) = Some s'
    /\ state_eq s' s
    /\ (skipn (Z.to_nat (marker_len s)) (heredoc_marker t)
        = skipn (Z.to_nat (marker_len s)) (heredoc_marker s) -> s' = s).
Proof.
  intros Hreach Hlen. apply roundtrip_wf; [|exact Hlen].
  exact (reachable_wf _ _ _ _ _ _ _ _ _ Hreach).
Qed.

Lemma serialize_deserialize_roundtrip_witness :
  exists s',
    tree_sitter_vim_external_scanner_deserialize
      tree_sitter_vim_external_scanner_create
      (serialized Sample.busy (repeat 7 1024))
      (fst (tree_sitter_vim_external_scanner_serialize Sample.busy (repeat 7 1024)))
    = Some s'
    /\ state_eq s' Sample.busy
    /\ (skipn (Z.to_nat (marker_len Sample.busy))
          (heredoc_marker tree_sitter_vim_external_scanner_create)
        = skipn (Z.to_nat (marker_len Sample.busy)) (heredoc_marker Sample.busy)
        -> s' = Sample.busy).
Proof.
  apply (serialize_deserialize_roundtrip true CLocale.iswlower CLocale.iswpunct
           CLocale.iswalnum CLocale.iswalpha Sample.FUNCTION
           Sample.UNKNOWN_COMMAND Sample.keywords Sample.busy
           tree_sitter_vim_external_scanner_create (repeat 7 1024)).
  - eapply (reach_scan _ _ _ _ _ _ _ _ _ (lexer_on (str "EOF"))
              (Sample.accept [LINE_CONTINUATION; SCRIPT_HEREDOC_MARKER])).
    + eapply (reach_scan _ _ _ _ _ _ _ _ _ (lexer_on (str "/"))
                (Sample.accept [LINE_CONTINUATION; SEP_FIRST])).
      * apply reach_create.
      * reflexivity.
    + reflexivity.
  - apply Nat.leb_le. vm_compute. reflexivity.
Defined.

(** ** The open separator is punctuation *)

(** A scan call leaves the separator as it was or sets it to a punctuation
    character, truncated to a [char]. *)
Lemma scan_rules_separator (char_signed : bool)
    (iswlower iswpunct iswalnum iswalpha : Z -> bool)
    (FUNCTION UNKNOWN_COMMAND : nat) (keywords : nat -> keyword)
    (s : Scanner) (lexer : TSLexer) (valid_symbols : nat -> bool) :
  let s' :=
    snd (fst (snd (scan_rules char_signed iswlower iswpunct iswalnum iswalpha
                     FUNCTION UNKNOWN_COMMAND keywords s lexer valid_symbols))) in
  separator s' = separator s
  \/ exists c, iswpunct c = true /\ separator s' = to_char c.
Proof.
  unfold scan_rules.
  destruct (lookahead (skip_space_tabs lexer) =? 0); [left; reflexivity|].
  destruct (valid_symbols SEP_FIRST && iswpunct (lookahead (skip_space_tabs lexer)))
    eqn:Hfirst.
  { apply andb_true_iff in Hfirst as [_ Hp]. right. eexists. split; [exact Hp|].
    reflexivity. }
  left.
  unfold scan_newline, scan_pipe, scan_comment, scan_heredoc_end, scan_keyword,
    scan_keyword_match, try_lex_heredoc_marker.
  break_scan; reflexivity.
Qed.

Lemma C_punct_is_char (c : Z) :
  CLocale.iswpunct c = true -> to_char c = c /\ 33 <= c <= 126.
Proof.
  unfold CLocale.iswpunct. intros H.
  apply andb_true_iff in H as [H _]. apply andb_true_iff in H as [Hlo Hhi].
  apply Z.leb_le in Hlo, Hhi. split; [|lia].
  unfold to_char. apply Z.mod_small. lia.
Qed.

(** In the "C" locale every reachable state has no separator open or a
    punctuation character as its separator. *)
Lemma reachable_separator (FUNCTION UNKNOWN_COMMAND : nat)
    (keywords : nat -> keyword) (char_signed : bool) (s : Scanner) :
  reachable char_signed CLocale.iswlower CLocale.iswpunct CLocale.iswalnum
    CLocale.iswalpha FUNCTION UNKNOWN_COMMAND keywords s ->
  separator s = 0 \/ CLocale.iswpunct (separator s) = true.
Proof.
  induction 1 as [|s lexer valid ok s' lexer' Hr IH Hscan
                  |s t buffer s' Hs IHs Ht IHt Hlen Hde
                  |t s' _ IH Hde].
  - left. reflexivity.
  - unfold tree_sitter_vim_external_scanner_scan in Hscan.
    destruct (negb (valid LINE_CONTINUATION)); [discriminate|].
    injection Hscan as Hscan.
    pose proof (scan_rules_separator char_signed CLocale.iswlower CLocale.iswpunct
                  CLocale.iswalnum CLocale.iswalpha FUNCTION UNKNOWN_COMMAND
                  keywords s lexer valid) as Hsep.
    cbv zeta in Hsep. rewrite Hscan in Hsep. cbn [fst snd] in Hsep.
    destruct Hsep as [-> | (c & Hp & ->)]; [exact IH|].
    right. destruct (C_punct_is_char c Hp) as [-> _]. exact Hp.
  - rewrite deserialize_serialized in Hde
      by (eauto using reachable_wf).
    injection Hde as <-. exact IHs.
  - cbn in Hde. injection Hde as <-. exact IH.
Qed.

(** So in the "C" locale, for a reachable state and a letter, the
    paired-separator rules do not apply: there the side condition of the
    negation-prefix property holds in every scan call. *)
Lemma paired_separator_not_on_letter (FUNCTION UNKNOWN_COMMAND : nat)
    (keywords : nat -> keyword) (s : Scanner) (c : Z)
    (valid_symbols : nat -> bool) :
  reachable true CLocale.iswlower CLocale.iswpunct CLocale.iswalnum
    CLocale.iswalpha FUNCTION UNKNOWN_COMMAND keywords s ->
  CLocale.iswalpha c = true ->
  paired_separator_applies true CLocale.iswpunct s c valid_symbols = false.
Proof.
  intros Hreach Halpha. apply reachable_separator in Hreach.
  unfold paired_separator_applies.
  assert (Hnp : CLocale.iswpunct c = false).
  { unfold CLocale.iswpunct, CLocale.iswalnum. rewrite Halpha.
    cbn [orb negb]. apply andb_false_r. }
  rewrite Hnp, andb_false_r. cbn [orb].
  destruct (valid_symbols SEP); [cbn [andb]|reflexivity].
  apply Z.eqb_neq. intros <-.
  destruct Hreach as [H0 | Hp].
  - rewrite H0 in Halpha. discriminate Halpha.
  - destruct (C_punct_is_char _ Hp) as [_ Hrange].
    rewrite char_to_int_ascii in Hnp by lia. congruence.
Qed.

(** * Further properties *)

(** ** State codec *)

(** X1. When [deserialize] accepts a buffer that is not empty, the state it
    leaves satisfies the invariant of reachable states, whatever the bytes
    are: the declared marker length is below 32 and fits the buffer length,
    and the marker is what [strncpy] copied, closed under nul. *)
Theorem deserialize_establishes_invariant (t s' : Scanner) (buffer : list Z)
    (len : Z) :
  length (heredoc_marker t) = HEREDOC_MARKER_LEN ->
  0 <= nth SC_PAIRED_SEP buffer 0 < 256 ->
  len <> 0 ->
  tree_sitter_vim_external_scanner_deserialize t buffer len = Some s' ->
  wf_scanner s'
  /\ marker_len s' + 3 = len
  /\ separator s' = nth SC_PAIRED_SEP buffer 0
  /\ ignore_comments s' = char_to_bool (nth SC_IGNORE_COMMENTS buffer 0)
  /\ marker s' = strncpy (skipn SC_MARK buffer) (Z.to_nat (marker_len s')).
Proof.
  destruct t as [sep ign ml hm]. cbn [heredoc_marker].
  intros Hbuf Hsep Hlen. unfold tree_sitter_vim_external_scanner_deserialize.
  apply Z.eqb_neq in Hlen. rewrite Hlen.
  unfold set_ignore_comments, set_separator, set_marker_len, set_heredoc_marker.
  cbn [separator ignore_comments marker_len heredoc_marker].
  set (n := to_uint8 (nth SC_MARK_LEN buffer 0)).
  assert (Hn : 0 <= n < 256) by (apply Z.mod_pos_bound; lia).
  change (Z.of_nat SC_MARK) with 3.
  change (Z.of_nat HEREDOC_MARKER_LEN) with 32.
  destruct (n + 3 =? len) eqn:Hfit; [|discriminate].
  destruct (n <? 32) eqn:Hcap; [|discriminate].
  apply Z.eqb_eq in Hfit. apply Z.ltb_lt in Hcap. cbn [negb].
  unfold HEREDOC_MARKER_LEN in Hbuf.
  destruct (n >? 0) eqn:Hpos; intros [= <-].
  - assert (Hfirst : forall src,
               firstn (Z.to_nat n) (store hm 0 (strncpy src (Z.to_nat n)))
               = strncpy src (Z.to_nat n)).
    { intros src. rewrite store_at_0, firstn_app, strncpy_length, Nat.sub_diag.
      cbn [firstn]. rewrite app_nil_r. apply firstn_all2.
      rewrite strncpy_length. lia. }
    split; [split|]; unfold marker;
      cbn [separator ignore_comments marker_len heredoc_marker].
    + assumption.
    + change (Z.of_nat HEREDOC_MARKER_LEN) with 32. lia.
    + rewrite store_length; [assumption|].
      rewrite strncpy_length. cbn [Nat.add]. lia.
    + rewrite Hfirst. apply strncpy_nul_closed.
    + repeat split; try lia. apply Hfirst.
  - assert (H0 : n = 0) by lia. rewrite H0.
    split; [split|]; unfold marker;
      cbn [separator ignore_comments marker_len heredoc_marker].
    + assumption.
    + change (Z.of_nat HEREDOC_MARKER_LEN) with 32. lia.
    + assumption.
    + reflexivity.
    + repeat split. lia.
Qed.

Lemma deserialize_establishes_invariant_witness :
  tree_sitter_vim_external_scanner_deserialize Sample.busy
    [0; ch ";"; 2; ch "A"; ch "B"] 5
  = Some (mkScanner (ch ";") false 2 (str "ABF" ++ repeat 0 29))
  /\ wf_scanner (mkScanner (ch ";") false 2 (str "ABF" ++ repeat 0 29)).
Proof.
  split; [reflexivity|].
  apply (deserialize_establishes_invariant Sample.busy
           (mkScanner (ch ";") false 2 (str "ABF" ++ repeat 0 29))
           [0; ch ";"; 2; ch "A"; ch "B"] 5).
  - reflexivity.
  - cbn. lia.
  - discriminate.
  - reflexivity.
Defined.

(** X2. [serialize] writes the first 3 + marker length bytes of the buffer
    and no other: the buffer keeps its length and the bytes past what was
    written. *)
Theorem serialize_writes_only_its_bytes (s : Scanner) (buffer : list Z) :
  0 <= marker_len s ->
  (Z.to_nat (marker_len s) + SC_MARK <= length buffer)%nat ->
  length (snd (tree_sitter_vim_external_scanner_serialize s buffer))
  = length buffer
  /\ skipn (Z.to_nat (fst (tree_sitter_vim_external_scanner_serialize s buffer)))
       (snd (tree_sitter_vim_external_scanner_serialize s buffer))
     = skipn (Z.to_nat (fst (tree_sitter_vim_external_scanner_serialize s buffer)))
         buffer.
Proof.
  intros Hpos Hlen. unfold SC_MARK in Hlen.
  destruct buffer as [|b0 [|b1 [|b2 rest]]]; cbn [length] in Hlen; try lia.
  unfold tree_sitter_vim_external_scanner_serialize. cbn [fst snd].
  replace (Z.to_nat (marker_len s + Z.of_nat SC_MARK))
    with (3 + Z.to_nat (marker_len s))%nat by (unfold SC_MARK; lia).
  unfold store, SC_PAIRED_SEP, SC_IGNORE_COMMENTS, SC_MARK_LEN, SC_MARK.
  cbn [firstn skipn length Nat.add app]. rewrite strncpy_length.
  split.
  - rewrite length_app, strncpy_length, length_skipn. lia.
  - rewrite skipn_app, strncpy_length, Nat.sub_diag.
    rewrite skipn_all2 by (rewrite strncpy_length; lia).
    reflexivity.
Qed.

Lemma serialize_writes_only_its_bytes_witness :
  length (snd (tree_sitter_vim_external_scanner_serialize Sample.busy (repeat 7 16)))
  = 16%nat
  /\ skipn 6 (snd (tree_sitter_vim_external_scanner_serialize Sample.busy (repeat 7 16)))
     = repeat 7 10.
Proof.
  destruct (serialize_writes_only_its_bytes Sample.busy (repeat 7 16)) as [Hl Hs].
  - cbn. lia.
  - apply Nat.leb_le. reflexivity.
  - split; [exact Hl | exact Hs].
Defined.

Lemma bool_to_char_inj (a b : bool) : bool_to_char a = bool_to_char b -> a = b.
Proof. destruct a, b; cbn; congruence. Qed.

(** X3. Two states that satisfy the invariant and serialize to the same
    bytes are equal as scanner states: a checkpoint determines the
    separator, the flag and the marker. *)
Theorem serialize_injective (s1 s2 : Scanner) (buffer1 buffer2 : list Z) :
  wf_scanner s1 -> wf_scanner s2 ->
  (Z.to_nat (marker_len s1) + SC_MARK <= length buffer1)%nat ->
  (Z.to_nat (marker_len s2) + SC_MARK <= length buffer2)%nat ->
  serialized s1 buffer1 = serialized s2 buffer2 ->
  state_eq s1 s2.
Proof.
  intros [_ Hm1 Hb1 Hc1] [_ Hm2 Hb2 Hc2] Hl1 Hl2 Heq.
  unfold HEREDOC_MARKER_LEN in *.
  rewrite !serialized_bytes in Heq by (lia || assumption).
  rewrite !strncpy_closed in Heq by (lia || assumption).
  cbn [app] in Heq. injection Heq as Hf Hs Hl Hm.
  apply bool_to_char_inj in Hf.
  repeat split; assumption.
Qed.

Lemma serialize_injective_witness :
  state_eq Sample.busy (mkScanner (ch "/") true 3 (str "EOFXY" ++ repeat 0 27)).
Proof.
  apply (serialize_injective Sample.busy
           (mkScanner (ch "/") true 3 (str "EOFXY" ++ repeat 0 27))
           (repeat 0 8) (repeat 1 8)).
  - split; cbn; try lia; reflexivity.
  - split; cbn; try lia; reflexivity.
  - apply Nat.leb_le. reflexivity.
  - apply Nat.leb_le. reflexivity.
  - reflexivity.
Defined.

(** ** The state across scan calls *)

(** X4. Every state a parse session reaches, by scan calls and restored
    checkpoints from the fresh state, satisfies the invariant: the separator
    is a [char], the marker length is below 32, the marker buffer has its 32
    bytes, and no marker byte follows a nul. *)
Theorem reachable_state_invariant (char_signed : bool)
    (iswlower iswpunct iswalnum iswalpha : Z -> bool)
    (FUNCTION UNKNOWN_COMMAND : nat) (keywords : nat -> keyword) (s : Scanner) :
  reachable char_signed iswlower iswpunct iswalnum iswalpha FUNCTION
    UNKNOWN_COMMAND keywords s ->
  0 <= separator s < 256
  /\ 0 <= marker_len s < 32
  /\ length (heredoc_marker s) = 32%nat
  /\ nul_closed (marker s) = true.
Proof.
  intros Hreach. apply reachable_wf in Hreach.
  destruct Hreach as [H1 H2 H3 H4].
  split; [exact H1 | split; [exact H2 | split; [exact H3 | exact H4]]].
Qed.

Lemma reachable_state_invariant_witness :
  0 <= separator Sample.busy < 256
  /\ 0 <= marker_len Sample.busy < 32
  /\ length (heredoc_marker Sample.busy) = 32%nat
  /\ nul_closed (marker Sample.busy) = true.
Proof.
  apply (reachable_state_invariant true CLocale.iswlower CLocale.iswpunct
           CLocale.iswalnum CLocale.iswalpha Sample.FUNCTION
           Sample.UNKNOWN_COMMAND Sample.keywords Sample.busy).
  eapply (reach_scan _ _ _ _ _ _ _ _ _ (lexer_on (str "EOF"))
            (Sample.accept [LINE_CONTINUATION; SCRIPT_HEREDOC_MARKER])).
  - eapply (reach_scan _ _ _ _ _ _ _ _ _ (lexer_on (str "/"))
              (Sample.accept [LINE_CONTINUATION; SEP_FIRST])).
    + apply reach_create.
    + reflexivity.
  - reflexivity.
Defined.

(** X5. A scan call that returns no match leaves every field of the state
    as it was, whichever branch it took and however far the cursor went. *)
Theorem scan_no_match_keeps_state (char_signed : bool)
    (iswlower iswpunct iswalnum iswalpha : Z -> bool)
    (FUNCTION UNKNOWN_COMMAND : nat) (keywords : nat -> keyword)
    (s s' : Scanner) (lexer lexer' : TSLexer) (valid_symbols : nat -> bool) :
  tree_sitter_vim_external_scanner_scan char_signed iswlower iswpunct iswalnum
    iswalpha FUNCTION UNKNOWN_COMMAND keywords s lexer valid_symbols
  = Some (false, s', lexer') ->
  s' = s.
Proof.
  unfold tree_sitter_vim_external_scanner_scan.
  destruct (negb (valid_symbols LINE_CONTINUATION)); [discriminate|].
  destruct (scan_rules _ _ _ _ _ _ _ _ _ _ _) as [r [[ok s1] lexer1]] eqn:Hrules.
  cbn [snd]. intros [= -> -> ->].
  exact (scan_rules_no_match_keeps_state _ _ _ _ _ _ _ _ _ _ _ _ _ _ Hrules).
Qed.

Lemma scan_no_match_keeps_state_witness :
  Sample.scan Sample.busy (lexer_on (str "  || x"))
    (Sample.accept [LINE_CONTINUATION; CMD_SEPARATOR])
  = Some (false, Sample.busy, mkLexer (str "| x") 3 2 None 0)
  /\ Sample.busy = Sample.busy.
Proof.
  split; [reflexivity|].
  apply (scan_no_match_keeps_state true CLocale.iswlower CLocale.iswpunct
           CLocale.iswalnum CLocale.iswalpha Sample.FUNCTION
           Sample.UNKNOWN_COMMAND Sample.keywords Sample.busy Sample.busy
           (lexer_on (str "  || x")) (mkLexer (str "| x") 3 2 None 0)
           (Sample.accept [LINE_CONTINUATION; CMD_SEPARATOR])).
  reflexivity.
Defined.

(** X6. What a scan call may write depends on the branch it takes: the
    separator is written by the opening of a paired separator only; the
    marker and its length by heredoc marker capture and by the terminator
    match only; the suppress-comments flag by the two separator branches,
    the bang filter, the newline branch and the keyword branch only. *)
Theorem scan_rules_frame (char_signed : bool)
    (iswlower iswpunct iswalnum iswalpha : Z -> bool)
    (FUNCTION UNKNOWN_COMMAND : nat) (keywords : nat -> keyword)
    (s : Scanner) (lexer : TSLexer) (valid_symbols : nat -> bool) :
  (writes_separator
     (fst (scan_rules char_signed iswlower iswpunct iswalnum iswalpha FUNCTION
             UNKNOWN_COMMAND keywords s lexer valid_symbols)) = false ->
   separator
     (snd (fst (snd (scan_rules char_signed iswlower iswpunct iswalnum iswalpha
                       FUNCTION UNKNOWN_COMMAND keywords s lexer valid_symbols))))
   = separator s)
  /\ (writes_marker
        (fst (scan_rules char_signed iswlower iswpunct iswalnum iswalpha FUNCTION
                UNKNOWN_COMMAND keywords s lexer valid_symbols)) = false ->
      marker_len
        (snd (fst (snd (scan_rules char_signed iswlower iswpunct iswalnum
                          iswalpha FUNCTION UNKNOWN_COMMAND keywords s lexer
                          valid_symbols))))
      = marker_len s
      /\ heredoc_marker
           (snd (fst (snd (scan_rules char_signed iswlower iswpunct iswalnum
                             iswalpha FUNCTION UNKNOWN_COMMAND keywords s lexer
                             valid_symbols))))
         = heredoc_marker s)
  /\ (writes_ignore_comments
        (fst (scan_rules char_signed iswlower iswpunct iswalnum iswalpha FUNCTION
                UNKNOWN_COMMAND keywords s lexer valid_symbols)) = false ->
      ignore_comments
        (snd (fst (snd (scan_rules char_signed iswlower iswpunct iswalnum
                          iswalpha FUNCTION UNKNOWN_COMMAND keywords s lexer
                          valid_symbols))))
      = ignore_comments s).
Proof.
  unfold scan_rules, scan_newline, scan_pipe, scan_comment, scan_heredoc_end,
    scan_keyword, scan_keyword_match, try_lex_heredoc_marker.
  break_scan;
    cbn [fst snd writes_separator writes_marker writes_ignore_comments];
    repeat split; intros; try discriminate; reflexivity.
Qed.

(** ** The cursor only moves forward *)

Lemma scans_forward_refl (lexer : TSLexer) : scans_forward lexer lexer.
Proof.
  split; [exists []; cbn; split; [reflexivity | lia] | left; reflexivity].
Qed.

Lemma consumes_pos (lexer lexer' : TSLexer) :
  consumes lexer lexer' -> (pos lexer <= pos lexer')%nat.
Proof. intros (pre & _ & Hp). lia. Qed.

Lemma scans_forward_advance (lexer l1 : TSLexer) (skip : bool) :
  scans_forward lexer l1 -> scans_forward lexer (advance l1 skip).
Proof.
  intros [(pre & Hin & Hpos) Hmark]. unfold advance.
  destruct (input l1) as [|c rest] eqn:E.
  - split; [exists pre; rewrite E; auto | exact Hmark].
  - split.
    + exists (pre ++ [c]). cbn [input pos]. rewrite <- app_assoc, length_app.
      cbn [app length]. split; [assumption | lia].
    + destruct Hmark as [Hm | (e & He & Hr)]; [left; exact Hm|].
      right. exists e. cbn [token_end pos]. split; [exact He | lia].
Qed.

Lemma scans_forward_mark_end (lexer l1 : TSLexer) :
  scans_forward lexer l1 -> scans_forward lexer (mark_end l1).
Proof.
  intros [Hc Hmark]. split; [exact Hc|].
  right. exists (pos l1). cbn [token_end pos mark_end]. split; [reflexivity|].
  apply consumes_pos in Hc. lia.
Qed.

Lemma scans_forward_set_result_symbol (lexer l1 : TSLexer) (t : nat) :
  scans_forward lexer l1 -> scans_forward lexer (set_result_symbol l1 t).
Proof. intros [Hc Hmark]. split; assumption. Qed.

#[local] Hint Resolve scans_forward_refl scans_forward_advance
  scans_forward_mark_end scans_forward_set_result_symbol : cursor.

Lemma scans_forward_skip_space_tabs_loop (fuel : nat) :
  forall lexer l1 : TSLexer,
    scans_forward lexer l1 -> scans_forward lexer (skip_space_tabs_loop fuel l1).
Proof.
  induction fuel as [|fuel IH]; intros lexer l1 H; cbn [skip_space_tabs_loop];
    [exact H|].
  destruct (IS_SPACE_TABS (lookahead l1)); auto with cursor.
Qed.

Lemma scans_forward_skip_space_tabs (lexer l1 : TSLexer) :
  scans_forward lexer l1 -> scans_forward lexer (skip_space_tabs l1).
Proof. apply scans_forward_skip_space_tabs_loop. Qed.

Lemma scans_forward_skip_line_loop (fuel : nat) :
  forall lexer l1 : TSLexer,
    scans_forward lexer l1 -> scans_forward lexer (skip_line_loop fuel l1).
Proof.
  induction fuel as [|fuel IH]; intros lexer l1 H; cbn [skip_line_loop];
    [exact H|].
  destruct (_ && _); auto with cursor.
Qed.

Lemma scans_forward_skip_line (lexer l1 : TSLexer) :
  scans_forward lexer l1 -> scans_forward lexer (skip_line l1).
Proof. apply scans_forward_skip_line_loop. Qed.

#[local] Hint Resolve scans_forward_skip_space_tabs scans_forward_skip_line
  : cursor.

Lemma scans_forward_check_prefix_loop (char_signed : bool) (prefix : list Z) :
  forall lexer l1 : TSLexer,
    scans_forward lexer l1 ->
    scans_forward lexer (snd (check_prefix_loop char_signed l1 prefix)).
Proof.
  induction prefix as [|c prefix IH]; intros lexer l1 H;
    cbn [check_prefix_loop]; [exact H|].
  destruct (_ =? _); cbn [snd]; auto with cursor.
Qed.

Lemma scans_forward_check_prefix (char_signed : bool) (prefix : list Z)
    (prefix_len token : nat) (lexer l1 : TSLexer) :
  scans_forward lexer l1 ->
  scans_forward lexer (snd (check_prefix char_signed l1 prefix prefix_len token)).
Proof.
  intros H. unfold check_prefix.
  pose proof (scans_forward_check_prefix_loop char_signed
                (firstn prefix_len prefix) lexer l1 H) as Hloop.
  destruct (check_prefix_loop _ _ _) as [[|] l2]; cbn [snd] in *;
    auto with cursor.
Qed.

Lemma scans_forward_heredoc_marker_loop (room : nat) :
  forall (lexer l1 : TSLexer) (marker : list Z),
    scans_forward lexer l1 ->
    scans_forward lexer (snd (try_lex_heredoc_marker_loop room l1 marker)).
Proof.
  induction room as [|room IH]; intros lexer l1 marker H;
    cbn [try_lex_heredoc_marker_loop]; [exact H|].
  destruct (_ && _); cbn [snd]; auto with cursor.
Qed.

Lemma scans_forward_try_lex_heredoc_marker (iswlower : Z -> bool)
    (s : Scanner) (lexer l1 : TSLexer) :
  scans_forward lexer l1 ->
  scans_forward lexer (snd (try_lex_heredoc_marker iswlower s l1)).
Proof.
  intros H. unfold try_lex_heredoc_marker.
  destruct (iswlower _); [exact H|].
  pose proof (scans_forward_heredoc_marker_loop HEREDOC_MARKER_LEN lexer l1 [] H)
    as Hloop.
  destruct (try_lex_heredoc_marker_loop _ _ _) as [m l2]. cbn [snd] in Hloop.
  destruct (_ || _); exact Hloop.
Qed.

Lemma scans_forward_scan_keyword_loop (iswalpha : Z -> bool) (room : nat) :
  forall (lexer l1 : TSLexer) (keyword : list Z),
    scans_forward lexer l1 ->
    scans_forward lexer (snd (scan_keyword_loop iswalpha room l1 keyword)).
Proof.
  induction room as [|room IH]; intros lexer l1 keyword H;
    cbn [scan_keyword_loop]; [exact H|].
  destruct (iswalpha _); cbn [snd]; auto with cursor.
Qed.

Lemma scans_forward_lex_scope_sid_loop (sid : list Z) :
  forall lexer l1 : TSLexer,
    scans_forward lexer l1 ->
    scans_forward lexer (snd (lex_scope_sid_loop sid l1)).
Proof.
  induction sid as [|c sid IH]; intros lexer l1 H; cbn [lex_scope_sid_loop];
    [exact H|].
  destruct (_ =? 0); [exact H|].
  destruct (negb _); cbn [snd]; auto with cursor.
Qed.

Lemma scans_forward_lex_scope (iswalnum : Z -> bool) (lexer l1 : TSLexer) :
  scans_forward lexer l1 -> scans_forward lexer (snd (lex_scope iswalnum l1)).
Proof.
  intros H. unfold lex_scope.
  destruct (negb (scope_correct l1)); [exact H|].
  destruct (lookahead l1 =? ch "<").
  - pose proof (scans_forward_lex_scope_sid_loop (str "SID>") lexer
                  (advance l1 false) (scans_forward_advance _ _ _ H)) as Hloop.
    destruct (lex_scope_sid_loop _ _) as [[|] l2]; cbn [snd] in *;
      auto with cursor.
  - break_scan; cbn [snd]; auto with cursor.
Qed.

Lemma scans_forward_lex_literal_string_loop (fuel : nat) :
  forall lexer l1 : TSLexer,
    scans_forward lexer l1 ->
    scans_forward lexer (snd (lex_literal_string_loop fuel l1)).
Proof.
  induction fuel as [|fuel IH]; intros lexer l1 H;
    cbn [lex_literal_string_loop]; [exact H|].
  break_scan; cbn [snd]; auto 8 with cursor.
Qed.

Lemma scans_forward_lex_escapable_string_loop (fuel : nat) :
  forall lexer l1 : TSLexer,
    scans_forward lexer l1 ->
    scans_forward lexer (snd (lex_escapable_string_loop fuel l1)).
Proof.
  induction fuel as [|fuel IH]; intros lexer l1 H;
    cbn [lex_escapable_string_loop]; [exact H|].
  break_scan; cbn [snd]; auto 8 with cursor.
Qed.

Lemma scans_forward_lex_string (lexer l1 : TSLexer) :
  scans_forward lexer l1 -> scans_forward lexer (snd (lex_string l1)).
Proof.
  intros H. unfold lex_string, lex_escapable_string, lex_literal_string.
  break_scan; cbn [snd];
    auto using scans_forward_lex_escapable_string_loop,
      scans_forward_lex_literal_string_loop with cursor.
Qed.

#[local] Hint Resolve scans_forward_check_prefix
  scans_forward_try_lex_heredoc_marker scans_forward_lex_scope
  scans_forward_lex_string : cursor.

Lemma scans_forward_scan_newline (char_signed : bool) (s : Scanner)
    (valid_symbols : nat -> bool) (lexer l1 : TSLexer) :
  scans_forward lexer l1 ->
  scans_forward lexer (snd (scan_newline char_signed s l1 valid_symbols)).
Proof.
  intros H. unfold scan_newline.
  set (l2 := skip_space_tabs (mark_end (advance l1 false))).
  assert (H2 : scans_forward lexer l2) by (unfold l2; auto with cursor).
  destruct (lookahead l2 =? CH_BACKSLASH).
  - break_scan; cbn [snd]; auto with cursor.
  - destruct (marker_len s =? 0).
    + pose proof (scans_forward_check_prefix char_signed
                    [CH_DQUOTE; CH_BACKSLASH; ch " "] 3 LINE_CONTINUATION_COMMENT
                    lexer l2 H2) as Hc.
      destruct (check_prefix _ _ _ _ _) as [[|] l3]; cbn [snd] in Hc;
        break_scan; cbn [snd]; auto with cursor.
    + break_scan; cbn [snd]; auto with cursor.
Qed.

Lemma scans_forward_scan_heredoc_end (char_signed : bool) (s : Scanner)
    (lexer l1 : TSLexer) :
  scans_forward lexer l1 ->
  scans_forward lexer (snd (scan_heredoc_end char_signed s l1)).
Proof.
  intros H. unfold scan_heredoc_end.
  match goal with
  | |- context [check_prefix ?cs ?l ?p ?n ?t] =>
      pose proof (scans_forward_check_prefix cs p n t lexer l H) as Hc;
      destruct (check_prefix cs l p n t) as [ok l2]
  end.
  cbn [snd] in Hc. break_scan; cbn [snd]; exact Hc.
Qed.

Lemma scans_forward_scan_keyword (iswalpha : Z -> bool)
    (FUNCTION UNKNOWN_COMMAND : nat) (keywords : nat -> keyword) (s : Scanner)
    (valid_symbols : nat -> bool) (lexer l1 : TSLexer) :
  scans_forward lexer l1 ->
  scans_forward lexer
    (snd (scan_keyword iswalpha FUNCTION UNKNOWN_COMMAND keywords s l1
            valid_symbols)).
Proof.
  intros H. unfold scan_keyword, scan_keyword_match.
  destruct (_ && _); [cbn [snd]; auto with cursor|].
  match goal with
  | |- context [scan_keyword_loop ?f ?r ?l ?k] =>
      pose proof (scans_forward_scan_keyword_loop f r lexer l k
                    (scans_forward_advance _ _ _ H)) as Hc;
      destruct (scan_keyword_loop f r l k) as [kw l2]
  end.
  cbn [snd] in Hc. break_scan; cbn [snd]; auto with cursor.
Qed.

#[local] Hint Resolve scans_forward_scan_newline scans_forward_scan_heredoc_end
  scans_forward_scan_keyword : cursor.

Lemma scans_forward_scan_rules (char_signed : bool)
    (iswlower iswpunct iswalnum iswalpha : Z -> bool)
    (FUNCTION UNKNOWN_COMMAND : nat) (keywords : nat -> keyword)
    (s : Scanner) (lexer : TSLexer) (valid_symbols : nat -> bool) :
  scans_forward lexer
    (snd (snd (scan_rules char_signed iswlower iswpunct iswalnum iswalpha
                 FUNCTION UNKNOWN_COMMAND keywords s lexer valid_symbols))).
Proof.
  unfold scan_rules, scan_pipe, scan_comment.
  set (l1 := skip_space_tabs lexer).
  assert (H1 : scans_forward lexer l1) by (unfold l1; auto with cursor).
  repeat match goal with
  | |- context [if ?b then _ else _] => destruct b
  | |- context [match check_prefix ?cs ?l ?p ?n ?t with pair _ _ => _ end] =>
      let Hc := fresh "Hc" in
      pose proof (scans_forward_check_prefix cs p n t lexer l H1) as Hc;
      destruct (check_prefix cs l p n t) as [? ?]; cbn [snd] in Hc
  | |- context [match lex_scope ?f ?l with pair _ _ => _ end] =>
      let Hc := fresh "Hc" in
      pose proof (scans_forward_lex_scope f lexer l H1) as Hc;
      destruct (lex_scope f l) as [? ?]; cbn [snd] in Hc
  | |- context [match lex_string ?l with pair _ _ => _ end] =>
      let Hc := fresh "Hc" in
      pose proof (scans_forward_lex_string lexer l H1) as Hc;
      destruct (lex_string l) as [? ?]; cbn [snd] in Hc
  end; cbn [snd]; auto with cursor.
Qed.

(** X7. A scan call moves the cursor forward only: the input it leaves is
    the input it got less the characters it consumed, the position grew by
    their number, and the token end it marked, if it marked one, is a
    position between the cursor before the call and the cursor after. *)
Theorem scan_moves_forward (char_signed : bool)
    (iswlower iswpunct iswalnum iswalpha : Z -> bool)
    (FUNCTION UNKNOWN_COMMAND : nat) (keywords : nat -> keyword)
    (s s' : Scanner) (lexer lexer' : TSLexer) (valid_symbols : nat -> bool)
    (ok : bool) :
  tree_sitter_vim_external_scanner_scan char_signed iswlower iswpunct iswalnum
    iswalpha FUNCTION UNKNOWN_COMMAND keywords s lexer valid_symbols
  = Some (ok, s', lexer') ->
  (exists consumed,
     input lexer = consumed ++ input lexer'
     /\ pos lexer' = (pos lexer + length consumed)%nat)
  /\ (token_end lexer' = token_end lexer
      \/ exists e, token_end lexer' = Some e
                   /\ (pos lexer <= e <= pos lexer')%nat).
Proof.
  unfold tree_sitter_vim_external_scanner_scan.
  destruct (negb (valid_symbols LINE_CONTINUATION)); [discriminate|].
  intros [= Hscan].
  pose proof (scans_forward_scan_rules char_signed iswlower iswpunct iswalnum
                iswalpha FUNCTION UNKNOWN_COMMAND keywords s lexer valid_symbols)
    as H.
  rewrite Hscan in H. exact H.
Qed.

Lemma scan_moves_forward_witness :
  (exists consumed,
     CH_NL :: str "  \ x" = consumed ++ str " x"
     /\ 4%nat = (0 + length consumed)%nat)
  /\ (Some 4%nat = None
      \/ exists e, Some 4%nat = Some e /\ (0 <= e <= 4)%nat).
Proof.
  apply (scan_moves_forward true CLocale.iswlower CLocale.iswpunct
           CLocale.iswalnum CLocale.iswalpha Sample.FUNCTION
           Sample.UNKNOWN_COMMAND Sample.keywords Sample.busy Sample.busy
           (lexer_on (CH_NL :: str "  \ x"))
           (mkLexer (str " x") 4 3 (Some 4%nat) LINE_CONTINUATION)
           (Sample.accept [LINE_CONTINUATION]) true).
  reflexivity.
Defined.

(** ** Blanks and fixed prefixes *)

Lemma skip_space_tabs_loop_blanks (fuel : nat) :
  forall lexer : TSLexer,
    (length (input lexer) <= fuel)%nat ->
    exists blanks,
      forallb IS_SPACE_TABS blanks = true
      /\ input lexer = blanks ++ input (skip_space_tabs_loop fuel lexer)
      /\ pos (skip_space_tabs_loop fuel lexer) = (pos lexer + length blanks)%nat
      /\ IS_SPACE_TABS (lookahead (skip_space_tabs_loop fuel lexer)) = false
      /\ token_end (skip_space_tabs_loop fuel lexer) = token_end lexer
      /\ result_symbol (skip_space_tabs_loop fuel lexer) = result_symbol lexer.
Proof.
  induction fuel as [|fuel IH]; intros lexer Hlen.
  - exists []. cbn [skip_space_tabs_loop forallb app length].
    rewrite (lookahead_at_end lexer Hlen). repeat split. lia.
  - cbn [skip_space_tabs_loop].
    destruct (IS_SPACE_TABS (lookahead lexer)) eqn:Hb.
    + destruct lexer as [inp p ts te r]. destruct inp as [|c rest];
        [discriminate Hb|].
      rewrite lookahead_cons in Hb. rewrite advance_cons.
      destruct (IH (mkLexer rest (S p) (S p) te r)) as (blanks & Hall & Hin & Hp & Hla & He & Hr).
      { cbn [input length] in *. lia. }
      exists (c :: blanks). cbn [forallb app length input pos] in *.
      rewrite Hb, Hall, Hp. repeat split; try assumption; try (f_equal; assumption).
      lia.
    + exists []. cbn [forallb app length]. repeat split; try assumption. lia.
Qed.

(** X8. [skip_space_tabs] consumes exactly the leading run of spaces and
    tabs: what it drops is blank, the character it stops at is not, and it
    touches neither the marked token end nor the result symbol. *)
Theorem skip_space_tabs_skips_blanks (lexer : TSLexer) :
  exists blanks,
    forallb IS_SPACE_TABS blanks = true
    /\ input lexer = blanks ++ input (skip_space_tabs lexer)
    /\ pos (skip_space_tabs lexer) = (pos lexer + length blanks)%nat
    /\ IS_SPACE_TABS (lookahead (skip_space_tabs lexer)) = false
    /\ token_end (skip_space_tabs lexer) = token_end lexer
    /\ result_symbol (skip_space_tabs lexer) = result_symbol lexer.
Proof. apply skip_space_tabs_loop_blanks. lia. Qed.

Lemma advance_n_succ (n : nat) (lexer : TSLexer) :
  advance_n (S n) lexer = advance_n n (advance lexer false).
Proof. unfold advance_n. now rewrite Nat.iter_succ_r. Qed.

(** The loop of [check_prefix] over a prefix without a nul. *)
Lemma check_prefix_loop_match (char_signed : bool) (prefix : list Z) :
  Forall (fun c => char_to_int char_signed c <> 0) prefix ->
  forall lexer : TSLexer,
    (fst (check_prefix_loop char_signed lexer prefix) = true
     <-> firstn (length prefix) (input lexer)
         = map (char_to_int char_signed) prefix)
    /\ (fst (check_prefix_loop char_signed lexer prefix) = true ->
        snd (check_prefix_loop char_signed lexer prefix)
        = advance_n (length prefix) lexer).
Proof.
  induction 1 as [|c prefix Hc _ IH]; intros lexer.
  - cbn. repeat split.
  - cbn [check_prefix_loop length map]. rewrite advance_n_succ.
    destruct lexer as [inp p ts te r]. destruct inp as [|a rest].
    + unfold lookahead. cbn [input hd firstn].
      destruct (0 =? char_to_int char_signed c) eqn:E.
      * apply Z.eqb_eq in E. congruence.
      * cbn [fst]. repeat split; discriminate.
    + rewrite lookahead_cons. cbn [input firstn].
      destruct (a =? char_to_int char_signed c) eqn:E.
      * apply Z.eqb_eq in E. subst a. rewrite advance_cons.
        destruct (IH (mkLexer rest (S p) ts te r)) as [Hiff Hsnd].
        cbn [input] in Hiff. split; [|exact Hsnd].
        rewrite Hiff. split; [intros ->; reflexivity | intros [= H]; exact H].
      * apply Z.eqb_neq in E. cbn [fst]. split; [|discriminate].
        split; [discriminate | intros [= H _]; congruence].
Qed.



(** ** Heredoc markers *)

Lemma strncpy_nonzero (l : list Z) :
  Forall (fun c => c <> 0) l -> strncpy l (length l) = l.
Proof.
  induction 1 as [|c l Hc _ IH]; [reflexivity|].
  cbn [length strncpy]. apply Z.eqb_neq in Hc. rewrite Hc. now rewrite IH.
Qed.

Lemma try_lex_heredoc_marker_loop_run (rest : list Z) :
  marker_char (hd 0 rest) = false ->
  forall (room : nat) (run : list Z) (p ts : nat) (te : option nat) (r : nat)
         (marker : list Z),
    forallb marker_char run = true ->
    try_lex_heredoc_marker_loop room (mkLexer (run ++ rest) p ts te r) marker
    = (marker ++ map to_char (firstn room run),
       mkLexer (skipn room run ++ rest) (p + Nat.min room (length run)) ts te r).
Proof.
  intros Hrest. induction room as [|room IH]; intros run p ts te r marker Hrun.
  - cbn. now rewrite app_nil_r, Nat.add_0_r.
  - destruct run as [|a run].
    + cbn [try_lex_heredoc_marker_loop app firstn skipn map length Nat.min].
      unfold lookahead. cbn [input]. fold (marker_char (hd 0 rest)).
      rewrite Hrest. now rewrite app_nil_r, Nat.add_0_r.
    + cbn [forallb] in Hrun. apply andb_true_iff in Hrun as [Ha Hrun].
      cbn [try_lex_heredoc_marker_loop app]. rewrite lookahead_cons.
      fold (marker_char a). rewrite Ha, advance_cons, IH by assumption.
      cbn [firstn skipn map length Nat.min]. rewrite <- app_assoc.
      cbn [app]. f_equal. f_equal. lia.
Qed.

(** What a capture that succeeds leaves. *)
Lemma try_lex_heredoc_marker_run (iswlower : Z -> bool) (s : Scanner)
    (run rest : list Z) (p ts : nat) (te : option nat) (r : nat) :
  run <> [] -> (length run < HEREDOC_MARKER_LEN)%nat ->
  forallb marker_char run = true ->
  marker_char (hd 0 rest) = false ->
  iswlower (hd 0 run) = false ->
  length (heredoc_marker s) = HEREDOC_MARKER_LEN ->
  try_lex_heredoc_marker iswlower s (mkLexer (run ++ rest) p ts te r)
  = (true,
     mkScanner (separator s) (ignore_comments s) (Z.of_nat (length run))
       (strncpy (map to_char run) (length run)
        ++ repeat 0 (HEREDOC_MARKER_LEN - length run)),
     mkLexer rest (p + length run) ts te r).
Proof.
  intros Hne Hlen Hrun Hrest Hlow Hbuf. unfold try_lex_heredoc_marker.
  assert (Hla : lookahead (mkLexer (run ++ rest) p ts te r) = hd 0 run).
  { destruct run; [congruence | reflexivity]. }
  rewrite Hla, Hlow.
  rewrite (try_lex_heredoc_marker_loop_run rest Hrest) by assumption.
  rewrite firstn_all2, skipn_all2, Nat.min_r by lia.
  cbn [app]. rewrite length_map.
  replace (length run =? HEREDOC_MARKER_LEN)%nat with false
    by (symmetry; apply Nat.eqb_neq; lia).
  replace (length run =? 0)%nat with false
    by (symmetry; apply Nat.eqb_neq; destruct run; [congruence | cbn; lia]).
  cbn [orb]. unfold set_heredoc_marker, set_marker_len.
  cbn [separator ignore_comments marker_len heredoc_marker].
  rewrite captured_buffer by (assumption || lia).
  replace (to_uint8 (Z.of_nat (length run))) with (Z.of_nat (length run)).
  - reflexivity.
  - unfold to_uint8. symmetry. apply Z.mod_small.
    unfold HEREDOC_MARKER_LEN in Hlen. lia.
Qed.

(** X10. Heredoc marker capture on a run of 1 to 31 characters that does
    not begin with a lowercase letter and ends at a blank, a newline or the
    end of input: the capture succeeds, consumes the run and nothing more,
    stores its length and its characters (as [char]s, nul-filled up to the
    capacity), and leaves the separator and the flag alone.  When no
    character of the run truncates to nul, the stored marker is the run. *)
Theorem try_lex_heredoc_marker_captures (iswlower : Z -> bool) (s : Scanner)
    (lexer : TSLexer) (run rest : list Z) :
  input lexer = run ++ rest ->
  run <> [] -> (length run < 32)%nat ->
  forallb marker_char run = true ->
  marker_char (hd 0 rest) = false ->
  iswlower (hd 0 run) = false ->
  length (heredoc_marker s) = 32%nat ->
  exists s',
    try_lex_heredoc_marker iswlower s lexer
    = (true, s', advance_n (length run) lexer)
    /\ separator s' = separator s
    /\ ignore_comments s' = ignore_comments s
    /\ marker_len s' = Z.of_nat (length run)
    /\ heredoc_marker s'
       = strncpy (map to_char run) (length run) ++ repeat 0 (32 - length run)
    /\ (Forall (fun c => to_char c <> 0) run -> marker s' = map to_char run).
Proof.
  intros Hin Hne Hlen Hrun Hrest Hlow Hbuf.
  destruct lexer as [inp p ts te r]. cbn [input] in Hin. subst inp.
  rewrite advance_n_app.
  rewrite (try_lex_heredoc_marker_run iswlower s run rest p ts te r)
    by assumption.
  eexists. split; [reflexivity|].
  cbn [separator ignore_comments marker_len heredoc_marker].
  repeat split. intros Hnz. unfold marker.
  cbn [marker_len heredoc_marker]. rewrite Nat2Z.id.
  rewrite firstn_app, strncpy_length, Nat.sub_diag. cbn [firstn].
  rewrite app_nil_r, firstn_all2 by (rewrite strncpy_length; lia).
  rewrite <- (length_map to_char run). apply strncpy_nonzero.
  apply Forall_map. exact Hnz.
Qed.

Lemma try_lex_heredoc_marker_captures_witness :
  exists s',
    try_lex_heredoc_marker CLocale.iswlower
      tree_sitter_vim_external_scanner_create (lexer_on (str "END trim"))
    = (true, s', advance_n 3 (lexer_on (str "END trim")))
    /\ separator s' = 0
    /\ ignore_comments s' = false
    /\ marker_len s' = 3
    /\ heredoc_marker s' = str "END" ++ repeat 0 29
    /\ (Forall (fun c => to_char c <> 0) (str "END") -> marker s' = str "END").
Proof.
  apply (try_lex_heredoc_marker_captures CLocale.iswlower
           tree_sitter_vim_external_scanner_create (lexer_on (str "END trim"))
           (str "END") (str " trim")).
  - reflexivity.
  - discriminate.
  - cbn. lia.
  - reflexivity.
  - reflexivity.
  - reflexivity.
  - reflexivity.
Defined.

Lemma terminator_prefix (s : Scanner) :
  firstn
    (Z.to_nat (if negb (marker_len s =? 0) then marker_len s else 1))
    (if negb (marker_len s =? 0) then heredoc_marker s else str ".")
  = terminator s.
Proof.
  unfold terminator, marker. destruct (marker_len s =? 0); reflexivity.
Qed.

(** What the terminator match does on a terminator without a nul. *)
Lemma scan_heredoc_end_match (char_signed : bool) (s : Scanner) (lexer : TSLexer) :
  Forall (fun c => char_to_int char_signed c <> 0) (terminator s) ->
  length (heredoc_marker s) = HEREDOC_MARKER_LEN ->
  (fst (fst (scan_heredoc_end char_signed s lexer)) = true
   <-> exists rest,
         input lexer = map (char_to_int char_signed) (terminator s) ++ rest
         /\ is_line_end (hd 0 rest) = true)
  /\ (fst (fst (scan_heredoc_end char_signed s lexer)) = true ->
      scan_heredoc_end char_signed s lexer
      = (true,
         mkScanner (separator s) (ignore_comments s) 0
           (repeat 0 HEREDOC_MARKER_LEN),
         set_result_symbol (advance_n (length (terminator s)) lexer) HEREDOC_END)).
Proof.
  intros Hnz Hbuf.
  destruct (check_prefix_loop_match char_signed _ Hnz lexer) as [Hiff Hsnd].
  unfold scan_heredoc_end, check_prefix. rewrite terminator_prefix.
  destruct (check_prefix_loop char_signed lexer (terminator s)) as [[|] l1];
    cbn [fst snd negb] in *.
  - specialize (Hsnd eq_refl). subst l1.
    assert (Hstart : firstn (length (terminator s)) (input lexer)
                     = map (char_to_int char_signed) (terminator s))
      by (now apply Hiff).
    assert (Hsplit : input lexer
                     = map (char_to_int char_signed) (terminator s)
                       ++ skipn (length (terminator s)) (input lexer))
      by (rewrite <- Hstart; symmetry; apply firstn_skipn).
    assert (Hla : lookahead
                    (set_result_symbol
                       (advance_n (length (terminator s)) lexer) HEREDOC_END)
                  = hd 0 (skipn (length (terminator s)) (input lexer))).
    { destruct lexer as [inp p ts te r]. cbn [input] in Hsplit |- *.
      rewrite Hsplit at 1.
      rewrite <- (length_map (char_to_int char_signed) (terminator s)) at 1.
      rewrite advance_n_app. reflexivity. }
    rewrite Hla.
    set (c := hd 0 (skipn (length (terminator s)) (input lexer))) in *.
    assert (Hend : is_line_end c = negb (negb (c =? 0) && negb (c =? CH_NL))).
    { unfold is_line_end. destruct (c =? 0), (c =? CH_NL); reflexivity. }
    destruct (negb (c =? 0) && negb (c =? CH_NL)) eqn:Hc; cbn [fst snd].
    + split; [|discriminate]. split; [discriminate|].
      intros (rest & Hin & Hrest). exfalso.
      rewrite Hsplit in Hin. apply app_inv_head in Hin.
      unfold c in Hend. rewrite Hin, Hrest in Hend. discriminate Hend.
    + split.
      * split; [|reflexivity]. intros _. eexists. split; [exact Hsplit|].
        fold c. rewrite Hend. reflexivity.
      * intros _. unfold set_marker_len, set_heredoc_marker, memset, store.
        cbn [separator ignore_comments marker_len heredoc_marker firstn app
             Nat.add].
        rewrite repeat_length, skipn_all2, app_nil_r by lia. reflexivity.
  - split; [|discriminate]. split; [discriminate|].
    intros (rest & Hin & _). exfalso.
    assert (Hfalse : false = true); [|discriminate Hfalse].
    apply Hiff. rewrite Hin.
    rewrite <- (length_map (char_to_int char_signed) (terminator s)).
    rewrite firstn_app, Nat.sub_diag, firstn_all. cbn [firstn].
    apply app_nil_r.
Qed.









(** A marker taken through a character that is nul as a [char]: the line
    [A], U+0100, [B] stores the marker length 3 and the text [A]; no line
    with these characters closes the heredoc, the line [A] at the end of
    input does. *)
Lemma truncated_marker_closes_at_end_of_input :
  try_lex_heredoc_marker CLocale.iswlower tree_sitter_vim_external_scanner_create
    (lexer_on [65; 256; 66; CH_NL])
  = (true, mkScanner 0 false 3 (65 :: repeat 0 31), mkLexer [CH_NL] 3 0 None 0)
  /\ fst (fst (scan_heredoc_end true (mkScanner 0 false 3 (65 :: repeat 0 31))
                 (lexer_on [65; 256; 66; CH_NL]))) = false
  /\ fst (fst (scan_heredoc_end true (mkScanner 0 false 3 (65 :: repeat 0 31))
                 (lexer_on [65]))) = true.
Proof. repeat split. Qed.

Lemma ascii_is_char (char_signed : bool) (c : Z) :
  0 < c < 128 -> to_char c = c /\ char_to_int char_signed c = c.
Proof.
  intros H. split; [apply Z.mod_small; lia | apply char_to_int_ascii; lia].
Qed.

(** X12. Capture and terminator fit together: after the capture of an ASCII
    marker, the terminator match on a later line that holds the same
    characters and then ends succeeds and closes the heredoc, with the
    separator and the flag as they were before the capture. *)
Theorem heredoc_capture_then_terminator (char_signed : bool)
    (iswlower : Z -> bool) (s : Scanner) (lexer later : TSLexer)
    (run rest rest' : list Z) :
  input lexer = run ++ rest ->
  run <> [] -> (length run < 32)%nat ->
  forallb marker_char run = true ->
  Forall (fun c => 0 < c < 128) run ->
  marker_char (hd 0 rest) = false ->
  iswlower (hd 0 run) = false ->
  length (heredoc_marker s) = 32%nat ->
  input later = run ++ rest' ->
  is_line_end (hd 0 rest') = true ->
  exists s1 lexer1,
    try_lex_heredoc_marker iswlower s lexer = (true, s1, lexer1)
    /\ marker s1 = run
    /\ scan_heredoc_end char_signed s1 later
       = (true,
          mkScanner (separator s) (ignore_comments s) 0 (repeat 0 32),
          set_result_symbol (advance_n (length run) later) HEREDOC_END).
Proof.
  intros Hin Hne Hlen Hrun Hascii Hrest Hlow Hbuf Hlater Hend.
  destruct lexer as [inp p ts te r]. cbn [input] in Hin. subst inp.
  rewrite (try_lex_heredoc_marker_run iswlower s run rest p ts te r)
    by assumption.
  assert (Hchars : map to_char run = run).
  { clear -Hascii. induction Hascii as [|c l Hc _ IH]; [reflexivity|].
    cbn [map]. rewrite IH. f_equal. apply (ascii_is_char true c Hc). }
  assert (Hints : map (char_to_int char_signed) run = run).
  { clear -Hascii. induction Hascii as [|c l Hc _ IH]; [reflexivity|].
    cbn [map]. rewrite IH. f_equal. apply (ascii_is_char char_signed c Hc). }
  assert (Hcopy : strncpy (map to_char run) (length run) = run).
  { rewrite Hchars. apply strncpy_nonzero.
    eapply Forall_impl; [|exact Hascii]. cbn. intros; lia. }
  rewrite Hcopy.
  set (s1 := mkScanner (separator s) (ignore_comments s) (Z.of_nat (length run))
               (run ++ repeat 0 (HEREDOC_MARKER_LEN - length run))).
  assert (Hmarker : marker s1 = run).
  { unfold marker, s1. cbn [marker_len heredoc_marker]. rewrite Nat2Z.id.
    rewrite firstn_app, Nat.sub_diag, firstn_all. cbn [firstn]. apply app_nil_r. }
  assert (Hterm : terminator s1 = run).
  { unfold terminator. rewrite Hmarker.
    replace (marker_len s1 =? 0) with false; [reflexivity|].
    symmetry. apply Z.eqb_neq. unfold s1. cbn [marker_len].
    destruct run; [congruence | cbn; lia]. }
  exists s1. eexists. split; [reflexivity|]. split; [exact Hmarker|].
  destruct (scan_heredoc_end_match char_signed s1 later) as [Hiff Hres].
  - rewrite Hterm. eapply Forall_impl; [|exact Hascii].
    cbn. intros c Hc. rewrite (proj2 (ascii_is_char char_signed c Hc)). lia.
  - unfold s1. cbn [heredoc_marker]. rewrite length_app, repeat_length.
    unfold HEREDOC_MARKER_LEN. lia.
  - rewrite Hterm in *. rewrite Hres; [reflexivity|].
    apply Hiff. exists rest'. rewrite Hints. split; assumption.
Qed.

Lemma heredoc_capture_then_terminator_witness :
  exists s1 lexer1,
    try_lex_heredoc_marker CLocale.iswlower Sample.busy (lexer_on (str "END trim"))
    = (true, s1, lexer1)
    /\ marker s1 = str "END"
    /\ scan_heredoc_end true s1 (lexer_on (str "END"))
       = (true, mkScanner (ch "/") true 0 (repeat 0 32),
          set_result_symbol (advance_n 3 (lexer_on (str "END"))) HEREDOC_END).
Proof.
  apply (heredoc_capture_then_terminator true CLocale.iswlower Sample.busy
           (lexer_on (str "END trim")) (lexer_on (str "END"))
           (str "END") (str " trim") []).
  - reflexivity.
  - discriminate.
  - cbn. lia.
  - reflexivity.
  - repeat constructor; cbn; lia.
  - reflexivity.
  - reflexivity.
  - reflexivity.
  - reflexivity.
  - reflexivity.
Defined.

(** ** String literals *)

(** *** One step of the double-quoted form *)

Lemma lex_escapable_string_step (lexer : TSLexer) :
  lex_escapable_string lexer
  = lex_escapable_string_loop (S (S (length (input lexer)))) lexer.
Proof. symmetry. apply lex_escapable_string_total. lia. Qed.

Lemma lex_escapable_string_loop_unfold (fuel : nat) (lexer : TSLexer) :
  lex_escapable_string_loop (S fuel) lexer
  = if lookahead lexer =? CH_BACKSLASH then
      lex_escapable_string_loop fuel (advance (advance lexer false) false)
    else if lookahead lexer =? CH_DQUOTE then
      (true, set_result_symbol (mark_end (advance lexer false)) STRING)
    else if lookahead lexer =? CH_NL then
      if negb (lookahead (skip_space_tabs (advance (mark_end lexer) false))
               =? CH_BACKSLASH)
      then (true,
            set_result_symbol
              (mark_end (skip_space_tabs (advance (mark_end lexer) false)))
              COMMENT)
      else lex_escapable_string_loop fuel
             (skip_space_tabs (advance (mark_end lexer) false))
    else if lookahead lexer =? 0 then (false, lexer)
    else lex_escapable_string_loop fuel (advance lexer false).
Proof. reflexivity. Qed.

Lemma lex_escapable_string_plain (c : Z) (rest : list Z) (p ts : nat)
    (te : option nat) (r : nat) :
  plain_ok c = true ->
  lex_escapable_string (mkLexer (c :: rest) p ts te r)
  = lex_escapable_string (mkLexer rest (S p) ts te r).
Proof.
  intros Hc. unfold plain_ok in Hc.
  apply andb_true_iff in Hc as [Hc H0]. apply andb_true_iff in Hc as [Hc Hn].
  apply andb_true_iff in Hc as [Hb Hq]. apply negb_true_iff in H0, Hn, Hb, Hq.
  unfold lex_escapable_string at 1. cbn [input length].
  rewrite lex_escapable_string_loop_unfold.
  rewrite lookahead_cons, Hb, Hq, Hn, H0, advance_cons. reflexivity.
Qed.

Lemma lex_escapable_string_escape (c : Z) (rest : list Z) (p ts : nat)
    (te : option nat) (r : nat) :
  lex_escapable_string (mkLexer (CH_BACKSLASH :: c :: rest) p ts te r)
  = lex_escapable_string (mkLexer rest (S (S p)) ts te r).
Proof.
  unfold lex_escapable_string at 1. cbn [input length].
  rewrite lex_escapable_string_loop_unfold.
  rewrite lookahead_cons. cbn [CH_BACKSLASH Z.eqb Pos.eqb].
  rewrite !advance_cons. apply lex_escapable_string_total. cbn [input]. lia.
Qed.

Lemma lex_escapable_string_continue (indent rest : list Z) (p ts : nat)
    (te : option nat) (r : nat) :
  forallb IS_SPACE_TABS indent = true ->
  exists ts',
    lex_escapable_string
      (mkLexer (CH_NL :: indent ++ CH_BACKSLASH :: rest) p ts te r)
    = lex_escapable_string
        (mkLexer (CH_BACKSLASH :: rest) (S p + length indent) ts' (Some p) r).
Proof.
  intros Hind.
  destruct (skip_space_tabs_indent indent (CH_BACKSLASH :: rest) Hind eq_refl
              (S p) ts (Some p) r) as [ts' Hskip].
  exists ts'. unfold lex_escapable_string at 1.
  rewrite lex_escapable_string_loop_unfold.
  rewrite lookahead_cons. cbn [CH_NL CH_BACKSLASH CH_DQUOTE Z.eqb Pos.eqb].
  rewrite mark_end_mk, advance_cons, Hskip, lookahead_cons.
  cbn [Z.eqb Pos.eqb negb].
  apply lex_escapable_string_total. cbn [input length].
  rewrite length_app. cbn [length]. lia.
Qed.

Lemma lex_escapable_string_close (rest : list Z) (p ts : nat) (te : option nat)
    (r : nat) :
  lex_escapable_string (mkLexer (CH_DQUOTE :: rest) p ts te r)
  = (true, mkLexer rest (S p) ts (Some (S p)) STRING).
Proof. reflexivity. Qed.

Lemma lex_escapable_string_pieces (rest : list Z) (ps : list string_piece) :
  forallb piece_ok ps = true ->
  forall (p ts : nat) (te : option nat) (r : nat),
  exists ts' te',
    lex_escapable_string (mkLexer (pieces_chars ps ++ rest) p ts te r)
    = lex_escapable_string
        (mkLexer rest (p + length (pieces_chars ps)) ts' te' r).
Proof.
  induction ps as [|piece ps IH]; intros Hok p ts te r.
  - exists ts, te. cbn. now rewrite Nat.add_0_r.
  - cbn [forallb] in Hok. apply andb_true_iff in Hok as [Hpiece Hok].
    specialize (IH Hok). unfold pieces_chars in *. cbn [flat_map].
    rewrite <- app_assoc, length_app.
    destruct piece as [[c|c]|indent c]; cbn [piece_chars unit_chars app length].
    + rewrite lex_escapable_string_plain by exact Hpiece.
      destruct (IH (S p) ts te r) as (ts' & te' & ->).
      exists ts', te'. do 2 f_equal. lia.
    + rewrite lex_escapable_string_escape.
      destruct (IH (S (S p)) ts te r) as (ts' & te' & ->).
      exists ts', te'. do 2 f_equal. lia.
    + rewrite <- app_assoc. cbn [app].
      destruct (lex_escapable_string_continue indent
                  (c :: flat_map piece_chars ps ++ rest) p ts te r Hpiece)
        as [ts1 ->].
      rewrite lex_escapable_string_escape.
      destruct (IH (S (S (S p + length indent))) ts1 (Some p) r)
        as (ts' & te' & ->).
      exists ts', te'. do 2 f_equal. rewrite length_app. cbn [length]. lia.
Qed.

(** X13. A double-quoted string that is closed: after the opening quote,
    plain characters, escapes (a backslash and any character, a quote
    included) and line breaks that go on with a backslash after the
    indentation, then a closing quote.  The string lexer emits STRING, has
    consumed up to the closing quote and no further, and marks the token
    end right after it. *)
Theorem lex_string_double_quoted (lexer : TSLexer) (ps : list string_piece)
    (rest : list Z) :
  input lexer = CH_DQUOTE :: pieces_chars ps ++ CH_DQUOTE :: rest ->
  forallb piece_ok ps = true ->
  exists lexer',
    lex_string lexer = (true, lexer')
    /\ result_symbol lexer' = STRING
    /\ input lexer' = rest
    /\ pos lexer' = (pos lexer + length (pieces_chars ps) + 2)%nat
    /\ token_end lexer' = Some (pos lexer').
Proof.
  intros Hin Hok. destruct lexer as [inp p ts te r]. cbn [input pos] in *.
  subst inp. unfold lex_string. rewrite lookahead_cons.
  change (to_char CH_DQUOTE) with CH_DQUOTE.
  cbn [is_valid_string_delim CH_DQUOTE CH_SQUOTE Z.eqb Pos.eqb orb negb].
  rewrite advance_cons.
  destruct (lex_escapable_string_pieces (CH_DQUOTE :: rest) ps Hok (S p) ts te r)
    as (ts' & te' & ->).
  rewrite lex_escapable_string_close. eexists. split; [reflexivity|].
  cbn [input pos token_end result_symbol]. repeat split; try (f_equal; lia); lia.
Qed.

Lemma lex_string_double_quoted_witness :
  exists lexer',
    lex_string
      (lexer_on (CH_DQUOTE :: (str "a\" ++ [CH_DQUOTE; CH_NL] ++ str "  \ b")
                   ++ CH_DQUOTE :: str " x"))
    = (true, lexer')
    /\ result_symbol lexer' = STRING
    /\ input lexer' = str " x"
    /\ pos lexer' = (0 + 9 + 2)%nat
    /\ token_end lexer' = Some (pos lexer').
Proof.
  apply (lex_string_double_quoted
           (lexer_on (CH_DQUOTE :: (str "a\" ++ [CH_DQUOTE; CH_NL] ++ str "  \ b")
                        ++ CH_DQUOTE :: str " x"))
           [Unit (Plain (ch "a")); Unit (Escape CH_DQUOTE);
            Continuation (str "  ") (ch " "); Unit (Plain (ch "b"))]
           (str " x")).
  - reflexivity.
  - reflexivity.
Defined.



(** *** The single-quoted form *)

Lemma lex_literal_string_loop_unfold (fuel : nat) (lexer : TSLexer) :
  lex_literal_string_loop (S fuel) lexer
  = if lookahead lexer =? CH_SQUOTE then
      if lookahead (advance lexer false) =? CH_SQUOTE
      then lex_literal_string_loop fuel (advance (advance lexer false) false)
      else (true, mark_end (set_result_symbol (advance lexer false) STRING))
    else if lookahead lexer =? CH_NL then
      if negb (lookahead (skip_space_tabs (advance (mark_end lexer) true))
               =? CH_BACKSLASH)
      then (false, skip_space_tabs (advance (mark_end lexer) true))
      else lex_literal_string_loop fuel
             (skip_space_tabs (advance (mark_end lexer) true))
    else if lookahead lexer =? 0 then (false, lexer)
    else lex_literal_string_loop fuel (advance lexer false).
Proof. reflexivity. Qed.

Lemma lex_literal_string_plain (c : Z) (rest : list Z) (p ts : nat)
    (te : option nat) (r : nat) :
  literal_ok (Literal c) = true ->
  lex_literal_string (mkLexer (c :: rest) p ts te r)
  = lex_literal_string (mkLexer rest (S p) ts te r).
Proof.
  intros Hc. cbn [literal_ok] in Hc.
  apply andb_true_iff in Hc as [Hc H0]. apply andb_true_iff in Hc as [Hq Hn].
  apply negb_true_iff in H0, Hn, Hq.
  unfold lex_literal_string at 1. cbn [input length].
  rewrite lex_literal_string_loop_unfold.
  rewrite lookahead_cons, Hq, Hn, H0, advance_cons. reflexivity.
Qed.

Lemma lex_literal_string_doubled (rest : list Z) (p ts : nat) (te : option nat)
    (r : nat) :
  lex_literal_string (mkLexer (CH_SQUOTE :: CH_SQUOTE :: rest) p ts te r)
  = lex_literal_string (mkLexer rest (S (S p)) ts te r).
Proof.
  unfold lex_literal_string at 1. cbn [input length].
  rewrite lex_literal_string_loop_unfold.
  rewrite lookahead_cons, advance_cons, lookahead_cons, advance_cons.
  cbn [CH_SQUOTE Z.eqb Pos.eqb].
  apply lex_literal_string_total. cbn [input]. lia.
Qed.

Lemma lex_literal_string_continue (indent rest : list Z) (p ts : nat)
    (te : option nat) (r : nat) :
  forallb IS_SPACE_TABS indent = true ->
  exists ts',
    lex_literal_string
      (mkLexer (CH_NL :: indent ++ CH_BACKSLASH :: rest) p ts te r)
    = lex_literal_string
        (mkLexer rest (S (S p + length indent)) ts' (Some p) r).
Proof.
  intros Hind.
  destruct (skip_space_tabs_indent indent (CH_BACKSLASH :: rest) Hind eq_refl
              (S p) (S p) (Some p) r) as [ts' Hskip].
  exists ts'. unfold lex_literal_string at 1.
  rewrite lex_literal_string_loop_unfold.
  rewrite lookahead_cons. cbn [CH_NL CH_SQUOTE Z.eqb Pos.eqb].
  rewrite mark_end_mk, advance_cons, Hskip, lookahead_cons.
  cbn [CH_BACKSLASH Z.eqb Pos.eqb negb].
  rewrite <- (lex_literal_string_plain CH_BACKSLASH) by reflexivity.
  apply lex_literal_string_total. cbn [input length].
  rewrite length_app. cbn [length]. lia.
Qed.

Lemma lex_literal_string_close (rest : list Z) (p ts : nat) (te : option nat)
    (r : nat) :
  hd 0 rest <> CH_SQUOTE ->
  lex_literal_string (mkLexer (CH_SQUOTE :: rest) p ts te r)
  = (true, mkLexer rest (S p) ts (Some (S p)) STRING).
Proof.
  intros Hq. unfold lex_literal_string. cbn [input length].
  rewrite lex_literal_string_loop_unfold.
  rewrite lookahead_cons, advance_cons, Z.eqb_refl.
  replace (lookahead (mkLexer rest (S p) ts te r) =? CH_SQUOTE) with false
    by (symmetry; apply Z.eqb_neq; exact Hq).
  reflexivity.
Qed.

Lemma lex_literal_string_break (indent rest : list Z) (p ts : nat)
    (te : option nat) (r : nat) :
  forallb IS_SPACE_TABS indent = true ->
  IS_SPACE_TABS (hd 0 rest) = false ->
  hd 0 rest <> CH_BACKSLASH ->
  fst (lex_literal_string (mkLexer (CH_NL :: indent ++ rest) p ts te r)) = false.
Proof.
  intros Hind Hrest Hbs.
  destruct (skip_space_tabs_indent indent rest Hind Hrest (S p) (S p) (Some p) r)
    as [ts' Hskip].
  unfold lex_literal_string. rewrite lex_literal_string_loop_unfold.
  rewrite lookahead_cons. cbn [CH_NL CH_SQUOTE Z.eqb Pos.eqb].
  rewrite mark_end_mk, advance_cons, Hskip.
  unfold lookahead. cbn [input]. apply Z.eqb_neq in Hbs. rewrite Hbs.
  reflexivity.
Qed.

Lemma lex_literal_string_pieces (rest : list Z) (ps : list literal_piece) :
  forallb literal_ok ps = true ->
  forall (p ts : nat) (te : option nat) (r : nat),
  exists ts' te',
    lex_literal_string (mkLexer (literals_chars ps ++ rest) p ts te r)
    = lex_literal_string
        (mkLexer rest (p + length (literals_chars ps)) ts' te' r).
Proof.
  induction ps as [|piece ps IH]; intros Hok p ts te r.
  - exists ts, te. cbn. now rewrite Nat.add_0_r.
  - cbn [forallb] in Hok. apply andb_true_iff in Hok as [Hpiece Hok].
    specialize (IH Hok). unfold literals_chars in *. cbn [flat_map].
    rewrite <- app_assoc, length_app.
    destruct piece as [c| |indent]; cbn [literal_chars app length].
    + rewrite lex_literal_string_plain by exact Hpiece.
      destruct (IH (S p) ts te r) as (ts' & te' & ->).
      exists ts', te'. do 2 f_equal. lia.
    + rewrite lex_literal_string_doubled.
      destruct (IH (S (S p)) ts te r) as (ts' & te' & ->).
      exists ts', te'. do 2 f_equal. lia.
    + rewrite <- app_assoc. cbn [app].
      destruct (lex_literal_string_continue indent
                  (flat_map literal_chars ps ++ rest) p ts te r Hpiece)
        as [ts1 ->].
      destruct (IH (S (S p + length indent)) ts1 (Some p) r)
        as (ts' & te' & ->).
      exists ts', te'. do 2 f_equal. rewrite length_app. cbn [length]. lia.
Qed.

Lemma lex_string_single_quote (rest : list Z) (p ts : nat) (te : option nat)
    (r : nat) :
  lex_string (mkLexer (CH_SQUOTE :: rest) p ts te r)
  = lex_literal_string (mkLexer rest (S p) ts te r).
Proof. reflexivity. Qed.

(** X15. A single-quoted string that is closed: after the opening quote,
    characters, doubled quotes and line breaks that go on with a backslash,
    then a quote that no quote follows.  The string lexer emits STRING, has
    consumed up to the closing quote and no further, and marks the token
    end right after it; a doubled quote does not end the string. *)
Theorem lex_string_single_quoted (lexer : TSLexer) (ps : list literal_piece)
    (rest : list Z) :
  input lexer = CH_SQUOTE :: literals_chars ps ++ CH_SQUOTE :: rest ->
  forallb literal_ok ps = true ->
  hd 0 rest <> CH_SQUOTE ->
  exists lexer',
    lex_string lexer = (true, lexer')
    /\ result_symbol lexer' = STRING
    /\ input lexer' = rest
    /\ pos lexer' = (pos lexer + length (literals_chars ps) + 2)%nat
    /\ token_end lexer' = Some (pos lexer').
Proof.
  intros Hin Hok Hrest. destruct lexer as [inp p ts te r]. cbn [input pos] in *.
  subst inp. rewrite lex_string_single_quote.
  destruct (lex_literal_string_pieces (CH_SQUOTE :: rest) ps Hok (S p) ts te r)
    as (ts' & te' & ->).
  rewrite lex_literal_string_close by exact Hrest.
  eexists. split; [reflexivity|].
  cbn [input pos token_end result_symbol]. repeat split; try (f_equal; lia); lia.
Qed.

Lemma lex_string_single_quoted_witness :
  exists lexer',
    lex_string (lexer_on (CH_SQUOTE :: (str "ab" ++ [CH_SQUOTE; CH_SQUOTE] ++ str "cd")
                            ++ CH_SQUOTE :: str " x"))
    = (true, lexer')
    /\ result_symbol lexer' = STRING
    /\ input lexer' = str " x"
    /\ pos lexer' = (0 + 6 + 2)%nat
    /\ token_end lexer' = Some (pos lexer').
Proof.
  apply (lex_string_single_quoted
           (lexer_on (CH_SQUOTE :: (str "ab" ++ [CH_SQUOTE; CH_SQUOTE] ++ str "cd")
                        ++ CH_SQUOTE :: str " x"))
           [Literal (ch "a"); Literal (ch "b"); Doubled; Literal (ch "c");
            Literal (ch "d")]
           (str " x")).
  - reflexivity.
  - reflexivity.
  - discriminate.
Defined.

(** X16. A single-quoted string that is not closed on its line is a hard
    failure: at the end of input, and at a newline whose next line does not
    begin, after its indentation, with a backslash.  The single-quoted form
    has no fallback to a comment. *)
Theorem unclosed_single_quoted_fails (lexer : TSLexer)
    (ps : list literal_piece) (tail : list Z) :
  input lexer = CH_SQUOTE :: literals_chars ps ++ tail ->
  forallb literal_ok ps = true ->
  tail = []
  \/ (exists indent rest,
        tail = CH_NL :: indent ++ rest
        /\ forallb IS_SPACE_TABS indent = true
        /\ IS_SPACE_TABS (hd 0 rest) = false
        /\ hd 0 rest <> CH_BACKSLASH) ->
  fst (lex_string lexer) = false.
Proof.
  intros Hin Hok Htail. destruct lexer as [inp p ts te r]. cbn [input] in Hin.
  subst inp. rewrite lex_string_single_quote.
  destruct (lex_literal_string_pieces tail ps Hok (S p) ts te r)
    as (ts' & te' & ->).
  destruct Htail as [-> | (indent & rest & -> & Hind & Hrest & Hbs)].
  - reflexivity.
  - now apply lex_literal_string_break.
Qed.

Lemma unclosed_single_quoted_fails_witness :
  fst (lex_string (lexer_on (CH_SQUOTE :: str "abc" ++ CH_NL :: str "  next")))
  = false
  /\ fst (lex_string (lexer_on (CH_SQUOTE :: str "abc"))) = false.
Proof.
  split.
  - apply (unclosed_single_quoted_fails
             (lexer_on (CH_SQUOTE :: str "abc" ++ CH_NL :: str "  next"))
             [Literal (ch "a"); Literal (ch "b"); Literal (ch "c")]
             (CH_NL :: str "  next")).
    + reflexivity.
    + reflexivity.
    + right. exists (str "  "), (str "next").
      repeat split; try reflexivity. discriminate.
  - apply (unclosed_single_quoted_fails
             (lexer_on (CH_SQUOTE :: str "abc"))
             [Literal (ch "a"); Literal (ch "b"); Literal (ch "c")] []).
    + reflexivity.
    + reflexivity.
    + left. reflexivity.
Defined.

(** ** Branches of the dispatch *)

(** X17. A paired separator opens and closes: when SEP_FIRST is accepted
    and the lookahead is an ASCII punctuation character, the call consumes
    it, stores it as the separator and sets the suppress-comments flag; a
    later call that accepts SEP (and not SEP_FIRST) on the same character
    consumes it, emits SEP and clears the flag, keeping the separator. *)
Theorem paired_separator_opens_and_closes (char_signed : bool)
    (iswlower iswpunct iswalnum iswalpha : Z -> bool)
    (FUNCTION UNKNOWN_COMMAND : nat) (keywords : nat -> keyword)
    (s : Scanner) (lexer later : TSLexer) (valid_open valid_close : nat -> bool)
    (c : Z) :
  0 < c < 128 ->
  iswpunct c = true ->
  lookahead (skip_space_tabs lexer) = c ->
  valid_open SEP_FIRST = true ->
  lookahead (skip_space_tabs later) = c ->
  valid_close SEP_FIRST = false ->
  valid_close SEP = true ->
  scan_rules char_signed iswlower iswpunct iswalnum iswalpha FUNCTION
    UNKNOWN_COMMAND keywords s lexer valid_open
  = (R_SEP_FIRST,
     (true, mkScanner c true (marker_len s) (heredoc_marker s),
      set_result_symbol (advance (skip_space_tabs lexer) false) SEP_FIRST))
  /\ scan_rules char_signed iswlower iswpunct iswalnum iswalpha FUNCTION
       UNKNOWN_COMMAND keywords
       (mkScanner c true (marker_len s) (heredoc_marker s)) later valid_close
     = (R_SEP,
        (true, mkScanner c false (marker_len s) (heredoc_marker s),
         set_result_symbol (advance (skip_space_tabs later) false) SEP)).
Proof.
  intros Hc Hpunct Hla Hopen Hla' Hnofirst Hclose.
  destruct (ascii_is_char char_signed c Hc) as [Hchar Hint].
  assert (Hnz : (c =? 0) = false) by (apply Z.eqb_neq; lia).
  unfold scan_rules. split.
  - rewrite Hla, Hnz, Hopen, Hpunct. cbn [andb].
    unfold set_separator, set_ignore_comments.
    cbn [separator ignore_comments marker_len heredoc_marker].
    now rewrite Hchar.
  - rewrite Hla', Hnz, Hnofirst, Hclose.
    cbn [andb separator]. rewrite Hint, Z.eqb_refl.
    reflexivity.
Qed.

Lemma paired_separator_opens_and_closes_witness :
  Sample.scan_rules tree_sitter_vim_external_scanner_create
    (lexer_on (str "/pat/")) (Sample.accept [LINE_CONTINUATION; SEP_FIRST])
  = (R_SEP_FIRST,
     (true, mkScanner (ch "/") true 0 (repeat 0 32),
      mkLexer (str "pat/") 1 0 None SEP_FIRST))
  /\ Sample.scan_rules (mkScanner (ch "/") true 0 (repeat 0 32))
       (mkLexer (str "/") 4 0 None 0) (Sample.accept [LINE_CONTINUATION; SEP])
     = (R_SEP,
        (true, mkScanner (ch "/") false 0 (repeat 0 32),
         mkLexer [] 5 0 None SEP)).
Proof.
  apply (paired_separator_opens_and_closes true CLocale.iswlower
           CLocale.iswpunct CLocale.iswalnum CLocale.iswalpha Sample.FUNCTION
           Sample.UNKNOWN_COMMAND Sample.keywords
           tree_sitter_vim_external_scanner_create
           (lexer_on (str "/pat/")) (mkLexer (str "/") 4 0 None 0)
           (Sample.accept [LINE_CONTINUATION; SEP_FIRST])
           (Sample.accept [LINE_CONTINUATION; SEP]) (ch "/")).
  - cbn. lia.
  - reflexivity.
  - reflexivity.
  - reflexivity.
  - reflexivity.
  - reflexivity.
  - reflexivity.
Defined.

(** X18. A pipe is a command separator unless a second pipe follows: with
    CMD_SEPARATOR accepted, the lookahead a pipe and no paired-separator
    rule in the way, the call consumes the pipe and emits CMD_SEPARATOR
    when the next character is not a pipe, and returns no match when it
    is.  The state is untouched either way. *)
Theorem pipe_is_separator_unless_doubled (char_signed : bool)
    (iswlower iswpunct iswalnum iswalpha : Z -> bool)
    (FUNCTION UNKNOWN_COMMAND : nat) (keywords : nat -> keyword)
    (s : Scanner) (lexer : TSLexer) (valid_symbols : nat -> bool) :
  lookahead (skip_space_tabs lexer) = ch "|" ->
  valid_symbols CMD_SEPARATOR = true ->
  paired_separator_applies char_signed iswpunct s (ch "|") valid_symbols = false ->
  scan_rules char_signed iswlower iswpunct iswalnum iswalpha FUNCTION
    UNKNOWN_COMMAND keywords s lexer valid_symbols
  = (R_PIPE,
     if lookahead (advance (skip_space_tabs lexer) false) =? ch "|"
     then (false, s, advance (skip_space_tabs lexer) false)
     else (true, s,
           set_result_symbol (advance (skip_space_tabs lexer) false)
             CMD_SEPARATOR)).
Proof.
  intros Hla Hvalid Hpair. unfold paired_separator_applies in Hpair.
  apply orb_false_iff in Hpair as [Hfirst Hsep].
  unfold scan_rules, scan_pipe. rewrite Hla, Hfirst, Hsep, Hvalid.
  eval_chars. reflexivity.
Qed.

Lemma pipe_is_separator_unless_doubled_witness :
  Sample.scan_rules Sample.busy (lexer_on (str "|| x"))
    (Sample.accept [LINE_CONTINUATION; CMD_SEPARATOR])
  = (R_PIPE, (false, Sample.busy, mkLexer (str "| x") 1 0 None 0))
  /\ Sample.scan_rules Sample.busy (lexer_on (str "| x"))
       (Sample.accept [LINE_CONTINUATION; CMD_SEPARATOR])
     = (R_PIPE, (true, Sample.busy, mkLexer (str " x") 1 0 None CMD_SEPARATOR)).
Proof.
  split.
  - apply (pipe_is_separator_unless_doubled true CLocale.iswlower
             CLocale.iswpunct CLocale.iswalnum CLocale.iswalpha Sample.FUNCTION
             Sample.UNKNOWN_COMMAND Sample.keywords Sample.busy
             (lexer_on (str "|| x"))
             (Sample.accept [LINE_CONTINUATION; CMD_SEPARATOR]));
      reflexivity.
  - apply (pipe_is_separator_unless_doubled true CLocale.iswlower
             CLocale.iswpunct CLocale.iswalnum CLocale.iswalpha Sample.FUNCTION
             Sample.UNKNOWN_COMMAND Sample.keywords Sample.busy
             (lexer_on (str "| x"))
             (Sample.accept [LINE_CONTINUATION; CMD_SEPARATOR]));
      reflexivity.
Defined.

(** *** Newlines *)

Lemma lookahead_mk (inp : list Z) (p ts : nat) (te : option nat) (r : nat) :
  lookahead (mkLexer inp p ts te r) = hd 0 inp.
Proof. reflexivity. Qed.

Lemma skip_line_run (body rest : list Z) :
  forallb (fun c => negb (is_line_end c)) body = true ->
  is_line_end (hd 0 rest) = true ->
  forall (p ts : nat) (te : option nat) (r : nat),
    skip_line (mkLexer (body ++ rest) p ts te r)
    = mkLexer rest (p + length body) ts te r.
Proof.
  intros Hbody Hrest. unfold skip_line. cbn [input]. rewrite length_app.
  generalize (length rest) as extra.
  induction body as [|c body IH]; intros extra p ts te r.
  - cbn [app length Nat.add]. rewrite Nat.add_0_r.
    destruct extra; cbn [skip_line_loop]; [reflexivity|].
    unfold lookahead. cbn [input]. unfold is_line_end in Hrest.
    rewrite <- negb_orb, Hrest. reflexivity.
  - cbn [forallb] in Hbody. apply andb_true_iff in Hbody as [Hc Hbody].
    cbn [app length Nat.add skip_line_loop]. rewrite lookahead_cons.
    unfold is_line_end in Hc. rewrite <- negb_orb, Hc, advance_cons.
    rewrite (IH Hbody). f_equal. lia.
Qed.

(** X19. A newline that no paired-separator rule takes, the indentation
    of the next line and a backslash: when none of [/], [?], [&] follows
    the backslash the call emits
    LINE_CONTINUATION with the token end marked after the backslash and the
    state untouched; when one of them follows, the call emits CMD_SEPARATOR
    if it is accepted, with the token end right after the newline and the
    suppress-comments flag cleared, and returns no match if it is not. *)
Theorem newline_then_backslash (char_signed : bool)
    (iswlower iswpunct iswalnum iswalpha : Z -> bool)
    (FUNCTION UNKNOWN_COMMAND : nat) (keywords : nat -> keyword)
    (s : Scanner) (lexer : TSLexer) (valid_symbols : nat -> bool)
    (indent rest : list Z) (p ts : nat) (te : option nat) (r : nat) :
  skip_space_tabs lexer
  = mkLexer (CH_NL :: indent ++ CH_BACKSLASH :: rest) p ts te r ->
  forallb IS_SPACE_TABS indent = true ->
  paired_separator_applies char_signed iswpunct s CH_NL valid_symbols = false ->
  exists ts',
    scan_rules char_signed iswlower iswpunct iswalnum iswalpha FUNCTION
      UNKNOWN_COMMAND keywords s lexer valid_symbols
    = (R_NEWLINE,
       if is_continuation_marker (hd 0 rest) then
         if valid_symbols CMD_SEPARATOR
         then (true, set_ignore_comments s false,
               mkLexer rest (p + length indent + 2) ts' (Some (S p))
                 CMD_SEPARATOR)
         else (false, s,
               mkLexer rest (p + length indent + 2) ts' (Some (S p)) r)
       else (true, s,
             mkLexer rest (p + length indent + 2) ts'
               (Some (p + length indent + 2)%nat) LINE_CONTINUATION)).
Proof.
  intros Hskip Hind Hpair. unfold paired_separator_applies in Hpair.
  apply orb_false_iff in Hpair as [Hfirst Hsep].
  destruct (skip_space_tabs_indent indent (CH_BACKSLASH :: rest) Hind eq_refl
              (S p) ts (Some (S p)) r) as [ts' Hindent].
  exists ts'. unfold scan_rules, scan_newline. rewrite Hskip, lookahead_cons.
  unfold paired_separator_applies. rewrite Hfirst, Hsep. eval_chars.
  rewrite advance_cons, mark_end_mk, Hindent, lookahead_cons, Z.eqb_refl.
  rewrite advance_cons. unfold is_continuation_marker, lookahead. cbn [input].
  replace (S p + length indent)%nat with (p + length indent + 1)%nat by lia.
  replace (S (p + length indent + 1)) with (p + length indent + 2)%nat by lia.
  destruct (_ || _); [destruct (valid_symbols CMD_SEPARATOR)|]; reflexivity.
Qed.

Lemma newline_then_backslash_witness :
  exists ts',
    Sample.scan_rules Sample.busy (lexer_on (CH_NL :: str "  \ x"))
      (Sample.accept [LINE_CONTINUATION])
    = (R_NEWLINE,
       (true, Sample.busy, mkLexer (str " x") 4 ts' (Some 4%nat) LINE_CONTINUATION)).
Proof.
  destruct (newline_then_backslash true CLocale.iswlower CLocale.iswpunct
              CLocale.iswalnum CLocale.iswalpha Sample.FUNCTION
              Sample.UNKNOWN_COMMAND Sample.keywords Sample.busy
              (lexer_on (CH_NL :: str "  \ x"))
              (Sample.accept [LINE_CONTINUATION]) (str "  ") (str " x")
              0%nat 0%nat None 0%nat) as [ts' H].
  - reflexivity.
  - reflexivity.
  - reflexivity.
  - exists ts'. exact H.
Defined.

(** X20. A newline that no paired-separator rule takes, that no backslash
    continues and that opens no continued comment (a heredoc is open, or
    the next line does not begin with a double quote): the call emits CMD_SEPARATOR if it is accepted,
    with the token end right after the newline although the cursor is past
    the indentation, and clears the suppress-comments flag; it returns no
    match, state untouched, if CMD_SEPARATOR is not accepted. *)
Theorem bare_newline_is_separator (char_signed : bool)
    (iswlower iswpunct iswalnum iswalpha : Z -> bool)
    (FUNCTION UNKNOWN_COMMAND : nat) (keywords : nat -> keyword)
    (s : Scanner) (lexer : TSLexer) (valid_symbols : nat -> bool)
    (indent rest : list Z) (p ts : nat) (te : option nat) (r : nat) :
  skip_space_tabs lexer = mkLexer (CH_NL :: indent ++ rest) p ts te r ->
  forallb IS_SPACE_TABS indent = true ->
  IS_SPACE_TABS (hd 0 rest) = false ->
  hd 0 rest <> CH_BACKSLASH ->
  marker_len s <> 0 \/ hd 0 rest <> CH_DQUOTE ->
  paired_separator_applies char_signed iswpunct s CH_NL valid_symbols = false ->
  exists ts',
    scan_rules char_signed iswlower iswpunct iswalnum iswalpha FUNCTION
      UNKNOWN_COMMAND keywords s lexer valid_symbols
    = (R_NEWLINE,
       if valid_symbols CMD_SEPARATOR
       then (true, set_ignore_comments s false,
             mkLexer rest (p + length indent + 1) ts' (Some (S p)) CMD_SEPARATOR)
       else (false, s, mkLexer rest (p + length indent + 1) ts' (Some (S p)) r)).
Proof.
  intros Hskip Hind Hrest Hbs Hcomment Hpair.
  unfold paired_separator_applies in Hpair.
  apply orb_false_iff in Hpair as [Hfirst Hsep].
  destruct (skip_space_tabs_indent indent rest Hind Hrest (S p) ts (Some (S p)) r)
    as [ts' Hindent].
  exists ts'. unfold scan_rules, scan_newline. rewrite Hskip, lookahead_cons.
  rewrite Hfirst, Hsep. eval_tests CH_NL.
  rewrite advance_cons, mark_end_mk, Hindent.
  replace (S p + length indent)%nat with (p + length indent + 1)%nat by lia.
  rewrite lookahead_mk.
  replace (hd 0 rest =? CH_BACKSLASH) with false
    by (symmetry; apply Z.eqb_neq; exact Hbs).
  assert (Hcheck :
    (if marker_len s =? 0
     then check_prefix char_signed
            (mkLexer rest (p + length indent + 1) ts' (Some (S p)) r)
            [CH_DQUOTE; CH_BACKSLASH; ch " "] 3 LINE_CONTINUATION_COMMENT
     else (false, mkLexer rest (p + length indent + 1) ts' (Some (S p)) r))
    = (false, mkLexer rest (p + length indent + 1) ts' (Some (S p)) r)).
  { destruct (marker_len s =? 0) eqn:Hm; [|reflexivity].
    apply Z.eqb_eq in Hm. destruct Hcomment as [Hc | Hc]; [congruence|].
    unfold check_prefix. cbn [firstn check_prefix_loop].
    rewrite char_to_int_ascii by reflexivity. rewrite lookahead_mk.
    replace (hd 0 rest =? CH_DQUOTE) with false
      by (symmetry; apply Z.eqb_neq; exact Hc).
    reflexivity. }
  rewrite Hcheck. destruct (valid_symbols CMD_SEPARATOR); reflexivity.
Qed.

Lemma bare_newline_is_separator_witness :
  exists ts',
    Sample.scan_rules Sample.busy (lexer_on (CH_NL :: str "  next"))
      (Sample.accept [LINE_CONTINUATION; CMD_SEPARATOR])
    = (R_NEWLINE,
       (true, set_ignore_comments Sample.busy false,
        mkLexer (str "next") 3 ts' (Some 1%nat) CMD_SEPARATOR)).
Proof.
  destruct (bare_newline_is_separator true CLocale.iswlower CLocale.iswpunct
              CLocale.iswalnum CLocale.iswalpha Sample.FUNCTION
              Sample.UNKNOWN_COMMAND Sample.keywords Sample.busy
              (lexer_on (CH_NL :: str "  next"))
              (Sample.accept [LINE_CONTINUATION; CMD_SEPARATOR])
              (str "  ") (str "next") 0%nat 0%nat None 0%nat) as [ts' H].
  - reflexivity.
  - reflexivity.
  - reflexivity.
  - discriminate.
  - left. discriminate.
  - reflexivity.
  - exists ts'. exact H.
Defined.

(** X21. A continued comment: with no heredoc open, a newline that no
    paired-separator rule takes, the indentation of the next line and the
    three characters double quote,
    backslash, space open a LINE_CONTINUATION_COMMENT token that runs to the
    end of that line, where its end is marked; the newline that ends the
    line is not consumed and the state is untouched. *)
Theorem newline_then_continued_comment (char_signed : bool)
    (iswlower iswpunct iswalnum iswalpha : Z -> bool)
    (FUNCTION UNKNOWN_COMMAND : nat) (keywords : nat -> keyword)
    (s : Scanner) (lexer : TSLexer) (valid_symbols : nat -> bool)
    (indent body rest : list Z) (p ts : nat) (te : option nat) (r : nat) :
  skip_space_tabs lexer
  = mkLexer (CH_NL :: indent ++ [CH_DQUOTE; CH_BACKSLASH; ch " "] ++ body ++ rest)
      p ts te r ->
  forallb IS_SPACE_TABS indent = true ->
  forallb (fun c => negb (is_line_end c)) body = true ->
  is_line_end (hd 0 rest) = true ->
  marker_len s = 0 ->
  paired_separator_applies char_signed iswpunct s CH_NL valid_symbols = false ->
  exists ts',
    scan_rules char_signed iswlower iswpunct iswalnum iswalpha FUNCTION
      UNKNOWN_COMMAND keywords s lexer valid_symbols
    = (R_NEWLINE,
       (true, s,
        mkLexer rest (p + length indent + length body + 4) ts'
          (Some (p + length indent + length body + 4)%nat)
          LINE_CONTINUATION_COMMENT)).
Proof.
  intros Hskip Hind Hbody Hrest Hmarker Hpair.
  unfold paired_separator_applies in Hpair.
  apply orb_false_iff in Hpair as [Hfirst Hsep].
  destruct (skip_space_tabs_indent indent
              ([CH_DQUOTE; CH_BACKSLASH; ch " "] ++ body ++ rest) Hind eq_refl
              (S p) ts (Some (S p)) r) as [ts' Hindent].
  exists ts'. unfold scan_rules, scan_newline. rewrite Hskip, lookahead_cons.
  rewrite Hfirst, Hsep. eval_tests CH_NL.
  rewrite advance_cons, mark_end_mk, Hindent.
  cbn [app]. rewrite lookahead_cons. eval_tests CH_DQUOTE.
  rewrite Hmarker, Z.eqb_refl.
  unfold check_prefix. cbn [firstn check_prefix_loop].
  rewrite !char_to_int_ascii by reflexivity.
  rewrite lookahead_cons, Z.eqb_refl, advance_cons.
  rewrite lookahead_cons, Z.eqb_refl, advance_cons.
  rewrite lookahead_cons, Z.eqb_refl, advance_cons.
  rewrite set_result_symbol_mk, (skip_line_run body rest Hbody Hrest), mark_end_mk.
  replace (S (S (S (S p + length indent))) + length body)%nat
    with (p + length indent + length body + 4)%nat by lia.
  reflexivity.
Qed.

Lemma newline_then_continued_comment_witness :
  exists ts',
    Sample.scan_rules tree_sitter_vim_external_scanner_create
      (lexer_on (CH_NL :: str " " ++ [CH_DQUOTE; CH_BACKSLASH; ch " "]
                   ++ str "more" ++ [CH_NL]))
      (Sample.accept [LINE_CONTINUATION])
    = (R_NEWLINE,
       (true, tree_sitter_vim_external_scanner_create,
        mkLexer [CH_NL] (0 + 1 + 4 + 4) ts' (Some (0 + 1 + 4 + 4)%nat)
          LINE_CONTINUATION_COMMENT)).
Proof.
  apply (newline_then_continued_comment true CLocale.iswlower CLocale.iswpunct
           CLocale.iswalnum CLocale.iswalpha Sample.FUNCTION
           Sample.UNKNOWN_COMMAND Sample.keywords
           tree_sitter_vim_external_scanner_create
           (lexer_on (CH_NL :: str " " ++ [CH_DQUOTE; CH_BACKSLASH; ch " "]
                        ++ str "more" ++ [CH_NL]))
           (Sample.accept [LINE_CONTINUATION]) (str " ") (str "more") [CH_NL]
           0%nat 0%nat None 0%nat).
  - reflexivity.
  - reflexivity.
  - reflexivity.
  - reflexivity.
  - reflexivity.
  - reflexivity.
Defined.

(** *** Comments, keywords and scopes *)

(** What follows from no rule of higher priority applying. *)
Lemma higher_priority_none (char_signed : bool) (iswpunct : Z -> bool)
    (s : Scanner) (c : Z) (valid_symbols : nat -> bool) :
  higher_priority_applies char_signed iswpunct s c valid_symbols = false ->
  valid_symbols SEP_FIRST && iswpunct c = false
  /\ valid_symbols SEP && (char_to_int char_signed (separator s) =? c) = false
  /\ valid_symbols BANG_FILTER && (c =? ch "!") = false
  /\ valid_symbols NO && (c =? ch "n") = false
  /\ valid_symbols INV && (c =? ch "i") = false
  /\ (c =? CH_NL) = false
  /\ valid_symbols CMD_SEPARATOR && (c =? ch "|") = false
  /\ existsb (fun x => c =? x) (str "lbstvwg<")
     && (valid_symbols SCOPE_DICT || valid_symbols SCOPE) = false
  /\ valid_symbols SCRIPT_HEREDOC_MARKER = false
  /\ valid_symbols LET_HEREDOC_MARKER = false.
Proof.
  unfold higher_priority_applies, paired_separator_applies. intros H.
  repeat (apply orb_false_iff in H; destruct H as [H ?]).
  repeat split; assumption.
Qed.

(** X22. A double quote where a comment may start: with COMMENT accepted,
    STRING and HEREDOC_END not, and no rule of higher priority applying,
    the call emits COMMENT up to the end of the line, newline excluded,
    when the suppress-comments flag is clear; when the flag is set the
    quote opens nothing and the call returns no match.  The state is
    untouched either way. *)
Theorem quote_opens_comment_unless_suppressed (char_signed : bool)
    (iswlower iswpunct iswalnum iswalpha : Z -> bool)
    (FUNCTION UNKNOWN_COMMAND : nat) (keywords : nat -> keyword)
    (s : Scanner) (lexer : TSLexer) (valid_symbols : nat -> bool)
    (body rest : list Z) (p ts : nat) (te : option nat) (r : nat) :
  skip_space_tabs lexer = mkLexer (CH_DQUOTE :: body ++ rest) p ts te r ->
  forallb (fun c => negb (is_line_end c)) body = true ->
  is_line_end (hd 0 rest) = true ->
  higher_priority_applies char_signed iswpunct s CH_DQUOTE valid_symbols = false ->
  valid_symbols HEREDOC_END = false ->
  valid_symbols COMMENT = true ->
  valid_symbols STRING = false ->
  iswlower CH_DQUOTE = false ->
  scan_rules char_signed iswlower iswpunct iswalnum iswalpha FUNCTION
    UNKNOWN_COMMAND keywords s lexer valid_symbols
  = if ignore_comments s
    then (R_NONE, (false, s, mkLexer (CH_DQUOTE :: body ++ rest) p ts te r))
    else (R_COMMENT,
          (true, s, mkLexer rest (p + length body + 1) ts te COMMENT)).
Proof.
  intros Hskip Hbody Hrest Hprio Hend Hcomment Hstring Hlower.
  apply higher_priority_none in Hprio.
  destruct Hprio as (H1 & H2 & H3 & H4 & H5 & H6 & H7 & H8 & H9 & H10).
  unfold scan_rules, scope_correct, scan_comment.
  rewrite Hskip, lookahead_cons.
  rewrite H1, H2, H3, H4, H5, H6, H7, H8, H9, H10, Hend, Hcomment, Hstring,
    Hlower.
  eval_tests CH_DQUOTE.
  destruct (ignore_comments s); cbn [negb]; [reflexivity|].
  rewrite advance_cons, (skip_line_run body rest Hbody Hrest), set_result_symbol_mk.
  replace (S p + length body)%nat with (p + length body + 1)%nat by lia.
  reflexivity.
Qed.

Lemma quote_opens_comment_unless_suppressed_witness :
  Sample.scan_rules tree_sitter_vim_external_scanner_create
    (lexer_on (CH_DQUOTE :: str " note" ++ [CH_NL]))
    (Sample.accept [LINE_CONTINUATION; COMMENT])
  = (R_COMMENT,
     (true, tree_sitter_vim_external_scanner_create,
      mkLexer [CH_NL] (0 + 5 + 1) 0 None COMMENT))
  /\ Sample.scan_rules Sample.busy
       (lexer_on (CH_DQUOTE :: str " note" ++ [CH_NL]))
       (Sample.accept [LINE_CONTINUATION; COMMENT])
     = (R_NONE,
        (false, Sample.busy, lexer_on (CH_DQUOTE :: str " note" ++ [CH_NL]))).
Proof.
  split.
  - apply (quote_opens_comment_unless_suppressed true CLocale.iswlower
             CLocale.iswpunct CLocale.iswalnum CLocale.iswalpha Sample.FUNCTION
             Sample.UNKNOWN_COMMAND Sample.keywords
             tree_sitter_vim_external_scanner_create
             (lexer_on (CH_DQUOTE :: str " note" ++ [CH_NL]))
             (Sample.accept [LINE_CONTINUATION; COMMENT])
             (str " note") [CH_NL] 0%nat 0%nat None 0%nat); reflexivity.
  - apply (quote_opens_comment_unless_suppressed true CLocale.iswlower
             CLocale.iswpunct CLocale.iswalnum CLocale.iswalpha Sample.FUNCTION
             Sample.UNKNOWN_COMMAND Sample.keywords Sample.busy
             (lexer_on (CH_DQUOTE :: str " note" ++ [CH_NL]))
             (Sample.accept [LINE_CONTINUATION; COMMENT])
             (str " note") [CH_NL] 0%nat 0%nat None 0%nat); reflexivity.
Defined.

(** X23. The keyword table is searched in table order and the first entry
    that is accepted and matches wins: the search answers [t] exactly when
    [t] is such an entry and no entry before it is, and answers nothing
    exactly when no entry is. *)
Theorem scan_keyword_table_first_match (keywords : nat -> keyword)
    (valid_symbols : nat -> bool) (possible : list Z) (ts : list nat) :
  (forall t,
     scan_keyword_table keywords ts valid_symbols possible = Some t
     <-> exists before after,
           ts = before ++ t :: after
           /\ valid_symbols (t + KEYWORDS_BASE)%nat
              && try_lex_keyword possible (keywords t) = true
           /\ Forall (fun t' =>
                        valid_symbols (t' + KEYWORDS_BASE)%nat
                        && try_lex_keyword possible (keywords t') = false)
                before)
  /\ (scan_keyword_table keywords ts valid_symbols possible = None
      <-> Forall (fun t' =>
                    valid_symbols (t' + KEYWORDS_BASE)%nat
                    && try_lex_keyword possible (keywords t') = false) ts).
Proof.
  induction ts as [|t0 ts [IHsome IHnone]].
  - split.
    + intros t. split; [discriminate|].
      intros (before & after & H & _). destruct before; discriminate H.
    + split; [constructor | reflexivity].
  - cbn [scan_keyword_table].
    destruct (valid_symbols (t0 + KEYWORDS_BASE)%nat
              && try_lex_keyword possible (keywords t0)) eqn:E.
    + split.
      * intros t. split.
        -- intros [= <-]. exists [], ts. repeat split; [exact E | constructor].
        -- intros (before & after & Hts & Hok & Hbefore).
           destruct before as [|b before].
           ++ injection Hts as -> _. reflexivity.
           ++ injection Hts as -> _. inversion Hbefore; congruence.
      * split; [discriminate|]. intros H. inversion H; congruence.
    + split.
      * intros t. rewrite IHsome. split.
        -- intros (before & after & -> & Hok & Hbefore).
           exists (t0 :: before), after. repeat split; [exact Hok|].
           constructor; assumption.
        -- intros (before & after & Hts & Hok & Hbefore).
           destruct before as [|b before].
           ++ injection Hts as -> _. congruence.
           ++ injection Hts as -> ->. inversion Hbefore; subst.
              exists before, after. repeat split; assumption.
      * rewrite IHnone. split.
        -- intros H. constructor; assumption.
        -- intros H. inversion H; assumption.
Qed.









Lemma is_scope_letter_cases (c : Z) :
  is_scope_letter c = true ->
  c = ch "g" \/ c = ch "b" \/ c = ch "l" \/ c = ch "t" \/ c = ch "w"
  \/ c = ch "s" \/ c = ch "v".
Proof.
  unfold is_scope_letter. intros H.
  repeat (apply orb_true_iff in H; destruct H as [H | H]);
    apply Z.eqb_eq in H; tauto.
Qed.

(** X26. The scope check of the keyword path does not look at the accepted
    kinds: when no rule before the keyword path applies (so neither scope
    kind is accepted), a scope letter directly followed by a colon still
    makes the call consume both and emit SCOPE. *)
Theorem keyword_path_emits_scope (char_signed : bool)
    (iswlower iswpunct iswalnum iswalpha : Z -> bool)
    (FUNCTION UNKNOWN_COMMAND : nat) (keywords : nat -> keyword)
    (s : Scanner) (lexer : TSLexer) (valid_symbols : nat -> bool)
    (c : Z) (rest : list Z) (p ts : nat) (te : option nat) (r : nat) :
  skip_space_tabs lexer = mkLexer (c :: ch ":" :: rest) p ts te r ->
  is_scope_letter c = true ->
  iswlower c = true ->
  higher_priority_applies char_signed iswpunct s c valid_symbols = false ->
  valid_symbols HEREDOC_END = false ->
  valid_symbols STRING = false ->
  valid_symbols SCOPE = false
  /\ valid_symbols SCOPE_DICT = false
  /\ scan_rules char_signed iswlower iswpunct iswalnum iswalpha FUNCTION
       UNKNOWN_COMMAND keywords s lexer valid_symbols
     = (R_KEYWORD, (true, s, mkLexer rest (p + 2) ts te SCOPE)).
Proof.
  intros Hskip Hletter Hlower Hprio Hend Hstring.
  apply higher_priority_none in Hprio.
  destruct Hprio as (H1 & H2 & H3 & H4 & H5 & H6 & H7 & H8 & H9 & H10).
  assert (Hscopes : valid_symbols SCOPE_DICT || valid_symbols SCOPE = false).
  { apply is_scope_letter_cases in Hletter.
    destruct Hletter as [-> | [-> | [-> | [-> | [-> | [-> | ->]]]]]];
      exact H8. }
  apply orb_false_iff in Hscopes as [Hdict Hscope].
  split; [exact Hscope|]. split; [exact Hdict|].
  unfold scan_rules, scope_correct, scan_keyword.
  rewrite Hskip, lookahead_cons.
  rewrite H1, H2, H3, H4, H5, H6, H7, H9, H10, Hend, Hstring, Hlower, Hdict,
    Hscope, Hletter.
  rewrite !andb_false_r. cbn [orb andb].
  assert (H0 : (c =? 0) = false).
  { apply is_scope_letter_cases in Hletter.
    destruct Hletter as [-> | [-> | [-> | [-> | [-> | [-> | ->]]]]]];
      reflexivity. }
  assert (Hq : (c =? CH_DQUOTE) = false).
  { apply is_scope_letter_cases in Hletter.
    destruct Hletter as [-> | [-> | [-> | [-> | [-> | [-> | ->]]]]]];
      reflexivity. }
  rewrite H0, Hq, !andb_false_r. cbn [negb andb].
  rewrite !advance_cons, lookahead_cons, Z.eqb_refl, set_result_symbol_mk.
  replace (S (S p)) with (p + 2)%nat by lia. reflexivity.
Qed.

Lemma keyword_path_emits_scope_witness :
  Sample.accept [LINE_CONTINUATION; 17%nat] SCOPE = false
  /\ Sample.accept [LINE_CONTINUATION; 17%nat] SCOPE_DICT = false
  /\ Sample.scan_rules Sample.busy (lexer_on (str "  g:name"))
       (Sample.accept [LINE_CONTINUATION; 17%nat])
     = (R_KEYWORD, (true, Sample.busy, mkLexer (str "name") (2 + 2) 2 None SCOPE)).
Proof.
  apply (keyword_path_emits_scope true CLocale.iswlower CLocale.iswpunct
           CLocale.iswalnum CLocale.iswalpha Sample.FUNCTION
           Sample.UNKNOWN_COMMAND Sample.keywords Sample.busy
           (lexer_on (str "  g:name"))
           (Sample.accept [LINE_CONTINUATION; 17%nat])
           (ch "g") (str "name") 2%nat 2%nat None 0%nat); reflexivity.
Defined.

(** X27. The letter form of the scope lexer: after a scope letter the
    lexer asks for a colon and fails without it; with the colon it consumes
    both and emits SCOPE when a letter, a digit, an opening brace or an
    underscore follows, SCOPE_DICT otherwise, the end of input included. *)
Theorem lex_scope_letter_form (iswalnum : Z -> bool) (c : Z) (rest : list Z)
    (p ts : nat) (te : option nat) (r : nat) :
  existsb (fun x => c =? x) (str "lbstvwg") = true ->
  (hd 0 rest <> ch ":" ->
   fst (lex_scope iswalnum (mkLexer (c :: rest) p ts te r)) = false)
  /\ (forall rest',
        rest = ch ":" :: rest' ->
        lex_scope iswalnum (mkLexer (c :: rest) p ts te r)
        = (true,
           mkLexer rest' (p + 2) ts te
             (if iswalnum (hd 0 rest') || (hd 0 rest' =? ch "{")
                 || (hd 0 rest' =? ch "_")
              then SCOPE else SCOPE_DICT))).
Proof.
  intros Hletter.
  assert (Hcorrect : scope_correct (mkLexer (c :: rest) p ts te r) = true).
  { unfold scope_correct. rewrite lookahead_cons.
    cbn [str existsb] in Hletter |- *.
    repeat (apply orb_true_iff in Hletter; destruct Hletter as [Hletter | Hletter]);
      try discriminate Hletter; rewrite Hletter;
      rewrite ?orb_true_r; reflexivity. }
  assert (Hangle : (c =? ch "<") = false).
  { cbn [str existsb] in Hletter.
    repeat (apply orb_true_iff in Hletter; destruct Hletter as [Hletter | Hletter]);
      try discriminate Hletter; apply Z.eqb_eq in Hletter; subst c;
      reflexivity. }
  unfold lex_scope. rewrite Hcorrect, lookahead_cons, Hangle. cbn [negb].
  rewrite advance_cons, lookahead_mk. split.
  - intros Hcolon. apply Z.eqb_neq in Hcolon. rewrite Hcolon. reflexivity.
  - intros rest' ->. cbn [hd]. rewrite Z.eqb_refl. cbn [negb].
    rewrite advance_cons, lookahead_mk.
    replace (S (S p)) with (p + 2)%nat by lia.
    destruct (_ || _); reflexivity.
Qed.

Lemma lex_scope_letter_form_witness :
  fst (lex_scope CLocale.iswalnum (lexer_on (str "sx"))) = false
  /\ lex_scope CLocale.iswalnum (lexer_on (str "s:var"))
     = (true, mkLexer (str "var") 2 0 None SCOPE)
  /\ lex_scope CLocale.iswalnum (lexer_on (str "s:"))
     = (true, mkLexer [] 2 0 None SCOPE_DICT).
Proof.
  destruct (lex_scope_letter_form CLocale.iswalnum (ch "s") (str "x")
              0%nat 0%nat None 0%nat eq_refl) as [Hfail _].
  destruct (lex_scope_letter_form CLocale.iswalnum (ch "s") (str ":var")
              0%nat 0%nat None 0%nat eq_refl) as [_ Hvar].
  destruct (lex_scope_letter_form CLocale.iswalnum (ch "s") (str ":")
              0%nat 0%nat None 0%nat eq_refl) as [_ Hdict].
  split; [apply Hfail; discriminate|].
  split; [exact (Hvar (str "var") eq_refl) | exact (Hdict [] eq_refl)].
Defined.

(** *** Ends of input and termination *)

(** X28. On an input of blanks only, the empty input included, a scan call
    skips the blanks and returns no match with the state untouched, whatever
    kinds are accepted. *)
Theorem scan_blank_input (char_signed : bool)
    (iswlower iswpunct iswalnum iswalpha : Z -> bool)
    (FUNCTION UNKNOWN_COMMAND : nat) (keywords : nat -> keyword)
    (s : Scanner) (lexer : TSLexer) (valid_symbols : nat -> bool) :
  forallb IS_SPACE_TABS (input lexer) = true ->
  valid_symbols LINE_CONTINUATION = true ->
  exists lexer',
    tree_sitter_vim_external_scanner_scan char_signed iswlower iswpunct
      iswalnum iswalpha FUNCTION UNKNOWN_COMMAND keywords s lexer valid_symbols
    = Some (false, s, lexer')
    /\ input lexer' = []
    /\ pos lexer' = (pos lexer + length (input lexer))%nat
    /\ token_end lexer' = token_end lexer
    /\ result_symbol lexer' = result_symbol lexer.
Proof.
  intros Hblank Hvalid. destruct lexer as [inp p ts te r]. cbn [input pos] in *.
  destruct (skip_space_tabs_indent inp [] Hblank eq_refl p ts te r)
    as [ts' Hskip].
  rewrite app_nil_r in Hskip.
  unfold tree_sitter_vim_external_scanner_scan, scan_rules.
  rewrite Hvalid, Hskip. cbn [negb lookahead input hd Z.eqb snd].
  eexists. split; [reflexivity|]. repeat split.
Qed.

Lemma scan_blank_input_witness :
  exists lexer',
    Sample.scan Sample.busy (lexer_on (str "   "))
      (Sample.accept [LINE_CONTINUATION; CMD_SEPARATOR; STRING; 17%nat])
    = Some (false, Sample.busy, lexer')
    /\ input lexer' = []
    /\ pos lexer' = (0 + 3)%nat
    /\ token_end lexer' = None
    /\ result_symbol lexer' = 0%nat.
Proof.
  apply (scan_blank_input true CLocale.iswlower CLocale.iswpunct
           CLocale.iswalnum CLocale.iswalpha Sample.FUNCTION
           Sample.UNKNOWN_COMMAND Sample.keywords Sample.busy
           (lexer_on (str "   "))
           (Sample.accept [LINE_CONTINUATION; CMD_SEPARATOR; STRING; 17%nat]));
    reflexivity.
Defined.

Lemma lex_escapable_string_loop_pass (fuel : nat) (lexer : TSLexer) :
  lex_escapable_string_loop (S fuel) lexer
  = match lex_escapable_string_pass lexer with
    | inl r => r
    | inr lexer' => lex_escapable_string_loop fuel lexer'
    end.
Proof.
  cbn [lex_escapable_string_loop]. unfold lex_escapable_string_pass.
  repeat match goal with
  | |- context [if ?b then _ else _] => destruct b
  end; reflexivity.
Qed.

Lemma lex_literal_string_loop_pass (fuel : nat) (lexer : TSLexer) :
  lex_literal_string_loop (S fuel) lexer
  = match lex_literal_string_pass lexer with
    | inl r => r
    | inr lexer' => lex_literal_string_loop fuel lexer'
    end.
Proof.
  cbn [lex_literal_string_loop]. unfold lex_literal_string_pass.
  repeat match goal with
  | |- context [if ?b then _ else _] => destruct b
  end; reflexivity.
Qed.

(** A pass that does not return has consumed a character. *)
Lemma lex_escapable_string_pass_shrinks (lexer lexer' : TSLexer) :
  lex_escapable_string_pass lexer = inr lexer' ->
  (length (input lexer') < length (input lexer))%nat.
Proof.
  unfold lex_escapable_string_pass.
  assert (Hstep : lookahead lexer <> 0 ->
                  forall skip, (length (input (advance lexer skip))
                                < length (input lexer))%nat).
  { intros Hla skip. apply lookahead_nonzero in Hla.
    pose proof (advance_length_cons lexer skip Hla). lia. }
  case_lookahead CH_BACKSLASH Hb.
  { intros [= <-]. specialize (Hstep ltac:(rewrite Hb; discriminate) false).
    pose proof (advance_length (advance lexer false) false). lia. }
  case_lookahead CH_DQUOTE Hq; [discriminate|].
  case_lookahead CH_NL Hn.
  { destruct (negb _); [discriminate|]. intros [= <-].
    pose proof (skip_space_tabs_length (advance (mark_end lexer) false)).
    assert (Hm : lookahead (mark_end lexer) <> 0)
      by (change (lookahead lexer <> 0); rewrite Hn; discriminate).
    apply lookahead_nonzero in Hm.
    pose proof (advance_length_cons (mark_end lexer) false Hm).
    change (input (mark_end lexer)) with (input lexer) in *. lia. }
  case_lookahead 0 H0; [discriminate|].
  intros [= <-]. now apply Hstep.
Qed.

Lemma lex_literal_string_pass_shrinks (lexer lexer' : TSLexer) :
  lex_literal_string_pass lexer = inr lexer' ->
  (length (input lexer') < length (input lexer))%nat.
Proof.
  unfold lex_literal_string_pass.
  assert (Hstep : lookahead lexer <> 0 ->
                  forall skip, (length (input (advance lexer skip))
                                < length (input lexer))%nat).
  { intros Hla skip. apply lookahead_nonzero in Hla.
    pose proof (advance_length_cons lexer skip Hla). lia. }
  case_lookahead CH_SQUOTE Hs.
  { destruct (lookahead (advance lexer false) =? CH_SQUOTE); [|discriminate].
    intros [= <-]. specialize (Hstep ltac:(rewrite Hs; discriminate) false).
    pose proof (advance_length (advance lexer false) false). lia. }
  case_lookahead CH_NL Hn.
  { destruct (negb _); [discriminate|]. intros [= <-].
    pose proof (skip_space_tabs_length (advance (mark_end lexer) true)).
    assert (Hm : lookahead (mark_end lexer) <> 0)
      by (change (lookahead lexer <> 0); rewrite Hn; discriminate).
    apply lookahead_nonzero in Hm.
    pose proof (advance_length_cons (mark_end lexer) true Hm).
    change (input (mark_end lexer)) with (input lexer) in *. lia. }
  case_lookahead 0 H0; [discriminate|].
  intros [= <-]. now apply Hstep.
Qed.

(** A loop whose passes shrink the input returns within as many passes as
    the input has characters, plus one. *)
Lemma passes_return {A : Type} (pass : TSLexer -> A + TSLexer)
    (loop : nat -> TSLexer -> A) :
  (forall fuel lexer,
     loop (S fuel) lexer
     = match pass lexer with inl r => r | inr lexer' => loop fuel lexer' end) ->
  (forall lexer lexer',
     pass lexer = inr lexer' ->
     (length (input lexer') < length (input lexer))%nat) ->
  forall (n : nat) (lexer : TSLexer),
    (length (input lexer) <= n)%nat ->
    passes pass (S n) lexer = Some (loop (S n) lexer).
Proof.
  intros Hunfold Hshrink. induction n as [|n IH]; intros lexer Hlen.
  - cbn [passes]. rewrite Hunfold.
    destruct (pass lexer) as [r|lexer'] eqn:E; [reflexivity|].
    apply Hshrink in E. lia.
  - change (passes pass (S (S n)) lexer)
      with (match pass lexer with
            | inl r => Some r
            | inr lexer' => passes pass (S n) lexer'
            end).
    rewrite Hunfold.
    destruct (pass lexer) as [r|lexer'] eqn:E; [reflexivity|].
    apply IH. apply Hshrink in E. lia.
Qed.

(** X29. The [while (true)] loops of the two string lexers return: a
    pass through the body that does not return leaves fewer characters to
    read than it found, and run pass by pass each loop returns, within as
    many passes as the input has characters plus one, the value of the
    lexer. *)
Theorem string_lexers_terminate (lexer : TSLexer) :
  passes lex_escapable_string_pass (S (length (input lexer))) lexer
  = Some (lex_escapable_string lexer)
  /\ passes lex_literal_string_pass (S (length (input lexer))) lexer
     = Some (lex_literal_string lexer)
  /\ (forall lexer',
        lex_escapable_string_pass lexer = inr lexer' ->
        (length (input lexer') < length (input lexer))%nat)
  /\ (forall lexer',
        lex_literal_string_pass lexer = inr lexer' ->
        (length (input lexer') < length (input lexer))%nat).
Proof.
  split; [|split; [|split]].
  - apply (passes_return _ lex_escapable_string_loop).
    + exact lex_escapable_string_loop_pass.
    + exact lex_escapable_string_pass_shrinks.
    + lia.
  - apply (passes_return _ lex_literal_string_loop).
    + exact lex_literal_string_loop_pass.
    + exact lex_literal_string_pass_shrinks.
    + lia.
  - apply lex_escapable_string_pass_shrinks.
  - apply lex_literal_string_pass_shrinks.
Qed.

Lemma string_lexers_terminate_witness :
  passes lex_escapable_string_pass 4 (lexer_on (str "abc"))
  = Some (false, mkLexer [] 3 0 None 0)
  /\ passes lex_literal_string_pass 4 (lexer_on (str "abc"))
     = Some (false, mkLexer [] 3 0 None 0).
Proof.
  destruct (string_lexers_terminate (lexer_on (str "abc"))) as (H1 & H2 & _).
  split; [exact H1 | exact H2].
Defined.
